(** * Numerical gradient kernel and multi-process task queue of RooFit

    A shallow embedding of
    - [NumericalDerivatorMinuit2::Differentiate] and
      [NumericalDerivatorMinuit2::SetInitialGradient]
      (NumericalDerivatorMinuit2.cxx),
    - the cycle loop of Minuit2's [Numerical2PGradientCalculator::operator()],
    - the queue process, the worker loop and the master side of
      [InterProcessQueueAndMessenger] (test/MultiProcess_Vector.cxx),
    - the job registry of [TaskManager] (TaskManager.cxx).

    C++ [double]s are modelled as real numbers: [std::sqrt] is [sqrt],
    [std::abs] and [fabs] are [Rabs], and [std::max(a, b)] is written out as
    the comparison [a < b ? b : a] it is defined by.  Rounding and
    infinities are not represented, and NaN only for the step of a cycle
    (the type [double]); the statements about the size of a step carry the
    condition |f(x)| + Up >= 0, under which the code takes its square root
    of a number that is not negative.  [std::vector<double>] is a [list R]
    read with the total lookup [!!!] and written with [<[i := v]>]. *)

From Stdlib Require Import Reals Lra Lia List Permutation.
From Stdlib Require String.
From stdpp Require Import base list sorting gmap gmultiset.

#[global] Instance R_inhabited : Inhabited R := populate 0%R.

(** ** Arithmetic helpers shared by both gradient calculators *)

Module Cxx.
Local Open Scope R_scope.

(** [std::max(a, b)]: returns [b] when [a < b], else [a]. *)
Definition std_max (a b : R) : R := if Rlt_dec a b then b else a.

(** [std::numeric_limits<double>::epsilon()], i.e. 2^-52. *)
Definition epsilon : R := / 2 ^ 52.

(** A [double] as far as NaN matters: a number, or NaN. *)
Inductive double :=
  | Finite (r : R)
  | NaN.

(** [std::sqrt]: NaN for a negative argument. *)
Definition std_sqrt (x : R) : double :=
  if Rlt_dec x 0 then NaN else Finite (sqrt x).

(** [a < b] on doubles: false as soon as one of them is NaN. *)
Definition double_lt (a b : double) : bool :=
  match a, b with
  | Finite x, Finite y => if Rlt_dec x y then true else false
  | _, _ => false
  end.

(** [std::max(a, b)] on doubles, by the same comparison [a < b ? b : a]: it
    returns [a] when [a] is NaN. *)
Definition std_max_double (a b : double) : double :=
  if double_lt a b then b else a.

End Cxx.

(** ** Minuit2 types the calculators consult

    [MnUserTransformation], [MinuitParameter] and [MnMachinePrecision] are
    Minuit2 classes that are not among this repository's sources.  A
    parameter is the record of the accessors the code calls; the
    transformation and the precision are taken as section variables where
    they are used. *)

Module MinuitParameter.
Record t := mk {
  Error : R;
  HasLimits : bool;
  HasUpperLimit : bool;
  HasLowerLimit : bool;
  UpperLimit : R;
  LowerLimit : R
}.
End MinuitParameter.

(** ** NumericalDerivatorMinuit2 *)

Module NumericalDerivatorMinuit2.
Import Cxx.
Local Open Scope R_scope.

(** The data members of the class that [Differentiate] reads and writes. *)
Record t := mk {
  fStepTolerance : R;
  fGradTolerance : R;
  fNCycles : nat;
  fVal : R;
  fN : nat;
  Up : R;
  fGrd : list R;
  fG2 : list R;
  fGstep : list R
}.

Definition set_fVal (d : t) (v : R) : t :=
  mk (fStepTolerance d) (fGradTolerance d) (fNCycles d) v (fN d) (Up d)
     (fGrd d) (fG2 d) (fGstep d).

Definition set_fGrd (d : t) (i : nat) (v : R) : t :=
  mk (fStepTolerance d) (fGradTolerance d) (fNCycles d) (fVal d) (fN d) (Up d)
     (<[i := v]> (fGrd d)) (fG2 d) (fGstep d).

Definition set_fG2 (d : t) (i : nat) (v : R) : t :=
  mk (fStepTolerance d) (fGradTolerance d) (fNCycles d) (fVal d) (fN d) (Up d)
     (fGrd d) (<[i := v]> (fG2 d)) (fGstep d).

Definition set_fGstep (d : t) (i : nat) (v : R) : t :=
  mk (fStepTolerance d) (fGradTolerance d) (fNCycles d) (fVal d) (fN d) (Up d)
     (fGrd d) (fG2 d) (<[i := v]> (fGstep d)).

(** The constructor: tolerances, cycles and error level as given, the three
    vectors sized [fN] and filled with 0.1, 0.1 and 0.001. *)
Definition construct (ndim : nat) (step_tolerance grad_tolerance : R)
    (ncycles : nat) (error_level : R) : t :=
  mk step_tolerance grad_tolerance ncycles 0 ndim error_level
     (replicate ndim 0.1) (replicate ndim 0.1) (replicate ndim 0.001).

(** [SetInitialValues(g, g2, s)]: the loop [for (i = 0; i < fN; i++)] that
    copies the three arrays into the three vectors. *)
Definition SetInitialValues (g g2 s : list R) (d : t) : t :=
  fold_left
    (fun d i =>
       set_fGstep (set_fG2 (set_fGrd d i (g !!! i)) i (g2 !!! i)) i (s !!! i))
    (seq 0 (fN d)) d.

(** [eps] and [eps2] of [Differentiate]. *)
Definition eps : R := epsilon.
Definition eps2 : R := sqrt eps.

(** [dfmin] and [vrysml], computed once per call. *)
Definition dfmin_of (d : t) : R := 8 * eps2 * (Rabs (fVal d) + Up d).
Definition vrysml : R := 8 * eps * eps.

(** [epspri], computed once per parameter before its cycle loop. *)
Definition epspri_of (d : t) (i : nat) : R :=
  eps2 + Rabs (fGrd d !!! i * eps2).

(** The step of one cycle, from [optstp] to the lower clamp.  There is no
    has-limits clamp here: the source marks that as a difference from
    Minuit2 (the DIFFERS comment in the cycle loop).  Doubles are real
    numbers here, so [sqrt] stands for [std::sqrt] where its argument is not
    negative, that is for [dfmin >= 0]; for a negative argument [std::sqrt]
    gives NaN, which [cycle_step_double] below represents. *)
Definition cycle_step (d : t) (i : nat) (x : list R) (epspri dfmin : R) : R :=
  let optstp := sqrt (dfmin / (Rabs (fG2 d !!! i) + epspri)) in
  let step := std_max optstp (Rabs (0.1 * (fGstep d !!! i))) in
  let stpmax := 10 * Rabs (fGstep d !!! i) in
  let step := if Rgt_dec step stpmax then stpmax else step in
  let stpmin := std_max vrysml (8 * Rabs (eps2 * (x !!! i))) in
  let step := if Rlt_dec step stpmin then stpmin else step in
  step.

(** The same step with the NaN that [std::sqrt] gives for a negative
    argument: [std::max] and the two clamps compare with it and leave it as
    it is. *)
Definition cycle_step_double (d : t) (i : nat) (x : list R) (epspri dfmin : R)
    : double :=
  let optstp := std_sqrt (dfmin / (Rabs (fG2 d !!! i) + epspri)) in
  let step := std_max_double optstp (Finite (Rabs (0.1 * (fGstep d !!! i)))) in
  let stpmax := Finite (10 * Rabs (fGstep d !!! i)) in
  let step := if double_lt stpmax step then stpmax else step in
  let stpmin := Finite (std_max vrysml (8 * Rabs (eps2 * (x !!! i)))) in
  let step := if double_lt step stpmin then stpmin else step in
  step.

Section WithFunction.
(** The function object [*fFunction]: a call returns a value and may change
    the object's own state (caches, counters). *)
Context {FState : Type}.
Variable f : list R -> FState -> R * FState.

(** The cycle loop [for (j = 0; j < ncycle; ++j)] of parameter [i];
    [n] is the number of cycles left. *)
Fixpoint cycle_loop (n : nat) (i : nat) (xtf epspri dfmin step_old : R)
    (x : list R) (d : t) (s : FState) : list R * t * FState :=
  match n with
  | O => (x, d, s)
  | S n' =>
    let step := cycle_step d i x epspri dfmin in
    if Rlt_dec (Rabs ((step - step_old) / step)) (fStepTolerance d)
    then (x, d, s)
    else
      let d := set_fGstep d i step in
      let x := <[i := xtf + step]> x in
      let '(fs1, s) := f x s in
      let x := <[i := xtf - step]> x in
      let '(fs2, s) := f x s in
      let x := <[i := xtf]> x in
      let fGrd_old := fGrd d !!! i in
      let d := set_fGrd d i (0.5 * (fs1 - fs2) / step) in
      let d := set_fG2 d i ((fs1 + fs2 - 2 * fVal d) / step / step) in
      if Rlt_dec (Rabs (fGrd_old - fGrd d !!! i)
                  / (Rabs (fGrd d !!! i) + dfmin / step))
                 (fGradTolerance d)
      then (x, d, s)
      else cycle_loop n' i xtf epspri dfmin step x d s
  end.

(** The body of the parameter loop [for (i = 0; i < fN; i++)]. *)
Definition param_body (dfmin : R) (acc : list R * t * FState) (i : nat)
    : list R * t * FState :=
  let '(x, d, s) := acc in
  let xtf := x !!! i in
  let epspri := epspri_of d i in
  cycle_loop (fNCycles d) i xtf epspri dfmin 0 x d s.

(** [Differentiate(cx)]: the derivator afterwards (its [fGrd] is what the
    returned pointer designates) and the function object's state.  This is
    the call past its two assertions, which ask for a function object of at
    least one dimension; [fN] is that dimension, set by the constructor. *)
Definition Differentiate (cx : list R) (d : t) (s : FState) : t * FState :=
  let x := cx in
  let '(v, s) := f x s in
  let d := set_fVal d v in
  let dfmin := dfmin_of d in
  let '(_, d, s) := fold_left (param_body dfmin) (seq 0 (fN d)) (x, d, s) in
  (d, s).

End WithFunction.

(** A function object without state of its own. *)
Definition stateless (g : list R -> R) : list R -> unit -> R * unit :=
  fun x _ => (g x, tt).

(** A function object that records the points it is called at. *)
Definition recording (g : list R -> R)
    : list R -> list (list R) -> R * list (list R) :=
  fun x log => (g x, log ++ [x]).

Section WithTransformation.
(** [Trafo()], [Precision().Eps2()], [par.Vec()] and [fFcn.ErrorDef()] as
    [SetInitialGradient] names them. *)
Variable Trafo_ExtOfInt : nat -> nat.
Variable Trafo_Parameter : nat -> MinuitParameter.t.
Variable Trafo_Int2ext : nat -> R -> R.
Variable Trafo_Ext2int : nat -> R -> R.
Variable Eps2 : R.
Variable ErrorDef : R.
Variable par_Vec : list R.

(** [vplu]: the internal distance to [sav + werr], cut at the upper limit. *)
Definition vplu_of (i : nat) : R :=
  let exOfIn := Trafo_ExtOfInt i in
  let var := par_Vec !!! i in
  let werr := MinuitParameter.Error (Trafo_Parameter exOfIn) in
  let sav := Trafo_Int2ext i var in
  let sav2 := sav + werr in
  let sav2 :=
    if MinuitParameter.HasLimits (Trafo_Parameter exOfIn) then
      if MinuitParameter.HasUpperLimit (Trafo_Parameter exOfIn) then
        if Rgt_dec sav2 (MinuitParameter.UpperLimit (Trafo_Parameter exOfIn))
        then MinuitParameter.UpperLimit (Trafo_Parameter exOfIn) else sav2
      else sav2
    else sav2 in
  let var2 := Trafo_Ext2int exOfIn sav2 in
  var2 - var.

(** [vmin]: the internal distance to [sav - werr], cut at the lower limit. *)
Definition vmin_of (i : nat) : R :=
  let exOfIn := Trafo_ExtOfInt i in
  let var := par_Vec !!! i in
  let werr := MinuitParameter.Error (Trafo_Parameter exOfIn) in
  let sav := Trafo_Int2ext i var in
  let sav2 := sav - werr in
  let sav2 :=
    if MinuitParameter.HasLimits (Trafo_Parameter exOfIn) then
      if MinuitParameter.HasLowerLimit (Trafo_Parameter exOfIn) then
        if Rlt_dec sav2 (MinuitParameter.LowerLimit (Trafo_Parameter exOfIn))
        then MinuitParameter.LowerLimit (Trafo_Parameter exOfIn) else sav2
      else sav2
    else sav2 in
  let var2 := Trafo_Ext2int exOfIn sav2 in
  var2 - var.

(** What one turn of the loop of [SetInitialGradient] computes for
    parameter [i]: [(grd, g2, gstep)]. *)
Definition initial_gradient_at (i : nat) : R * R * R :=
  let exOfIn := Trafo_ExtOfInt i in
  let var := par_Vec !!! i in
  let vplu := vplu_of i in
  let vmin := vmin_of i in
  let gsmin := 8 * Eps2 * (Rabs var + Eps2) in
  let dirin := std_max (0.5 * (Rabs vplu + Rabs vmin)) gsmin in
  let g2 := 2.0 * ErrorDef / (dirin * dirin) in
  let gstep := std_max gsmin (0.1 * dirin) in
  let grd := g2 * dirin in
  let gstep :=
    if MinuitParameter.HasLimits (Trafo_Parameter exOfIn) then
      if Rgt_dec gstep 0.5 then 0.5 else gstep
    else gstep in
  (grd, g2, gstep).

(** The body of the loop: [gr(i) = grd; gr2(i) = g2; gst(i) = gstep] on the
    three vectors it assigns. *)
Definition initial_gradient_body (acc : list R * list R * list R) (i : nat)
    : list R * list R * list R :=
  let '(gr, gr2, gst) := acc in
  let '(grd, g2, gstep) := initial_gradient_at i in
  (<[i := grd]> gr, <[i := g2]> gr2, <[i := gstep]> gst).

(** [SetInitialGradient()]: the loop over [i < fN]. *)
Definition SetInitialGradient (n : nat) (gr gr2 gst : list R)
    : list R * list R * list R :=
  fold_left initial_gradient_body (seq 0 n) (gr, gr2, gst).

End WithTransformation.

End NumericalDerivatorMinuit2.

(** ** Numerical2PGradientCalculator (Minuit2) *)

Module Numerical2PGradientCalculator.
Import Cxx.
Local Open Scope R_scope.

(** [FunctionGradient]: the vectors [Grad()], [G2()] and [Gstep()]. *)
Record FunctionGradient := mkFG {
  Grad : list R;
  G2 : list R;
  Gstep : list R
}.

Section WithTransformation.
Variable Trafo_ExtOfInt : nat -> nat.
Variable Trafo_Parameter : nat -> MinuitParameter.t.
(** [Precision().Eps()], [Precision().Eps2()], [Fcn().Up()] and the strategy. *)
Variable Eps Eps2 : R.
Variable FcnUp : R.
Variable Ncycle : nat.
Variable StepTolerance GradTolerance : R.

(** The step of one cycle, with the has-limits clamp between the candidate
    and the [stpmax] and [stpmin] clamps.  As in
    [NumericalDerivatorMinuit2.cycle_step], [sqrt] stands for the square root
    of the code where its argument is not negative. *)
Definition cycle_step (i : nat) (x g2 gstep : list R) (epspri dfmin vrysml : R)
    : R :=
  let optstp := sqrt (dfmin / (Rabs (g2 !!! i) + epspri)) in
  let step := std_max optstp (Rabs (0.1 * (gstep !!! i))) in
  let step :=
    if MinuitParameter.HasLimits (Trafo_Parameter (Trafo_ExtOfInt i)) then
      if Rgt_dec step 0.5 then 0.5 else step
    else step in
  let stpmax := 10 * Rabs (gstep !!! i) in
  let step := if Rgt_dec step stpmax then stpmax else step in
  let stpmin := std_max vrysml (8 * Rabs (Eps2 * (x !!! i))) in
  let step := if Rlt_dec step stpmin then stpmin else step in
  step.

Context {FState : Type}.
Variable Fcn : list R -> FState -> R * FState.

(** The cycle loop of parameter [i]; [n] is the number of cycles left. *)
Fixpoint cycle_loop (n : nat) (i : nat) (xtf epspri dfmin vrysml fcnmin : R)
    (stepb4 : R) (x grd g2 gstep : list R) (s : FState)
    : list R * list R * list R * list R * FState :=
  match n with
  | O => (x, grd, g2, gstep, s)
  | S n' =>
    let step := cycle_step i x g2 gstep epspri dfmin vrysml in
    if Rlt_dec (Rabs ((step - stepb4) / step)) StepTolerance
    then (x, grd, g2, gstep, s)
    else
      let gstep := <[i := step]> gstep in
      let x := <[i := xtf + step]> x in
      let '(fs1, s) := Fcn x s in
      let x := <[i := xtf - step]> x in
      let '(fs2, s) := Fcn x s in
      let x := <[i := xtf]> x in
      let grdb4 := grd !!! i in
      let grd := <[i := 0.5 * (fs1 - fs2) / step]> grd in
      let g2 := <[i := (fs1 + fs2 - 2 * fcnmin) / step / step]> g2 in
      if Rlt_dec (Rabs (grdb4 - grd !!! i)
                  / (Rabs (grd !!! i) + dfmin / step)) GradTolerance
      then (x, grd, g2, gstep, s)
      else cycle_loop n' i xtf epspri dfmin vrysml fcnmin step x grd g2 gstep s
  end.

(** The body of the loop over the parameters. *)
Definition param_body (dfmin vrysml fcnmin : R)
    (acc : list R * list R * list R * list R * FState) (i : nat)
    : list R * list R * list R * list R * FState :=
  let '(x, grd, g2, gstep, s) := acc in
  let xtf := x !!! i in
  let epspri := Eps2 + Rabs (grd !!! i * Eps2) in
  cycle_loop Ncycle i xtf epspri dfmin vrysml fcnmin 0 x grd g2 gstep s.

(** [operator()(par, Gradient)] in the serial build: [par.Vec()] and
    [par.Fval()] are [vec] and [fval]. *)
Definition calculate (vec : list R) (fval : R) (Gradient : FunctionGradient)
    (s : FState) : FunctionGradient * FState :=
  let fcnmin := fval in
  let dfmin := 8 * Eps2 * (Rabs fcnmin + FcnUp) in
  let vrysml := 8 * Eps * Eps in
  let n := length vec in
  let '(_, grd, g2, gstep, s) :=
    fold_left (param_body dfmin vrysml fcnmin) (seq 0 n)
      (vec, Grad Gradient, G2 Gradient, Gstep Gradient, s) in
  (mkFG grd g2 gstep, s).

End WithTransformation.

End Numerical2PGradientCalculator.

(** ** InterProcessQueueAndMessenger (test/MultiProcess_Vector.cxx) *)

Module MultiProcess.

(** [Task] and [JobTask]: a task index and the pair of a job object id and a
    task. *)
Abbreviation Task := nat (only parsing).
Abbreviation JobTask := (nat * nat)%type (only parsing).

(** The four message alphabets.  A constructor carries the values that the
    sender streams after the tag before it flushes. *)
Inductive M2Q :=
  | M2Q_terminate
  | M2Q_enqueue (job_object_id : nat) (task : Task)
  | M2Q_retrieve.

Inductive Q2M :=
  | Q2M_terminate
  | Q2M_retrieve_rejected
  | Q2M_retrieve_accepted (N_tasks : nat) (items : list (JobTask * R)).

Inductive W2Q :=
  | W2Q_terminate
  | W2Q_dequeue
  | W2Q_send_result (job_object_id : nat) (task : Task) (result : R).

Inductive Q2W :=
  | Q2W_terminate
  | Q2W_dequeue_rejected
  | Q2W_dequeue_accepted (job_object_id : nat) (task : Task)
  | Q2W_update_parameter
  | Q2W_switch_work_mode
  | Q2W_result_received.

(** The members of [InterProcessQueueAndMessenger] that the message handlers
    use.  After the forks every process has its own copy. *)
Record IPQM := mkIPQM {
  queue : list JobTask;
  N_tasks : nat;
  results : gmap JobTask R
}.

Definition IPQM_initial : IPQM := mkIPQM [] 0 ∅.

(** The order of [std::pair] keys in which a [std::map] is iterated. *)
Definition JobTask_le (a b : JobTask) : Prop :=
  a.1 < b.1 \/ (a.1 = b.1 /\ a.2 <= b.2).

Definition item_le (p q : JobTask * R) : Prop := JobTask_le p.1 q.1.

#[global] Instance item_le_dec (p q : JobTask * R) : Decision (item_le p q).
Proof. unfold item_le, JobTask_le. apply _. Defined.

(** [for (auto const &item : results)]: the entries in key order. *)
Definition items_in_order (m : gmap JobTask R) : list (JobTask * R) :=
  merge_sort item_le (map_to_list m).

(** [to_queue] on the queue process: [queue.push(job_task)]. *)
Definition to_queue (job_task : JobTask) (q : IPQM) : IPQM :=
  mkIPQM (queue q ++ [job_task]) (N_tasks q) (results q).

(** [from_queue]: the front of the queue, popped, when there is one. *)
Definition from_queue (q : IPQM) : option JobTask * IPQM :=
  match queue q with
  | [] => (None, q)
  | job_task :: rest => (Some job_task, mkIPQM rest (N_tasks q) (results q))
  end.

(** [process_queue_pipe_message]: [carry_on], the queue process afterwards
    and what it wrote to the master pipe. *)
Definition process_queue_pipe_message (message : M2Q) (q : IPQM)
    : bool * IPQM * list Q2M :=
  match message with
  | M2Q_terminate => (false, q, [])
  | M2Q_enqueue job_object_id task =>
      let q := to_queue (job_object_id, task) q in
      (true, mkIPQM (queue q) (S (N_tasks q)) (results q), [])
  | M2Q_retrieve =>
      if bool_decide (queue q = []) && (size (results q) =? N_tasks q)
      then (true, mkIPQM (queue q) 0 ∅,
            [Q2M_retrieve_accepted (N_tasks q) (items_in_order (results q))])
      else (true, q, [Q2M_retrieve_rejected])
  end.

(** [process_worker_pipe_message]: the queue process afterwards and what it
    wrote to this worker's pipe; [None] is the [runtime_error] thrown on
    [W2Q::terminate]. *)
Definition process_worker_pipe_message (message : W2Q) (q : IPQM)
    : option (IPQM * list Q2W) :=
  match message with
  | W2Q_dequeue =>
      match from_queue q with
      | (Some job_task, q) =>
          Some (q, [Q2W_dequeue_accepted job_task.1 job_task.2])
      | (None, q) => Some (q, [Q2W_dequeue_rejected])
      end
  | W2Q_send_result job_object_id task result =>
      Some (mkIPQM (queue q) (N_tasks q)
                   (<[(job_object_id, task) := result]> (results q)),
            [Q2W_result_received])
  | W2Q_terminate => None
  end.

(** [add_job_object] of this class: the next [job_counter] value, always. *)
Definition add_job_object {J : Type} (job_object : J)
    (job_objects : gmap nat J) (job_counter : nat)
    : nat * gmap nat J * nat :=
  let job_id := job_counter in
  (job_id, <[job_id := job_object]> job_objects, S job_counter).

(** The abstract class [Job]: [evaluate_task] changes the object,
    [get_task_result] reads it. *)
Class Job (J : Type) := {
  evaluate_task : Task -> J -> J;
  get_task_result : Task -> J -> R
}.

(** [xSquaredPlusBVectorSerial] with the overrides of
    [xSquaredPlusBVectorParallel]. *)
Record xSquaredPlusBVector := mkVector {
  _b : R;
  x : list R;
  result : list R
}.

Definition xSquaredPlusBVector_construct (b : R) (x_init : list R)
    : xSquaredPlusBVector :=
  mkVector b x_init (replicate (length x_init) 0%R).

(** [xSquaredPlusBVectorSerial::evaluate]. *)
Definition evaluate_serial (v : xSquaredPlusBVector) : xSquaredPlusBVector :=
  fold_left (fun v ix =>
               mkVector (_b v) (x v)
                 (<[ix := (x v !!! ix) ^ 2 + _b v]> (result v))%R)
            (seq 0 (length (x v))) v.

#[global] Instance xSquaredPlusBVector_Job : Job xSquaredPlusBVector := {
  evaluate_task task v :=
    mkVector (_b v) (x v) (<[task := (x v !!! task) ^ 2 + _b v]> (result v))%R;
  get_task_result task v := result v !!! task
}.

(** Where a worker is in [Job::worker_loop]. *)
Inductive WorkerPhase :=
  | AtLoopTop          (* about to run the loop body *)
  | AwaitsDequeueReply (* sent [W2Q::dequeue], reads the handshake *)
  | AwaitsReceipt      (* sent a result, reads [result_received] *)
  | Exited             (* [carry_on] became false *)
  | Threw.             (* a [runtime_error], or a null job object *)

(** A worker process: the loop's state, its replica of [job_objects] and
    the two directions of its pipe. *)
Record Worker (J : Type) := mkWorker {
  work_mode : bool;
  phase : WorkerPhase;
  job_objects : gmap nat J;
  to_queue_pipe : list W2Q;
  from_queue_pipe : list Q2W
}.
Arguments mkWorker {J}.
Arguments work_mode {J}.
Arguments phase {J}.
Arguments job_objects {J}.
Arguments to_queue_pipe {J}.
Arguments from_queue_pipe {J}.

Section WithJob.
Context {J : Type} `{Job J}.

(** One move of a worker in [Job::worker_loop]: sending [W2Q::dequeue] at the
    loop top in work mode, or reading one message and acting on it.  [None]
    when the worker is blocked in a read, or gone. *)
Definition worker_step (w : Worker J) : option (Worker J) :=
  match phase w with
  | AtLoopTop =>
      if work_mode w then
        Some (mkWorker true AwaitsDequeueReply (job_objects w)
                (to_queue_pipe w ++ [W2Q_dequeue]) (from_queue_pipe w))
      else
        match from_queue_pipe w with
        | [] => None
        | Q2W_terminate :: rest =>
            Some (mkWorker false Exited (job_objects w)
                    (to_queue_pipe w ++ [W2Q_terminate]) rest)
        | Q2W_switch_work_mode :: rest =>
            Some (mkWorker true AtLoopTop (job_objects w) (to_queue_pipe w) rest)
        | _ :: rest =>
            Some (mkWorker false AtLoopTop (job_objects w) (to_queue_pipe w) rest)
        end
  | AwaitsDequeueReply =>
      match from_queue_pipe w with
      | [] => None
      | Q2W_terminate :: rest =>
          Some (mkWorker (work_mode w) Exited (job_objects w) (to_queue_pipe w) rest)
      | Q2W_dequeue_accepted job_object_id task :: rest =>
          match job_objects w !! job_object_id with
          | None =>
              Some (mkWorker (work_mode w) Threw (job_objects w)
                      (to_queue_pipe w) rest)
          | Some job =>
              let job := evaluate_task task job in
              let result := get_task_result task job in
              Some (mkWorker (work_mode w) AwaitsReceipt
                      (<[job_object_id := job]> (job_objects w))
                      (to_queue_pipe w
                       ++ [W2Q_send_result job_object_id task result])
                      rest)
          end
      | Q2W_switch_work_mode :: rest =>
          Some (mkWorker false AtLoopTop (job_objects w) (to_queue_pipe w) rest)
      | _ :: rest =>
          Some (mkWorker (work_mode w) AtLoopTop (job_objects w)
                  (to_queue_pipe w) rest)
      end
  | AwaitsReceipt =>
      match from_queue_pipe w with
      | [] => None
      | Q2W_result_received :: rest =>
          Some (mkWorker (work_mode w) AtLoopTop (job_objects w)
                  (to_queue_pipe w) rest)
      | _ :: rest =>
          Some (mkWorker (work_mode w) Threw (job_objects w) (to_queue_pipe w) rest)
      end
  | Exited | Threw => None
  end.

End WithJob.

(** What the master program asks of its messenger, in order: [to_queue],
    [retrieve] and [terminate]. *)
Inductive Call :=
  | call_to_queue (job_object_id : nat) (task : Task)
  | call_retrieve
  | call_terminate.

(** The master process: its copy of the messenger, the calls still to make,
    and whether it is inside [retrieve] reading the handshake. *)
Record Master := mkMaster {
  master_ipqm : IPQM;
  calls : list Call;
  reads_handshake : bool
}.

(** [retrieve] after [retrieve_accepted]: [N_tasks] and that many results
    read into the master's [results]. *)
Definition read_results (n : nat) (items : list (JobTask * R)) (m : IPQM)
    : IPQM :=
  mkIPQM (queue m) n
    (foldl (fun res item => <[item.1 := item.2]> res) (results m)
           (take n items)).

(** The whole system: the master, the queue process with the master pipe,
    and the workers with their pipes. *)
Record System (J : Type) := mkSystem {
  master : Master;
  master_to_queue : list M2Q;
  queue_to_master : list Q2M;
  queue_process : IPQM;
  queue_loop_running : bool;
  workers : list (Worker J)
}.
Arguments mkSystem {J}.
Arguments master {J}.
Arguments master_to_queue {J}.
Arguments queue_to_master {J}.
Arguments queue_process {J}.
Arguments queue_loop_running {J}.
Arguments workers {J}.

(** Which process moves. *)
Inductive Move :=
  | master_moves
  | queue_reads_master
  | queue_reads_worker (k : nat)
  | worker_moves (k : nat).

(** What a move did to a task. *)
Inductive Event :=
  | enqueued (job_task : JobTask)
  | delivered (k : nat) (job_task : JobTask)
  | recorded (k : nat) (job_task : JobTask) (result : R)
  | accepted (items : list (JobTask * R)).

Section WithJob.
Context {J : Type} `{Job J}.

(** The system after the constructor's forks and [activate]: [N_workers]
    workers at the top of their loops, each with the job objects registered
    before the fork. *)
Definition fork (N_workers : nat) (jobs : gmap nat J) (program : list Call)
    : System J :=
  mkSystem (mkMaster IPQM_initial program false) [] [] IPQM_initial true
    (replicate N_workers (mkWorker true AtLoopTop jobs [] [])).

(** [terminate_workers]: [Q2W::terminate] on every worker pipe. *)
Definition terminate_workers (ws : list (Worker J)) : list (Worker J) :=
  map (fun w => mkWorker (work_mode w) (phase w) (job_objects w)
                  (to_queue_pipe w) (from_queue_pipe w ++ [Q2W_terminate])) ws.

(** One move of the master: the next call of its program, or the handshake
    of the [retrieve] it is in. *)
Definition master_step (s : System J) : option (System J) :=
  let m := master s in
  if reads_handshake m then
    match queue_to_master s with
    | [] => None
    | Q2M_retrieve_accepted n items :: rest =>
        Some (mkSystem
                (mkMaster (read_results n items (master_ipqm m))
                          (tail (calls m)) false)
                (master_to_queue s) rest (queue_process s)
                (queue_loop_running s) (workers s))
    | _ :: rest =>
        Some (mkSystem (mkMaster (master_ipqm m) (calls m) false)
                (master_to_queue s) rest (queue_process s)
                (queue_loop_running s) (workers s))
    end
  else
    match calls m with
    | [] => None
    | call_to_queue job_object_id task :: rest =>
        Some (mkSystem (mkMaster (master_ipqm m) rest false)
                (master_to_queue s ++ [M2Q_enqueue job_object_id task])
                (queue_to_master s) (queue_process s)
                (queue_loop_running s) (workers s))
    | call_retrieve :: _ =>
        Some (mkSystem (mkMaster (master_ipqm m) (calls m) true)
                (master_to_queue s ++ [M2Q_retrieve])
                (queue_to_master s) (queue_process s)
                (queue_loop_running s) (workers s))
    | call_terminate :: rest =>
        Some (mkSystem (mkMaster (master_ipqm m) rest false)
                (master_to_queue s ++ [M2Q_terminate])
                (queue_to_master s) (queue_process s)
                (queue_loop_running s) (workers s))
    end.

(** One turn of [queue_loop] on the master pipe: one message read and
    processed.  The inner [do ... while (bytesReadableNonBlocking() > 0)]
    goes on reading this pipe while it holds more, and each message
    overwrites [carry_on]; so the loop ends, and the workers are terminated,
    only when [carry_on] is false after the last message the pipe holds. *)
Definition queue_master_step (s : System J) : option (System J * list Event) :=
  if queue_loop_running s then
    match master_to_queue s with
    | [] => None
    | message :: rest =>
        let '(carry_on, q, out) :=
          process_queue_pipe_message message (queue_process s) in
        let ev :=
          match message, out with
          | M2Q_enqueue job_object_id task, _ => [enqueued (job_object_id, task)]
          | M2Q_retrieve, [Q2M_retrieve_accepted _ items] => [accepted items]
          | _, _ => []
          end in
        let carry_on := carry_on || negb (bool_decide (rest = [])) in
        Some (mkSystem (master s) rest (queue_to_master s ++ out) q carry_on
                (if carry_on then workers s else terminate_workers (workers s)),
              ev)
    end
  else None.

(** One turn of [queue_loop] on the pipe of worker [k]. *)
Definition queue_worker_step (k : nat) (s : System J)
    : option (System J * list Event) :=
  if queue_loop_running s then
    match workers s !! k with
    | None => None
    | Some w =>
        match to_queue_pipe w with
        | [] => None
        | message :: rest =>
            match process_worker_pipe_message message (queue_process s) with
            | None =>
                Some (mkSystem (master s) (master_to_queue s) (queue_to_master s)
                        (queue_process s) false
                        (<[k := mkWorker (work_mode w) (phase w) (job_objects w)
                                  rest (from_queue_pipe w)]> (workers s)),
                      [])
            | Some (q, out) =>
                let ev :=
                  match message, out with
                  | W2Q_dequeue, [Q2W_dequeue_accepted job_object_id task] =>
                      [delivered k (job_object_id, task)]
                  | W2Q_send_result job_object_id task result, _ =>
                      [recorded k (job_object_id, task) result]
                  | _, _ => []
                  end in
                Some (mkSystem (master s) (master_to_queue s) (queue_to_master s)
                        q true
                        (<[k := mkWorker (work_mode w) (phase w) (job_objects w)
                                  rest (from_queue_pipe w ++ out)]> (workers s)),
                      ev)
            end
        end
    end
  else None.

(** One move of the system; [None] when the chosen process cannot move. *)
Definition step (mv : Move) (s : System J) : option (System J * list Event) :=
  match mv with
  | master_moves => s' ← master_step s; Some (s', [])
  | queue_reads_master => queue_master_step s
  | queue_reads_worker k => queue_worker_step k s
  | worker_moves k =>
      w ← workers s !! k;
      w' ← worker_step w;
      Some (mkSystem (master s) (master_to_queue s) (queue_to_master s)
              (queue_process s) (queue_loop_running s)
              (<[k := w']> (workers s)),
            [])
  end.

(** A schedule run from a state: the moves in order, with the events they
    produce; [None] when a move of the schedule is not possible. *)
Fixpoint run (schedule : list Move) (s : System J) (history : list Event)
    : option (System J * list Event) :=
  match schedule with
  | [] => Some (s, history)
  | mv :: schedule =>
      match step mv s with
      | None => None
      | Some (s', ev) => run schedule s' (history ++ ev)
      end
  end.

(** The states the system can be in, each with the events so far. *)
Inductive reachable (init : System J) : System J -> list Event -> Prop :=
  | reachable_init : reachable init init []
  | reachable_step s history mv s' ev :
      reachable init s history ->
      step mv s = Some (s', ev) ->
      reachable init s' (history ++ ev).

End WithJob.

(** [Vector::gather_worker_results] after [retrieve]: the results of this
    job, by task. *)
Definition gather_worker_results (job_id : nat) (res : gmap JobTask R)
    (ipqm_results : gmap Task R) : gmap Task R :=
  foldl (fun acc item =>
           if decide (item.1.1 = job_id) then <[item.1.2 := item.2]> acc
           else acc)
        ipqm_results (items_in_order res).

(** The end of [xSquaredPlusBVectorParallel::evaluate] on the master:
    [result[ix] = ipqm_results[ix]], where a missing key reads as 0. *)
Definition collect_result (n : nat) (ipqm_results : gmap Task R) : list R :=
  map (fun ix => default 0%R (ipqm_results !! ix)) (seq 0 n).

(** The calls of one [evaluate()] on the master, for [n] tasks. *)
Definition evaluate_calls (job_id : nat) (n : nat) : list Call :=
  map (call_to_queue job_id) (seq 0 n) ++ [call_retrieve].

(** [get_result()] of the parallel vector on the master, once [evaluate()]
    has returned. *)
Definition get_result_parallel (job_id : nat) (n : nat) (m : Master) : list R :=
  collect_result n (gather_worker_results job_id (results (master_ipqm m)) ∅).

(** The histories: which tasks were enqueued, delivered and recorded. *)
Definition enqueued_tasks (history : list Event) : list JobTask :=
  flat_map (fun e => match e with enqueued jt => [jt] | _ => [] end) history.

Definition delivered_tasks (history : list Event) : list (nat * JobTask) :=
  flat_map (fun e => match e with delivered k jt => [(k, jt)] | _ => [] end)
           history.

Definition recorded_tasks (history : list Event) : list JobTask :=
  flat_map (fun e => match e with recorded _ jt _ => [jt] | _ => [] end) history.

(** The results recorded, each with its task, in the order in which the
    queue process stored them. *)
Definition recorded_results (history : list Event) : list (JobTask * R) :=
  flat_map (fun e => match e with recorded _ jt r => [(jt, r)] | _ => [] end)
           history.

End MultiProcess.

(** ** The step rule in the specification's words *)

Module Spec.
Local Open Scope R_scope.

(** Steps 2 to 5 of the algorithm of the numerical gradient kernel: the
    candidate [max(opt, |0.1 gstep_i|)], cut to 0.5 for a parameter with
    limits, then cut above by [10 |gstep_i|] and below by [stpmin]. *)
Definition clamped_step (has_limits : bool) (opt gstep_i stpmin : R) : R :=
  let candidate := Rmax opt (Rabs (0.1 * gstep_i)) in
  let limited := if has_limits then Rmin candidate 0.5 else candidate in
  Rmax stpmin (Rmin limited (10 * Rabs gstep_i)).

End Spec.

(** ** Predicates used to state the properties *)

Module Invariants.
Import NumericalDerivatorMinuit2.

(** [frame P d d']: [d'] differs from [d] at most in the cells of the three
    vectors whose index satisfies [P]. *)
Definition frame (P : nat -> Prop) (d d' : t) : Prop :=
  fStepTolerance d' = fStepTolerance d /\
  fGradTolerance d' = fGradTolerance d /\
  fNCycles d' = fNCycles d /\
  fVal d' = fVal d /\
  fN d' = fN d /\
  Up d' = Up d /\
  length (fGrd d') = length (fGrd d) /\
  length (fG2 d') = length (fG2 d) /\
  length (fGstep d') = length (fGstep d) /\
  forall j, ~ P j ->
    fGrd d' !! j = fGrd d !! j /\
    fG2 d' !! j = fG2 d !! j /\
    fGstep d' !! j = fGstep d !! j.


(** The state of the parameter loop of [Differentiate] as Minuit2 carries
    it: the point and the three vectors. *)
Definition loop_vectors {FState : Type} (r : list R * t * FState)
    : list R * list R * list R * list R :=
  (r.1.1, fGrd r.1.2, fG2 r.1.2, fGstep r.1.2).

End Invariants.

(** ** Predicates on the states of the queue system *)

Module QueueInvariants.
Import MultiProcess.

(** The tasks a pipe still carries: handed out in a [dequeue_accepted], or
    coming back in a [send_result]. *)
Definition accepted_in (pipe : list Q2W) : list JobTask :=
  flat_map (fun m => match m with
                     | Q2W_dequeue_accepted j t => [(j, t)]
                     | _ => []
                     end) pipe.

Definition results_in (pipe : list W2Q) : list JobTask :=
  flat_map (fun m => match m with
                     | W2Q_send_result j t _ => [(j, t)]
                     | _ => []
                     end) pipe.

(** The tasks in flight at a worker: delivered, result not yet recorded. *)
Definition in_flight {J : Type} (w : Worker J) : gmultiset JobTask :=
  list_to_set_disj (accepted_in (from_queue_pipe w))
  ⊎ list_to_set_disj (results_in (to_queue_pipe w)).

Definition all_in_flight {J : Type} (ws : list (Worker J)) : gmultiset JobTask :=
  foldr (fun w X => in_flight w ⊎ X) ∅ ws.

(** The program makes no [terminate] call and enqueues only tasks of
    registered jobs. *)
Definition program_ok {J : Type} (jobs : gmap nat J) (program : list Call)
    : Prop :=
  (call_terminate ∉ program) /\
  forall j t, call_to_queue j t ∈ program -> is_Some (jobs !! j).

(** Where a worker and its pipe can be while the queue loop runs. *)
Definition worker_ok {J : Type} (jobs : gmap nat J) (w : Worker J) : Prop :=
  work_mode w = true /\
  dom (job_objects w) = dom jobs /\
  match phase w with
  | AtLoopTop => to_queue_pipe w = [] /\ from_queue_pipe w = []
  | AwaitsDequeueReply =>
      (to_queue_pipe w = [W2Q_dequeue] /\ from_queue_pipe w = []) \/
      (to_queue_pipe w = [] /\ from_queue_pipe w = [Q2W_dequeue_rejected]) \/
      (to_queue_pipe w = [] /\
       exists j t, from_queue_pipe w = [Q2W_dequeue_accepted j t] /\
                   is_Some (jobs !! j))
  | AwaitsReceipt =>
      (exists j t r, to_queue_pipe w = [W2Q_send_result j t r] /\
                     from_queue_pipe w = []) \/
      (to_queue_pipe w = [] /\ from_queue_pipe w = [Q2W_result_received])
  | Exited | Threw => False
  end.

(** What holds of every reachable state and its history. *)
Record queue_invariant {J : Type} (jobs : gmap nat J) (s : System J)
    (history : list Event) : Prop := mk_queue_invariant {
  inv_running : queue_loop_running s = true;
  inv_calls : program_ok jobs (calls (master s));
  inv_m2q : forall m, m ∈ master_to_queue s ->
            m <> M2Q_terminate /\
            forall j t, m = M2Q_enqueue j t -> is_Some (jobs !! j);
  inv_queue : forall j t, (j, t) ∈ queue (queue_process s) -> is_Some (jobs !! j);
  inv_workers : forall k w, workers s !! k = Some w -> worker_ok jobs w;
  inv_fifo : enqueued_tasks history =
             (delivered_tasks history).*2 ++ queue (queue_process s);
  inv_flight : list_to_set_disj (delivered_tasks history).*2 =
               all_in_flight (workers s)
               ⊎ list_to_set_disj (recorded_tasks history);
  inv_count : (size (results (queue_process s))
               + length (queue (queue_process s))
               + size (all_in_flight (workers s)))
              <= N_tasks (queue_process s)
}.

(** The events since the last accepted retrieve: the current batch. *)
Fixpoint batch_from (batch : list Event) (history : list Event) : list Event :=
  match history with
  | [] => batch
  | accepted _ :: history => batch_from [] history
  | e :: history => batch_from (batch ++ [e]) history
  end.

Definition since_accept (history : list Event) : list Event :=
  batch_from [] history.

(** What the counter and the result map of the queue process stand for: the
    tasks enqueued since the last accepted retrieve, and the results recorded
    since then, stored in that order under their tasks; up to that retrieve
    everything enqueued was delivered and recorded. *)
Record batch_invariant {J : Type} (s : System J) (history : list Event)
    : Prop := mk_batch_invariant {
  batch_count : N_tasks (queue_process s)
                = length (enqueued_tasks (since_accept history));
  batch_results : dom (results (queue_process s))
                  = list_to_set (recorded_tasks (since_accept history));
  batch_values : results (queue_process s)
                 = foldl (fun res item => <[item.1 := item.2]> res) ∅
                     (recorded_results (since_accept history));
  batch_before : exists before,
      history = before ++ since_accept history /\
      enqueued_tasks before = (delivered_tasks before).*2 /\
      (delivered_tasks before).*2 ≡ₚ recorded_tasks before
}.

End QueueInvariants.

(** ** Predicates on the values that travel through the queue system *)

Module ResultInvariants.
Import MultiProcess QueueInvariants.

(** A task of a registered job whose index is inside the job's vectors. *)
Definition valid_task (jobs : gmap nat xSquaredPlusBVector) (jt : nat * nat)
    : Prop :=
  exists job, jobs !! jt.1 = Some job /\
              jt.2 < length (x job) /\ length (result job) = length (x job).

(** The result [x[task]^2 + b] of a task. *)
Definition expected (jobs : gmap nat xSquaredPlusBVector) (jt : nat * nat) : R :=
  match jobs !! jt.1 with
  | Some job => (x job !!! jt.2) ^ 2 + _b job
  | None => 0
  end%R.

(** The tasks a program enqueues, those still on the master pipe, and the
    results the master has been sent but has not read. *)
Definition tasks_of (program : list Call) : list (nat * nat) :=
  flat_map (fun c => match c with
                     | call_to_queue j t => [(j, t)]
                     | _ => []
                     end) program.

Definition enqueues_in (pipe : list M2Q) : list (nat * nat) :=
  flat_map (fun m => match m with
                     | M2Q_enqueue j t => [(j, t)]
                     | _ => []
                     end) pipe.

Definition payload (pipe : list Q2M) : list (nat * nat * R) :=
  flat_map (fun m => match m with
                     | Q2M_retrieve_accepted n items => take n items
                     | _ => []
                     end) pipe.

(** A worker's replica of the job objects differs from the registered ones
    in the [result] vectors only, and the tasks and results on its pipe are
    valid and right. *)
Definition worker_values_ok (jobs : gmap nat xSquaredPlusBVector)
    (w : Worker xSquaredPlusBVector) : Prop :=
  (forall j job', job_objects w !! j = Some job' ->
     exists job, jobs !! j = Some job /\ x job' = x job /\ _b job' = _b job /\
                 length (result job') = length (result job)) /\
  (forall jt, jt ∈ accepted_in (from_queue_pipe w) -> valid_task jobs jt) /\
  (forall j t r, W2Q_send_result j t r ∈ to_queue_pipe w ->
     r = expected jobs (j, t)).

(** Where the master and its pipe can be. *)
Definition master_ok {J : Type} (s : System J) : Prop :=
  if reads_handshake (master s) then
    (exists rest, calls (master s) = call_retrieve :: rest) /\
    ((exists pre, master_to_queue s = pre ++ [M2Q_retrieve] /\
                  (M2Q_retrieve ∉ pre) /\ queue_to_master s = []) \/
     (master_to_queue s = [] /\ exists msg, queue_to_master s = [msg]))
  else
    queue_to_master s = [] /\ (M2Q_retrieve ∉ master_to_queue s).

(** What holds of every reachable state of a system of
    [xSquaredPlusBVector] jobs whose program is [program]. *)
Record result_invariant (jobs : gmap nat xSquaredPlusBVector)
    (program : list Call) (s : System xSquaredPlusBVector) : Prop :=
  mk_result_invariant {
  res_workers : forall k w, workers s !! k = Some w -> worker_values_ok jobs w;
  res_calls : forall jt, jt ∈ tasks_of (calls (master s)) -> valid_task jobs jt;
  res_m2q : forall jt, jt ∈ enqueues_in (master_to_queue s) -> valid_task jobs jt;
  res_queue : forall jt, jt ∈ queue (queue_process s) -> valid_task jobs jt;
  res_results : forall jt r, results (queue_process s) !! jt = Some r ->
                r = expected jobs jt;
  res_payload : forall jt r, (jt, r) ∈ payload (queue_to_master s) ->
                r = expected jobs jt;
  res_master : forall jt r, results (master_ipqm (master s)) !! jt = Some r ->
               r = expected jobs jt;
  res_protocol : master_ok s;
  res_accepted : forall n items,
      Q2M_retrieve_accepted n items ∈ queue_to_master s ->
      queue (queue_process s) = [] /\ results (queue_process s) = ∅ /\
      all_in_flight (workers s) = ∅ /\ n = length items;
  res_suffix : exists done, program = done ++ calls (master s);
  res_somewhere : forall jt, jt ∈ tasks_of program ->
      jt ∈ tasks_of (calls (master s)) \/
      jt ∈ enqueues_in (master_to_queue s) \/
      jt ∈ queue (queue_process s) \/
      jt ∈ all_in_flight (workers s) \/
      is_Some (results (queue_process s) !! jt) \/
      jt ∈ (payload (queue_to_master s)).*1 \/
      is_Some (results (master_ipqm (master s)) !! jt);
  res_done : calls (master s) = [] ->
      forall jt, jt ∈ tasks_of program ->
      is_Some (results (master_ipqm (master s)) !! jt)
}.

End ResultInvariants.

(** ** Concrete inputs *)

Module Scenario.
Local Open Scope R_scope.

(** A one-parameter derivator with the default tolerances (0.5, 0.1), one
    cycle, error level 1 and the state (grad, g2, gstep) = (0, 0, 1). *)
Definition unit_derivator : NumericalDerivatorMinuit2.t :=
  NumericalDerivatorMinuit2.mk 0.5 0.1 1 0 1 1 [0] [0] [1].

(** The same derivator once [fVal] caches the value 1. *)
Definition unit_derivator_at_1 : NumericalDerivatorMinuit2.t :=
  NumericalDerivatorMinuit2.mk 0.5 0.1 1 1 1 1 [0] [0] [1].

(** The constant function 1. *)
Definition const_one : list R -> R := fun _ => 1.

(** A one-parameter derivator whose [fVal] caches the value 1, with the
    error level -3. *)
Definition negative_level_derivator : NumericalDerivatorMinuit2.t :=
  NumericalDerivatorMinuit2.mk 0.5 0.1 1 1 1 (-3) [0] [0] [1].

End Scenario.

(** ** The single-job test of the queue system *)

Module SmokeTest.
Import MultiProcess.

(** The inputs of [MultiProcessVectorSingleJob.getResult]. *)
Definition x_init : list R := [0; 1; 2; 3]%R.
Definition b_initial : R := 3%R.
Definition y_expected : list R := [3; 4; 7; 12]%R.

Definition x_sq_plus_b : xSquaredPlusBVector :=
  xSquaredPlusBVector_construct b_initial x_init.

(** [get_result()] of the serial vector: [evaluate()], then [result]. *)
Definition get_result_serial (v : xSquaredPlusBVector) : list R :=
  result (evaluate_serial v).

(** The constructor of the parallel vector registers the job first. *)
Definition registration : nat * gmap nat xSquaredPlusBVector * nat :=
  add_job_object x_sq_plus_b ∅ 0.

Definition job_id : nat := registration.1.1.

(** The system of the parallel vector with [NumCPU] workers, whose master
    runs one [evaluate()]. *)
Definition x_sq_plus_b_parallel (NumCPU : nat) : System xSquaredPlusBVector :=
  fork NumCPU registration.1.2 (evaluate_calls job_id (length x_init)).

(** Worker [k] takes one task from the queue and sends its result back. *)
Definition one_task (k : nat) : list Move :=
  [worker_moves k; queue_reads_worker k; worker_moves k; queue_reads_worker k;
   worker_moves k].

(** One schedule of the whole test: the master enqueues, the queue process
    reads, the workers take the tasks in turn, the master retrieves. *)
Definition schedule (NumCPU : nat) : list Move :=
  replicate 4 master_moves ++ replicate 4 queue_reads_master
  ++ flat_map (fun t => one_task (t mod NumCPU)) (seq 0 4)
  ++ [master_moves; queue_reads_master; master_moves].

(** Whether the schedule runs and leaves the master with no call to make. *)
Definition finishes (NumCPU : nat) : bool :=
  match run (schedule NumCPU) (x_sq_plus_b_parallel NumCPU) [] with
  | Some (s, _) => match calls (master s) with [] => true | _ => false end
  | None => false
  end.

(** The system of one worker whose master enqueues task 0 of the job
    twice before it retrieves. *)
Definition task_twice : System xSquaredPlusBVector :=
  fork 1 registration.1.2
    [call_to_queue job_id 0; call_to_queue job_id 0; call_retrieve].

End SmokeTest.

(** ** [RooFit::MultiProcess::TaskManager]: registration of jobs

    The successor of [InterProcessQueueAndMessenger], as the master process
    sees it.  The class declaration is not part of the sources at hand, so
    the member initialiser of [queue_activated] is an argument. *)

Module TaskManager.
Import String.

(** The members of an instance that [add_job_object] depends on. *)
Record t := mk {
  N_workers : nat;
  processes_initialized : bool;
  queue_activated : bool
}.

(** The static members of the class. *)
Record Static (J : Type) := mkStatic {
  _instance : option t;
  job_objects : gmap nat J;
  job_counter : nat
}.
Arguments mkStatic {J}.
Arguments _instance {J}.
Arguments job_objects {J}.
Arguments job_counter {J}.

Inductive exception :=
  | logic_error (what : String.string)
  | runtime_error (what : String.string).

Definition activated_message : String.string :=
  "Cannot add Job to activated TaskManager instantiation (forking has already taken place)! Call terminate() on the instance before adding new Jobs."%string.

Definition initial {J : Type} : Static J := mkStatic None ∅ 0.

(** [initialize_processes]: the forks. *)
Definition initialize_processes (tm : t) : t :=
  mk (N_workers tm) true (queue_activated tm).

(** The constructor: it forks at once. *)
Definition construct (queue_activated_default : bool) (N_workers : nat) : t :=
  initialize_processes (mk N_workers false queue_activated_default).

Definition is_instantiated {J : Type} (st : Static J) : bool :=
  bool_decide (is_Some (_instance st)).

Definition is_activated (tm : t) : bool := queue_activated tm.

(** [instance(N_workers)]: creates the instance when there is none; [None]
    is the failed [assert(N_workers != 0)]. *)
Definition instance {J : Type} (queue_activated_default : bool)
    (N_workers : nat) (st : Static J) : option (Static J) :=
  match _instance st with
  | Some _ => Some st
  | None =>
      if decide (N_workers = 0) then None
      else Some (mkStatic (Some (construct queue_activated_default N_workers))
                   (job_objects st) (job_counter st))
  end.

(** [activate] on the master. *)
Definition activate (tm : t) : t :=
  let tm := if processes_initialized tm then tm else initialize_processes tm in
  mk (N_workers tm) (processes_initialized tm) true.

(** [shutdown_processes], when the pipe does not throw.  The queue pipe
    itself is not part of this state: the function resets it, and a second
    shutdown without a new [initialize_processes] in between would
    dereference the null pointer, which this function does not show. *)
Definition shutdown_processes (tm : t) : t :=
  mk (N_workers tm) false (queue_activated tm).

(** [terminate]: an exception of the pipe is caught, and then nothing has
    been reset. *)
Definition terminate (pipe_throws : bool) (tm : t) : t :=
  if pipe_throws then tm
  else let tm := shutdown_processes tm in
       mk (N_workers tm) (processes_initialized tm) false.

(** [add_job_object]: the exception, or the job id and the new statics. *)
Definition add_job_object {J : Type} (job_object : J) (st : Static J)
    : exception + (nat * Static J) :=
  let activated :=
    match _instance st with
    | Some tm => is_activated tm
    | None => false
    end in
  if activated then inl (logic_error activated_message)
  else
    let job_id := job_counter st in
    inr (job_id, mkStatic (_instance st)
                   (<[job_id := job_object]> (job_objects st))
                   (S (job_counter st))).

(** [remove_job_object]: the last job to go takes the instance with it.
    [_instance.reset] runs the destructor, whose [terminate()] shuts the
    processes down; the statics afterwards are these when the instance had
    its processes (and so its queue pipe) at the time. *)
Definition remove_job_object {J : Type} (job_object_id : nat) (st : Static J)
    : bool * Static J :=
  let removed_succesfully := bool_decide (is_Some (job_objects st !! job_object_id)) in
  let job_objects := delete job_object_id (job_objects st) in
  (removed_succesfully,
   mkStatic (if decide (size job_objects = 0) then None else _instance st)
     job_objects (job_counter st)).

(** What a program does with the task manager, one call at a time. *)
Inductive Op (J : Type) :=
  | op_instance (N_workers : nat)
  | op_activate
  | op_terminate (pipe_throws : bool)
  | op_add_job_object (job_object : J)
  | op_remove_job_object (job_object_id : nat).
Arguments op_instance {J}.
Arguments op_activate {J}.
Arguments op_terminate {J}.
Arguments op_add_job_object {J}.
Arguments op_remove_job_object {J}.

(** A call on [TaskManager::instance()]; [None] is its [runtime_error] when
    there is no instance. *)
Definition on_instance {J : Type} (f : t -> t) (st : Static J)
    : option (Static J) :=
  tm ← _instance st;
  Some (mkStatic (Some (f tm)) (job_objects st) (job_counter st)).

Definition apply_op {J : Type} (queue_activated_default : bool) (op : Op J)
    (st : Static J) : option (Static J) :=
  match op with
  | op_instance N_workers => instance queue_activated_default N_workers st
  | op_activate => on_instance activate st
  | op_terminate pipe_throws => on_instance (terminate pipe_throws) st
  | op_add_job_object job_object =>
      match add_job_object job_object st with
      | inl _ => None
      | inr (_, st) => Some st
      end
  | op_remove_job_object job_object_id =>
      Some (remove_job_object job_object_id st).2
  end.

(** The calls of a program in order; [None] when one of them throws. *)
Definition run_ops {J : Type} (queue_activated_default : bool)
    (ops : list (Op J)) (st : Static J) : option (Static J) :=
  foldl (fun st op => st ← st; apply_op queue_activated_default op st)
        (Some st) ops.

End TaskManager.

(** ** Predicates on the statics of the task manager *)

Module RegistryInvariants.
Import TaskManager.

(** Registered job ids lie below the job counter, and an instance has
    workers and, while activated, its processes. *)
Definition registry_ok {J : Type} (st : Static J) : Prop :=
  (forall id, is_Some (job_objects st !! id) -> id < job_counter st) /\
  forall tm, _instance st = Some tm ->
    N_workers tm <> 0 /\
    (is_activated tm = true -> processes_initialized tm = true).

End RegistryInvariants.

(** ** The queue process at work on a sequence of messages *)

Module QueueRuns.
Import MultiProcess.

(** [queue_loop] reading the messages that the master pipe holds, one after
    another in its inner [do ... while] loop: every message is processed and
    overwrites [carry_on].  Whether the loop carries on after the last of
    them, the queue process afterwards and all it wrote to the master. *)
Fixpoint handle_master_messages (messages : list M2Q) (q : IPQM)
    : bool * IPQM * list Q2M :=
  match messages with
  | [] => (true, q, [])
  | message :: rest =>
      let '(carry_on, q, out) := process_queue_pipe_message message q in
      match rest with
      | [] => (carry_on, q, out)
      | _ :: _ =>
          let '(carry_on, q, out') := handle_master_messages rest q in
          (carry_on, q, out ++ out')
      end
  end.

(** [queue_loop] reading the messages of one worker pipe one after another;
    [None] when [process_worker_pipe_message] throws. *)
Fixpoint handle_worker_messages (messages : list W2Q) (q : IPQM)
    : option (IPQM * list Q2W) :=
  match messages with
  | [] => Some (q, [])
  | message :: rest =>
      '(q, out) ← process_worker_pipe_message message q;
      '(q, out') ← handle_worker_messages rest q;
      Some (q, out ++ out')
  end.

End QueueRuns.

(** ** What travels on the pipes

    The stream operators of the message enums cast to [int] and back; the
    payload of a message follows its tag as [std::size_t]s and [double]s. *)

Module Wire.
Import MultiProcess.

Inductive Datum :=
  | d_int (z : Z)
  | d_size (n : nat)
  | d_double (r : R).

(** The writers: [pipe << tag << ...] as the sender of each message has it. *)
Definition send_M2Q (message : M2Q) : list Datum :=
  match message with
  | M2Q_terminate => [d_int 100]
  | M2Q_enqueue job_object_id task =>
      [d_int 10; d_size job_object_id; d_size task]
  | M2Q_retrieve => [d_int 11]
  end.

Definition send_item (item : JobTask * R) : list Datum :=
  [d_size item.1.1; d_size item.1.2; d_double item.2].

Definition send_Q2M (message : Q2M) : list Datum :=
  match message with
  | Q2M_terminate => [d_int 200]
  | Q2M_retrieve_rejected => [d_int 20]
  | Q2M_retrieve_accepted N_tasks items =>
      d_int 21 :: d_size N_tasks :: flat_map send_item items
  end.

Definition send_W2Q (message : W2Q) : list Datum :=
  match message with
  | W2Q_terminate => [d_int 300]
  | W2Q_dequeue => [d_int 30]
  | W2Q_send_result job_object_id task result =>
      [d_int 31; d_size job_object_id; d_size task; d_double result]
  end.

Definition send_Q2W (message : Q2W) : list Datum :=
  match message with
  | Q2W_terminate => [d_int 400]
  | Q2W_dequeue_rejected => [d_int 40]
  | Q2W_dequeue_accepted job_object_id task =>
      [d_int 41; d_size job_object_id; d_size task]
  | Q2W_update_parameter => [d_int 42]
  | Q2W_switch_work_mode => [d_int 43]
  | Q2W_result_received => [d_int 44]
  end.

(** The readers: [pipe >> tag] and then the reads of the case of that tag.
    [None] when the pipe does not start with a whole message of the
    alphabet. *)
Definition receive_M2Q (pipe : list Datum) : option (M2Q * list Datum) :=
  match pipe with
  | d_int z :: rest =>
      if (z =? 100)%Z then Some (M2Q_terminate, rest)
      else if (z =? 10)%Z then
        match rest with
        | d_size job_object_id :: d_size task :: rest =>
            Some (M2Q_enqueue job_object_id task, rest)
        | _ => None
        end
      else if (z =? 11)%Z then Some (M2Q_retrieve, rest)
      else None
  | _ => None
  end.

(** The loop of [retrieve] that reads [N_tasks] results. *)
Fixpoint receive_items (n : nat) (pipe : list Datum)
    : option (list (JobTask * R) * list Datum) :=
  match n with
  | O => Some ([], pipe)
  | S n =>
      match pipe with
      | d_size job_object_id :: d_size task :: d_double result :: rest =>
          '(items, rest) ← receive_items n rest;
          Some (((job_object_id, task), result) :: items, rest)
      | _ => None
      end
  end.

Definition receive_Q2M (pipe : list Datum) : option (Q2M * list Datum) :=
  match pipe with
  | d_int z :: rest =>
      if (z =? 200)%Z then Some (Q2M_terminate, rest)
      else if (z =? 20)%Z then Some (Q2M_retrieve_rejected, rest)
      else if (z =? 21)%Z then
        match rest with
        | d_size N_tasks :: rest =>
            '(items, rest) ← receive_items N_tasks rest;
            Some (Q2M_retrieve_accepted N_tasks items, rest)
        | _ => None
        end
      else None
  | _ => None
  end.

Definition receive_W2Q (pipe : list Datum) : option (W2Q * list Datum) :=
  match pipe with
  | d_int z :: rest =>
      if (z =? 300)%Z then Some (W2Q_terminate, rest)
      else if (z =? 30)%Z then Some (W2Q_dequeue, rest)
      else if (z =? 31)%Z then
        match rest with
        | d_size job_object_id :: d_size task :: d_double result :: rest =>
            Some (W2Q_send_result job_object_id task result, rest)
        | _ => None
        end
      else None
  | _ => None
  end.

Definition receive_Q2W (pipe : list Datum) : option (Q2W * list Datum) :=
  match pipe with
  | d_int z :: rest =>
      if (z =? 400)%Z then Some (Q2W_terminate, rest)
      else if (z =? 40)%Z then Some (Q2W_dequeue_rejected, rest)
      else if (z =? 41)%Z then
        match rest with
        | d_size job_object_id :: d_size task :: rest =>
            Some (Q2W_dequeue_accepted job_object_id task, rest)
        | _ => None
        end
      else if (z =? 42)%Z then Some (Q2W_update_parameter, rest)
      else if (z =? 43)%Z then Some (Q2W_switch_work_mode, rest)
      else if (z =? 44)%Z then Some (Q2W_result_received, rest)
      else None
  | _ => None
  end.

End Wire.

(** ** [MPRooNLLVar]: how the events are divided over the tasks *)

Module MPRooNLLVar.
Local Open Scope N_scope.

Inductive RooNLLVarTask :=
  | all_events
  | single_event
  | bulk_partition
  | interleave.

(** Arithmetic of [std::size_t]: modulo 2^64. *)
Definition size_t (n : N) : N := n mod 2 ^ 64.

(** [N_tasks] as the constructor sets it. *)
Definition N_tasks_of (mp_task_mode : RooNLLVarTask) (N_events NumCPU : N) : N :=
  match mp_task_mode with
  | all_events => 1
  | single_event => N_events
  | bulk_partition | interleave => NumCPU
  end.

(** [evaluate_task]: the [first], [last] and [step] it passes to
    [evaluatePartition]. *)
Definition partition_of (mp_task_mode : RooNLLVarTask) (N_events N_tasks task : N)
    : N * N * N :=
  let first := task in
  let last := N_events in
  let step := 1 in
  match mp_task_mode with
  | all_events => (first, last, step)
  | single_event => (first, size_t (task + 1), step)
  | bulk_partition =>
      (size_t (N_events * task) / N_tasks,
       size_t (N_events * size_t (task + 1)) / N_tasks,
       step)
  | interleave => (first, last, N_tasks)
  end.

(** The events of a partition: [first], [first + step], ... below [last],
    as the event loop of [evaluatePartition] takes them. *)
Definition in_partition (p : N * N * N) (event : N) : Prop :=
  p.1.1 <= event < p.1.2 /\ (event - p.1.1) mod p.2 = 0.

End MPRooNLLVar.

(** * Properties *)

(** ** Arithmetic *)

Module CxxFacts.
Import Cxx.
Local Open Scope R_scope.

Lemma std_max_Rmax a b : std_max a b = Rmax a b.
Proof. unfold std_max, Rmax. destruct (Rlt_dec a b), (Rle_dec a b); lra. Qed.

Lemma std_max_l a b : a <= std_max a b.
Proof. unfold std_max. destruct (Rlt_dec a b); lra. Qed.

Lemma std_max_r a b : b <= std_max a b.
Proof. unfold std_max. destruct (Rlt_dec a b); lra. Qed.

Lemma epsilon_pos : 0 < epsilon.
Proof. unfold epsilon. apply Rinv_0_lt_compat, pow_lt. lra. Qed.

Lemma clamp_above a b : (if Rgt_dec a b then b else a) = Rmin a b.
Proof. unfold Rmin. destruct (Rgt_dec a b), (Rle_dec a b); lra. Qed.

Lemma clamp_below a b : (if Rlt_dec a b then b else a) = Rmax b a.
Proof. unfold Rmax. destruct (Rlt_dec a b), (Rle_dec b a); lra. Qed.

(** On numbers the comparisons of doubles are those of the reals. *)
Lemma std_max_double_number a b :
  std_max_double (Finite a) (Finite b) = Finite (std_max a b).
Proof.
  unfold std_max_double, std_max, double_lt. destruct (Rlt_dec a b); reflexivity.
Qed.

Lemma clamp_above_number a b :
  (if double_lt (Finite b) (Finite a) then Finite b else Finite a)
  = Finite (if Rgt_dec a b then b else a).
Proof.
  unfold double_lt. destruct (Rlt_dec b a), (Rgt_dec a b); try reflexivity; lra.
Qed.

Lemma clamp_below_number a b :
  (if double_lt (Finite a) (Finite b) then Finite b else Finite a)
  = Finite (if Rlt_dec a b then b else a).
Proof. unfold double_lt. destruct (Rlt_dec a b); reflexivity. Qed.

End CxxFacts.

(** ** The cycle step of the two calculators *)

Module StepFacts.
Import Cxx CxxFacts.
Local Open Scope R_scope.

Lemma eps_pos : 0 < NumericalDerivatorMinuit2.eps.
Proof. apply epsilon_pos. Qed.

Lemma eps2_pos : 0 < NumericalDerivatorMinuit2.eps2.
Proof. apply sqrt_lt_R0, eps_pos. Qed.

Lemma vrysml_pos : 0 < NumericalDerivatorMinuit2.vrysml.
Proof.
  unfold NumericalDerivatorMinuit2.vrysml. pose proof eps_pos. nra.
Qed.

(** The derivator's step is the specification's rule without the limits
    clamp, whatever the parameter. *)
Lemma derivator_step_spec d i x epspri dfmin :
  NumericalDerivatorMinuit2.cycle_step d i x epspri dfmin =
  Spec.clamped_step false
    (sqrt (dfmin / (Rabs (NumericalDerivatorMinuit2.fG2 d !!! i) + epspri)))
    (NumericalDerivatorMinuit2.fGstep d !!! i)
    (Rmax NumericalDerivatorMinuit2.vrysml
          (8 * Rabs (NumericalDerivatorMinuit2.eps2 * (x !!! i)))).
Proof.
  unfold NumericalDerivatorMinuit2.cycle_step, Spec.clamped_step.
  cbv zeta. rewrite clamp_below, clamp_above, !std_max_Rmax. reflexivity.
Qed.



(** Where the square root is taken of a number that is not negative, the
    step is the number [cycle_step]; otherwise it is NaN. *)
Lemma derivator_step_double_number d i x epspri dfmin :
  0 <= dfmin / (Rabs (NumericalDerivatorMinuit2.fG2 d !!! i) + epspri) ->
  NumericalDerivatorMinuit2.cycle_step_double d i x epspri dfmin
  = Finite (NumericalDerivatorMinuit2.cycle_step d i x epspri dfmin).
Proof.
  intros Hrad.
  unfold NumericalDerivatorMinuit2.cycle_step_double,
    NumericalDerivatorMinuit2.cycle_step, std_sqrt.
  cbv zeta.
  destruct (Rlt_dec (dfmin / _) 0) as [Hneg|_]; [lra|].
  rewrite std_max_double_number, clamp_above_number, clamp_below_number.
  reflexivity.
Qed.

Lemma derivator_step_double_NaN d i x epspri dfmin :
  dfmin / (Rabs (NumericalDerivatorMinuit2.fG2 d !!! i) + epspri) < 0 ->
  NumericalDerivatorMinuit2.cycle_step_double d i x epspri dfmin = NaN.
Proof.
  intros Hrad.
  unfold NumericalDerivatorMinuit2.cycle_step_double, std_sqrt.
  destruct (Rlt_dec (dfmin / _) 0) as [_|Hpos]; [reflexivity | lra].
Qed.

Lemma epsilon_le_sixteenth : epsilon <= / 16.
Proof.
  unfold epsilon.
  assert (H : 1 <= 2 ^ 48) by (apply pow_R1_Rle; lra).
  assert (H0 : 2 ^ 52 = 16 * 2 ^ 48) by (cbn [pow]; ring).
  assert (H1 : / 2 ^ 52 * 2 ^ 52 = 1) by (apply Rinv_l; lra).
  assert (H2 : 0 < / 2 ^ 52) by (apply Rinv_0_lt_compat; lra).
  nra.
Qed.

Lemma vrysml_le_4 : NumericalDerivatorMinuit2.vrysml <= 4.
Proof.
  unfold NumericalDerivatorMinuit2.vrysml, NumericalDerivatorMinuit2.eps.
  pose proof epsilon_pos. pose proof epsilon_le_sixteenth. nra.
Qed.

End StepFacts.

(** ** The loops of [Differentiate] *)

Module DerivatorFacts.
Import Cxx CxxFacts StepFacts NumericalDerivatorMinuit2 Invariants.
Local Open Scope R_scope.

(** The sign of the number whose square root [optstp] is: that of
    |fVal| + Up. *)
Lemma radicand_sign (d dp d0 : t) (i : nat) :
  (0 <= Rabs (fVal d0) + Up d0 ->
   0 <= dfmin_of d0 / (Rabs (fG2 d !!! i) + epspri_of dp i)) /\
  (Rabs (fVal d0) + Up d0 < 0 ->
   dfmin_of d0 / (Rabs (fG2 d !!! i) + epspri_of dp i) < 0).
Proof.
  pose proof eps2_pos as He.
  assert (Hden : 0 < / (Rabs (fG2 d !!! i) + epspri_of dp i)).
  { apply Rinv_0_lt_compat. unfold epspri_of.
    pose proof (Rabs_pos (fG2 d !!! i)).
    pose proof (Rabs_pos (fGrd dp !!! i * eps2)). lra. }
  unfold Rdiv, dfmin_of. split; intros HUp.
  - apply Rmult_le_pos; [apply Rmult_le_pos; lra | lra].
  - assert (8 * eps2 * (Rabs (fVal d0) + Up d0) < 0) by nra. nra.
Qed.

Lemma frame_refl P d : frame P d d.
Proof. unfold frame. repeat split; reflexivity. Qed.

Lemma frame_trans P Q d1 d2 d3 :
  frame P d1 d2 -> frame Q d2 d3 -> frame (fun j => P j \/ Q j) d1 d3.
Proof.
  unfold frame. intros H1 H2.
  destruct H1 as (a1 & a2 & a3 & a4 & a5 & a6 & a7 & a8 & a9 & a10).
  destruct H2 as (b1 & b2 & b3 & b4 & b5 & b6 & b7 & b8 & b9 & b10).
  repeat split; try congruence.
  all: destruct (a10 j) as (? & ? & ?); [tauto|];
       destruct (b10 j) as (? & ? & ?); [tauto|]; congruence.
Qed.

Lemma frame_weaken (P Q : nat -> Prop) d d' :
  (forall j, P j -> Q j) -> frame P d d' -> frame Q d d'.
Proof.
  unfold frame. intros HPQ H.
  destruct H as (a1 & a2 & a3 & a4 & a5 & a6 & a7 & a8 & a9 & a10).
  repeat split; try assumption.
  all: destruct (a10 j) as (? & ? & ?); auto.
Qed.

Lemma frame_cycle_update d i step grad g2 :
  frame (fun j => j = i) d (set_fG2 (set_fGrd (set_fGstep d i step) i grad) i g2).
Proof.
  unfold frame, set_fG2, set_fGrd, set_fGstep; cbn.
  rewrite !length_insert. repeat split; try reflexivity.
  all: rewrite list_lookup_insert_ne by congruence; reflexivity.
Qed.

Section WithFunction.
Context {FState : Type}.
Variable f : list R -> FState -> R * FState.

Lemma cycle_loop_frame n i xtf epspri dfmin step_old x d s :
  frame (fun j => j = i) d (cycle_loop f n i xtf epspri dfmin step_old x d s).1.2.
Proof.
  revert step_old x d s.
  induction n as [|n IH]; intros step_old x d s; cbn [cycle_loop].
  - apply frame_refl.
  - destruct (Rlt_dec _ _); [apply frame_refl|].
    destruct (f _ s) as [fs1 s1]. destruct (f _ s1) as [fs2 s2].
    destruct (Rlt_dec _ _).
    + apply frame_cycle_update.
    + eapply frame_weaken; [|eapply frame_trans; [apply frame_cycle_update | apply IH]].
      cbn. tauto.
Qed.

Lemma cycle_loop_restores_x n i xtf epspri dfmin step_old x d s :
  <[i := xtf]> x = x ->
  (cycle_loop f n i xtf epspri dfmin step_old x d s).1.1 = x.
Proof.
  revert step_old x d s.
  induction n as [|n IH]; intros step_old x d s Hx; cbn [cycle_loop].
  - reflexivity.
  - destruct (Rlt_dec _ _); [reflexivity|].
    destruct (f _ s) as [fs1 s1]. destruct (f _ s1) as [fs2 s2].
    rewrite !list_insert_insert_eq, Hx.
    destruct (Rlt_dec _ _); [reflexivity|].
    apply IH. exact Hx.
Qed.

Lemma insert_lookup_total_id (x : list R) i : <[i := x !!! i]> x = x.
Proof.
  destruct (decide (i < length x)%nat) as [Hlt|Hge].
  - apply list_insert_id, list_lookup_lookup_total_lt, Hlt.
  - apply list_insert_ge. lia.
Qed.

Lemma param_body_frame dfmin x d s i :
  (param_body f dfmin (x, d, s) i).1.1 = x /\
  frame (fun j => j = i) d (param_body f dfmin (x, d, s) i).1.2.
Proof.
  unfold param_body. split.
  - apply cycle_loop_restores_x, insert_lookup_total_id.
  - apply cycle_loop_frame.
Qed.

Lemma fold_param_body_frame dfmin l x d s :
  (fold_left (param_body f dfmin) l (x, d, s)).1.1 = x /\
  frame (fun j => In j l) d (fold_left (param_body f dfmin) l (x, d, s)).1.2.
Proof.
  revert x d s. induction l as [|i l IH]; intros x d s; cbn [fold_left].
  - split; [reflexivity | apply frame_refl].
  - destruct (param_body f dfmin (x, d, s) i) as [[x1 d1] s1] eqn:E.
    pose proof (param_body_frame dfmin x d s i) as [Hx Hd].
    rewrite E in Hx, Hd. cbn in Hx, Hd. subst x1.
    destruct (IH x d1 s1) as [Hx' Hd']. split; [exact Hx'|].
    eapply frame_weaken; [|eapply frame_trans; [exact Hd | exact Hd']].
    cbn. intros j [->|Hj]; auto.
Qed.



End WithFunction.

(** Two function objects that return the same values drive the cycle loop
    to the same point and derivator, whatever their own states. *)
Lemma cycle_loop_agree {S1 S2 : Type}
    (f1 : list R -> S1 -> R * S1) (f2 : list R -> S2 -> R * S2) :
  (forall x s1 s2, (f1 x s1).1 = (f2 x s2).1) ->
  forall n i xtf epspri dfmin step_old x d s1 s2,
    (cycle_loop f1 n i xtf epspri dfmin step_old x d s1).1 =
    (cycle_loop f2 n i xtf epspri dfmin step_old x d s2).1.
Proof.
  intros Hf n. induction n as [|n IH]; intros i xtf epspri dfmin step_old x d s1 s2;
    cbn [cycle_loop]; [reflexivity|].
  destruct (Rlt_dec _ _); [reflexivity|].
  pose proof (Hf (<[i := xtf + cycle_step d i x epspri dfmin]> x) s1 s2) as E1.
  destruct (f1 _ s1) as [a1 t1]. destruct (f2 _ s2) as [a2 t2].
  cbn in E1. subst a2.
  pose proof (Hf (<[i := xtf - cycle_step d i x epspri dfmin]>
                   (<[i := xtf + cycle_step d i x epspri dfmin]> x)) t1 t2) as E2.
  destruct (f1 _ t1) as [b1 u1]. destruct (f2 _ t2) as [b2 u2].
  cbn in E2. subst b2.
  destruct (Rlt_dec _ _); [reflexivity|]. apply IH.
Qed.

Lemma fold_param_body_agree {S1 S2 : Type}
    (f1 : list R -> S1 -> R * S1) (f2 : list R -> S2 -> R * S2) :
  (forall x s1 s2, (f1 x s1).1 = (f2 x s2).1) ->
  forall dfmin l x d s1 s2,
    (fold_left (param_body f1 dfmin) l (x, d, s1)).1 =
    (fold_left (param_body f2 dfmin) l (x, d, s2)).1.
Proof.
  intros Hf dfmin l. induction l as [|i l IH]; intros x d s1 s2; cbn [fold_left];
    [reflexivity|].
  pose proof (cycle_loop_agree f1 f2 Hf (fNCycles d) i (x !!! i) (epspri_of d i)
                dfmin 0 x d s1 s2) as E.
  unfold param_body at 2 4.
  destruct (cycle_loop f1 _ _ _ _ _ _ _ _ s1) as [[x1 d1] t1].
  destruct (cycle_loop f2 _ _ _ _ _ _ _ _ s2) as [[x2 d2] t2].
  cbn in E. inversion E; subst. apply IH.
Qed.

Lemma Differentiate_agree {S1 S2 : Type}
    (f1 : list R -> S1 -> R * S1) (f2 : list R -> S2 -> R * S2) :
  (forall x s1 s2, (f1 x s1).1 = (f2 x s2).1) ->
  forall cx d s1 s2,
    (Differentiate f1 cx d s1).1 = (Differentiate f2 cx d s2).1.
Proof.
  intros Hf cx d s1 s2. unfold Differentiate.
  pose proof (Hf cx s1 s2) as E0.
  destruct (f1 cx s1) as [v1 t1]. destruct (f2 cx s2) as [v2 t2].
  cbn in E0. subst v2.
  pose proof (fold_param_body_agree f1 f2 Hf (dfmin_of (set_fVal d v1))
                (seq 0 (fN (set_fVal d v1))) cx (set_fVal d v1) t1 t2) as E.
  destruct (fold_left (param_body f1 _) _ _) as [[x1 d1] u1].
  destruct (fold_left (param_body f2 _) _ _) as [[x2 d2] u2].
  cbn in E. inversion E; subst. reflexivity.
Qed.



Lemma lookup_total_of_lookup (l l' : list R) j :
  l' !! j = l !! j -> l' !!! j = l !!! j.
Proof. intros H. rewrite !list_lookup_total_alt, H. reflexivity. Qed.







Section CentralDifferences.
Context {FState : Type}.
Variable f : list R -> FState -> R * FState.
Variable g : list R -> R.
Variable cx : list R.
Variable i : nat.
Hypothesis f_computes_g : forall x s, (f x s).1 = g x.



End CentralDifferences.

End DerivatorFacts.

(** ** [Differentiate] on the one-parameter scenario *)

Module ScenarioFacts.
Import Cxx CxxFacts StepFacts NumericalDerivatorMinuit2 Scenario.
Local Open Scope R_scope.

Lemma unit_step :
  cycle_step unit_derivator_at_1 0 [0]
    (epspri_of unit_derivator_at_1 0) (dfmin_of unit_derivator_at_1) = 4.
Proof.
  rewrite derivator_step_spec.
  unfold Spec.clamped_step, epspri_of, dfmin_of, unit_derivator_at_1. cbn.
  pose proof eps2_pos as He.
  replace (8 * eps2 * (Rabs 1 + 1) / (Rabs 0 + (eps2 + Rabs (0 * eps2))))
    with (4 * 4).
  2:{ rewrite Rabs_R1, Rabs_R0, Rmult_0_l, Rabs_R0. field. lra. }
  rewrite sqrt_square by lra.
  rewrite Rmult_0_r, Rabs_R0, Rmult_0_r, Rmult_1_r.
  rewrite (Rabs_right 0.1) by lra. rewrite Rabs_R1.
  rewrite (Rmax_left 4) by lra.
  rewrite Rmin_left by lra.
  pose proof vrysml_pos. pose proof vrysml_le_4.
  rewrite (Rmax_left vrysml 0) by lra.
  apply Rmax_right. lra.
Qed.

Lemma unit_Differentiate :
  Differentiate (stateless const_one) [0] unit_derivator tt =
  (mk 0.5 0.1 1 1 1 1 [0] [0] [4], tt).
Proof.
  unfold Differentiate, stateless, const_one.
  change (set_fVal unit_derivator 1) with unit_derivator_at_1.
  cbn [fN unit_derivator_at_1 seq fold_left param_body fNCycles].
  fold unit_derivator_at_1.
  pose proof unit_step as Hs.
  cbn [cycle_loop].
  change ([0] !!! 0%nat) with 0.
  rewrite Hs.
  cbn [fStepTolerance unit_derivator_at_1].
  destruct (Rlt_dec _ _) as [H|H].
  { exfalso. revert H. replace ((4 - 0) / 4) with 1 by field. rewrite Rabs_R1. lra. }
  cbn.
  destruct (Rlt_dec _ _) as [H1|H1].
  - replace (0.5 * (1 - 1) / 4) with 0 by lra.
    replace ((1 + 1 - 2 * 1) / 4 / 4) with 0 by lra. reflexivity.
  - exfalso. apply H1.
    replace (0 - 0.5 * (1 - 1) / 4) with 0 by lra.
    rewrite Rabs_R0. unfold Rdiv at 1. rewrite Rmult_0_l. lra.
Qed.

End ScenarioFacts.

(** ** [SetInitialGradient] *)

Module InitialGradientFacts.
Import Cxx CxxFacts NumericalDerivatorMinuit2.
Local Open Scope R_scope.

Section WithTransformation.
Variable Trafo_ExtOfInt : nat -> nat.
Variable Trafo_Parameter : nat -> MinuitParameter.t.
Variable Trafo_Int2ext : nat -> R -> R.
Variable Trafo_Ext2int : nat -> R -> R.
Variable Eps2 : R.
Variable ErrorDef : R.
Variable par_Vec : list R.

Let value_at := initial_gradient_at Trafo_ExtOfInt Trafo_Parameter Trafo_Int2ext
                  Trafo_Ext2int Eps2 ErrorDef par_Vec.
Let body := initial_gradient_body Trafo_ExtOfInt Trafo_Parameter Trafo_Int2ext
              Trafo_Ext2int Eps2 ErrorDef par_Vec.

(** After the loop over the indices [l], a cell whose index is in [l] holds
    this parameter's values and every other cell is as before. *)
Lemma fold_initial_gradient l gr gr2 gst :
  let r := fold_left body l (gr, gr2, gst) in
  length r.1.1 = length gr /\ length r.1.2 = length gr2 /\
  length r.2 = length gst /\
  forall j,
    (In j l ->
     ((j < length gr)%nat -> r.1.1 !!! j = (value_at j).1.1) /\
     ((j < length gr2)%nat -> r.1.2 !!! j = (value_at j).1.2) /\
     ((j < length gst)%nat -> r.2 !!! j = (value_at j).2)) /\
    (~ In j l ->
     r.1.1 !! j = gr !! j /\ r.1.2 !! j = gr2 !! j /\ r.2 !! j = gst !! j).
Proof.
  revert gr gr2 gst. induction l as [|i l IH]; intros gr gr2 gst; cbn [fold_left].
  - cbn. split; [reflexivity|]. split; [reflexivity|]. split; [reflexivity|].
    intros j. split; [intros []|]. intros _. auto.
  - destruct (value_at i) as [[grd g2] gstep] eqn:Ev.
    assert (Hb : body (gr, gr2, gst) i =
                 (<[i := grd]> gr, <[i := g2]> gr2, <[i := gstep]> gst)).
    { subst body. unfold initial_gradient_body. fold value_at.
      rewrite Ev. reflexivity. }
    rewrite Hb.
    specialize (IH (<[i := grd]> gr) (<[i := g2]> gr2) (<[i := gstep]> gst)).
    cbv zeta in IH. rewrite !length_insert in IH.
    destruct IH as (L1 & L2 & L3 & IH).
    cbv zeta. split; [exact L1|]. split; [exact L2|]. split; [exact L3|].
    intros j. destruct (IH j) as [Hin Hout]. split.
    + intros [->|Hj].
      * destruct (in_dec Nat.eq_dec j l) as [Hjl|Hjl]; [exact (Hin Hjl)|].
        destruct (Hout Hjl) as (H1 & H2 & H3). rewrite Ev. cbn [fst snd].
        repeat split; intros Hlt.
        -- rewrite list_lookup_total_alt, H1, list_lookup_insert_eq by exact Hlt.
           reflexivity.
        -- rewrite list_lookup_total_alt, H2, list_lookup_insert_eq by exact Hlt.
           reflexivity.
        -- rewrite list_lookup_total_alt, H3, list_lookup_insert_eq by exact Hlt.
           reflexivity.
      * exact (Hin Hj).
    + intros Hn. cbn in Hn.
      destruct Hout as (H1 & H2 & H3); [tauto|].
      rewrite H1, H2, H3.
      rewrite !list_lookup_insert_ne by (intros ->; tauto). auto.
Qed.

(** The values of one turn, in the specification's terms. *)
Lemma initial_gradient_at_spec i :
  0 < Eps2 ->
  let var := par_Vec !!! i in
  let vplu := vplu_of Trafo_ExtOfInt Trafo_Parameter Trafo_Int2ext Trafo_Ext2int
                par_Vec i in
  let vmin := vmin_of Trafo_ExtOfInt Trafo_Parameter Trafo_Int2ext Trafo_Ext2int
                par_Vec i in
  let gsmin := 8 * Eps2 * (Rabs var + Eps2) in
  let dirin := Rmax ((Rabs vplu + Rabs vmin) / 2) gsmin in
  let limited := MinuitParameter.HasLimits (Trafo_Parameter (Trafo_ExtOfInt i)) in
  0 < gsmin /\ 0 < dirin /\
  (value_at i).1.2 = 2 * ErrorDef / dirin ^ 2 /\
  (value_at i).2 =
    (if limited then Rmin (Rmax gsmin (0.1 * dirin)) 0.5
     else Rmax gsmin (0.1 * dirin)) /\
  (value_at i).1.1 = (value_at i).1.2 * dirin.
Proof.
  intros He var vplu vmin gsmin dirin limited.
  assert (Hgs : 0 < gsmin).
  { subst gsmin. pose proof (Rabs_pos var). nra. }
  assert (Hdir : 0 < dirin).
  { subst dirin. eapply Rlt_le_trans; [exact Hgs | apply Rmax_r]. }
  split; [exact Hgs|]. split; [exact Hdir|].
  subst value_at. unfold initial_gradient_at. cbv zeta.
  fold var vplu vmin gsmin. fold limited.
  rewrite !std_max_Rmax.
  replace (0.5 * (Rabs vplu + Rabs vmin)) with ((Rabs vplu + Rabs vmin) / 2) by lra.
  fold dirin.
  destruct limited; cbn [fst snd].
  - rewrite clamp_above. split; [|split; reflexivity].
    replace 2.0 with 2 by lra. field. lra.
  - split; [|split; reflexivity].
    replace 2.0 with 2 by lra. field. lra.
Qed.

End WithTransformation.
End InitialGradientFacts.

(** ** The claims on the numerical gradient kernel *)

Module GradientClaims.
Import Cxx CxxFacts StepFacts NumericalDerivatorMinuit2 Invariants Scenario.
Import DerivatorFacts ScenarioFacts.
Local Open Scope R_scope.

(** C1, as stated, fails on [Differentiate]: on the one-parameter scenario
    (f constant 1, x = 0, state (0, 0, 1), Up = 1) the step of the first cycle
    is 4 and [Differentiate] stores it in [fGstep], whereas a candidate cut to
    0.5 before the other two clamps would give 0.5.  [Differentiate] takes no
    parameter settings, so this is its step whether or not the parameter has
    limits. *)
Lemma C1_counterexample :
  cycle_step unit_derivator_at_1 0 [0]
    (epspri_of unit_derivator_at_1 0) (dfmin_of unit_derivator_at_1) = 4 /\
  Spec.clamped_step true
    (sqrt (dfmin_of unit_derivator_at_1
           / (Rabs (fG2 unit_derivator_at_1 !!! 0%nat)
              + epspri_of unit_derivator_at_1 0)))
    (fGstep unit_derivator_at_1 !!! 0%nat)
    (Rmax vrysml (8 * Rabs (eps2 * ([0] !!! 0%nat)))) = 0.5 /\
  fGstep (Differentiate (stateless const_one) [0] unit_derivator tt).1 = [4] /\
  ~ (fGstep (Differentiate (stateless const_one) [0] unit_derivator tt).1
       !!! 0%nat <= 0.5).
Proof.
  split; [exact unit_step|]. split.
  - pose proof unit_step as Hs. rewrite derivator_step_spec in Hs.
    unfold Spec.clamped_step in *. cbv zeta in *.
    set (opt := sqrt _) in *. set (stpmin := Rmax vrysml _) in *.
    change (fGstep unit_derivator_at_1 !!! 0%nat) with 1 in *.
    rewrite Rmult_1_r, Rabs_R1, Rmult_1_r in *.
    rewrite (Rabs_right 0.1) in * by lra.
    assert (Hmin : stpmin <= 0.5).
    { subst stpmin. change ([0] !!! 0%nat) with 0.
      rewrite Rmult_0_r, Rabs_R0, Rmult_0_r.
      pose proof vrysml_pos. rewrite Rmax_left by lra.
      unfold vrysml, eps. pose proof epsilon_pos. pose proof epsilon_le_sixteenth. nra. }
    assert (Hc : Rmax opt 0.1 = 4).
    { revert Hs. generalize (Rmax opt 0.1). intros c.
      unfold Rmax at 1. destruct (Rle_dec _ _); [|lra].
      unfold Rmin. destruct (Rle_dec _ _); lra. }
    rewrite Hc. rewrite (Rmin_right 4) by lra.
    rewrite Rmin_left by lra. apply Rmax_right. exact Hmin.
  - rewrite unit_Differentiate. cbn. split; [reflexivity|].
    change ([4] !!! 0%nat) with 4. lra.
Qed.

(** C1, amended: in every cycle of Minuit2's
    [Numerical2PGradientCalculator::operator()] the candidate
    max(optstp, |0.1 gstep_i|) of a parameter with limits is cut to 0.5 before
    the clamps step <= 10 |gstep_i| and step >= max(vrysml, 8 |eps2 x_i|);
    in every cycle of [NumericalDerivatorMinuit2::Differentiate] only these
    two clamps are applied to the candidate, for every parameter. *)
Theorem C1_limits_clamp_only_in_Minuit2
    (Trafo_ExtOfInt : nat -> nat) (Trafo_Parameter : nat -> MinuitParameter.t)
    (Eps2 : R) (i : nat) (x g2 gstep : list R) (epspri dfmin vrysml' : R)
    (d : t) :
  Numerical2PGradientCalculator.cycle_step Trafo_ExtOfInt Trafo_Parameter Eps2
    i x g2 gstep epspri dfmin vrysml' =
  Spec.clamped_step
    (MinuitParameter.HasLimits (Trafo_Parameter (Trafo_ExtOfInt i)))
    (sqrt (dfmin / (Rabs (g2 !!! i) + epspri)))
    (gstep !!! i)
    (Rmax vrysml' (8 * Rabs (Eps2 * (x !!! i)))) /\
  cycle_step d i x epspri dfmin =
  Spec.clamped_step false
    (sqrt (dfmin / (Rabs (fG2 d !!! i) + epspri)))
    (fGstep d !!! i)
    (Rmax vrysml (8 * Rabs (eps2 * (x !!! i)))).
Proof.
  split; [|apply derivator_step_spec].
  unfold Numerical2PGradientCalculator.cycle_step, Spec.clamped_step.
  cbv zeta. rewrite clamp_below, clamp_above, !std_max_Rmax.
  destruct (MinuitParameter.HasLimits _); [rewrite clamp_above|]; reflexivity.
Qed.





(** C8: [Differentiate] is deterministic.  Two calls at the same point from
    the same derivator state (grad, g2, gstep, tolerances, ncycles, Up), on
    function objects that compute the same pure function g, end in the same
    derivator: identical grad, g2 and gstep vectors and the same cached fVal,
    whatever state the function objects carry. *)
Theorem C8_Differentiate_deterministic {S1 S2 : Type}
    (f1 : list R -> S1 -> R * S1) (f2 : list R -> S2 -> R * S2)
    (g : list R -> R) (cx : list R) (d : t) (s1 : S1) (s2 : S2) :
  (forall x s, (f1 x s).1 = g x) ->
  (forall x s, (f2 x s).1 = g x) ->
  (Differentiate f1 cx d s1).1 = (Differentiate f2 cx d s2).1 /\
  fGrd (Differentiate f1 cx d s1).1 = fGrd (Differentiate f2 cx d s2).1 /\
  fG2 (Differentiate f1 cx d s1).1 = fG2 (Differentiate f2 cx d s2).1 /\
  fGstep (Differentiate f1 cx d s1).1 = fGstep (Differentiate f2 cx d s2).1 /\
  fVal (Differentiate f1 cx d s1).1 = fVal (Differentiate f2 cx d s2).1.
Proof.
  intros H1 H2.
  assert (E : (Differentiate f1 cx d s1).1 = (Differentiate f2 cx d s2).1).
  { apply Differentiate_agree. intros x t1 t2. rewrite H1, H2. reflexivity. }
  rewrite E. repeat split; reflexivity.
Qed.

(** C8 for a recording function object started from two different logs. *)
Lemma C8_witness :
  (Differentiate (recording const_one) [0] unit_derivator []).1 =
  (Differentiate (recording const_one) [0] unit_derivator [[1]; [2]]).1.
Proof.
  apply (C8_Differentiate_deterministic (recording const_one)
           (recording const_one) const_one [0] unit_derivator [] [[1]; [2]]);
    intros x s; reflexivity.
Defined.



(** C3: after [SetInitialGradient], for every parameter i < fN, with
    gsmin = 8 eps2 (|x_i| + eps2) and dirin = max((|vplu| + |vmin|)/2, gsmin)
    (which is positive), the state is g2_i = 2 Up / dirin^2,
    grad_i = g2_i dirin and gstep_i = max(gsmin, 0.1 dirin), the latter cut to
    0.5 when the parameter has limits; so g2_i >= 0 whenever Up >= 0 and
    gstep_i <= 0.5 for every parameter that has limits. *)
Theorem C3_SetInitialGradient_seeds_state
    (Trafo_ExtOfInt : nat -> nat) (Trafo_Parameter : nat -> MinuitParameter.t)
    (Trafo_Int2ext Trafo_Ext2int : nat -> R -> R) (Eps2 ErrorDef : R)
    (par_Vec : list R) (n : nat) (gr gr2 gst : list R) (i : nat) :
  0 < Eps2 -> (i < n)%nat ->
  length gr = n -> length gr2 = n -> length gst = n ->
  let out := SetInitialGradient Trafo_ExtOfInt Trafo_Parameter Trafo_Int2ext
               Trafo_Ext2int Eps2 ErrorDef par_Vec n gr gr2 gst in
  let grad_i := out.1.1 !!! i in
  let g2_i := out.1.2 !!! i in
  let gstep_i := out.2 !!! i in
  let vplu := vplu_of Trafo_ExtOfInt Trafo_Parameter Trafo_Int2ext Trafo_Ext2int
                par_Vec i in
  let vmin := vmin_of Trafo_ExtOfInt Trafo_Parameter Trafo_Int2ext Trafo_Ext2int
                par_Vec i in
  let gsmin := 8 * Eps2 * (Rabs (par_Vec !!! i) + Eps2) in
  let dirin := Rmax ((Rabs vplu + Rabs vmin) / 2) gsmin in
  let limited := MinuitParameter.HasLimits (Trafo_Parameter (Trafo_ExtOfInt i)) in
  0 < dirin /\
  g2_i = 2 * ErrorDef / dirin ^ 2 /\
  gstep_i = (if limited then Rmin (Rmax gsmin (0.1 * dirin)) 0.5
             else Rmax gsmin (0.1 * dirin)) /\
  grad_i = g2_i * dirin /\
  (0 <= ErrorDef -> 0 <= g2_i) /\
  (limited = true -> gstep_i <= 0.5) /\
  (Rmax gsmin (0.1 * dirin) <= 0.5 -> gstep_i = Rmax gsmin (0.1 * dirin)).
Proof.
  intros He Hi Lgr Lgr2 Lgst out grad_i g2_i gstep_i vplu vmin gsmin dirin limited.
  destruct (InitialGradientFacts.fold_initial_gradient Trafo_ExtOfInt
              Trafo_Parameter Trafo_Int2ext Trafo_Ext2int Eps2 ErrorDef par_Vec
              (seq 0 n) gr gr2 gst) as (_ & _ & _ & Hcells).
  destruct (Hcells i) as [Hin _].
  destruct Hin as (H1 & H2 & H3); [apply in_seq; lia|].
  specialize (H1 ltac:(lia)). specialize (H2 ltac:(lia)). specialize (H3 ltac:(lia)).
  destruct (InitialGradientFacts.initial_gradient_at_spec Trafo_ExtOfInt
              Trafo_Parameter Trafo_Int2ext Trafo_Ext2int Eps2 ErrorDef par_Vec
              i He) as (Hgs & Hdir & S2 & S3 & S1).
  fold vplu vmin gsmin dirin limited in Hgs, Hdir, S1, S2, S3.
  assert (E1 : grad_i = g2_i * dirin).
  { subst grad_i g2_i out. unfold SetInitialGradient. rewrite H1, H2. exact S1. }
  assert (E2 : g2_i = 2 * ErrorDef / dirin ^ 2).
  { subst g2_i out. unfold SetInitialGradient. rewrite H2. exact S2. }
  assert (E3 : gstep_i = (if limited then Rmin (Rmax gsmin (0.1 * dirin)) 0.5
                          else Rmax gsmin (0.1 * dirin))).
  { subst gstep_i out. unfold SetInitialGradient. rewrite H3. exact S3. }
  split; [exact Hdir|]. split; [exact E2|]. split; [exact E3|].
  split; [exact E1|]. split; [|split].
  - intros Hup. rewrite E2. apply Rmult_le_pos; [lra|].
    apply Rlt_le, Rinv_0_lt_compat. nra.
  - intros Hl. rewrite E3, Hl. apply Rmin_r.
  - intros Hle. rewrite E3. destruct limited; [apply Rmin_left; exact Hle | reflexivity].
Qed.

(** C3 for one parameter without limits, at x = 0 with width 1, identity
    transformation, eps2 = 1 and Up = 1: the seeded g2 is not negative. *)
Lemma C3_witness :
  0 <= (SetInitialGradient (fun i => i)
          (fun _ => MinuitParameter.mk 1 false false false 0 0)
          (fun _ v => v) (fun _ v => v) 1 1 [0] 1 [0] [0] [0]).1.2 !!! 0%nat.
Proof.
  destruct (C3_SetInitialGradient_seeds_state (fun i => i)
              (fun _ => MinuitParameter.mk 1 false false false 0 0)
              (fun _ v => v) (fun _ v => v) 1 1 [0] 1 [0] [0] [0] 0)
    as (_ & _ & _ & _ & H & _); [lra | lia | reflexivity | reflexivity | reflexivity |].
  apply H. lra.
Defined.

End GradientClaims.

(** ** The queue process, the workers and the master *)

Module QueueFacts.
Import MultiProcess QueueInvariants.

#[local] Instance item_le_total : Total item_le.
Proof.
  intros [[a b] r] [[c d] r']. unfold item_le, JobTask_le. cbn. lia.
Qed.

Lemma items_in_order_Permutation (m : gmap JobTask R) :
  items_in_order m ≡ₚ map_to_list m.
Proof. apply merge_sort_Permutation. Qed.

Lemma items_in_order_length (m : gmap JobTask R) :
  length (items_in_order m) = size m.
Proof.
  rewrite (Permutation_length (items_in_order_Permutation m)).
  apply length_map_to_list.
Qed.

Lemma items_in_order_Sorted (m : gmap JobTask R) :
  Sorted item_le (items_in_order m).
Proof. apply Sorted_merge_sort. apply _. Qed.

Lemma elem_of_items_in_order (m : gmap JobTask R) jt r :
  (jt, r) ∈ items_in_order m <-> m !! jt = Some r.
Proof.
  rewrite (items_in_order_Permutation m). apply elem_of_map_to_list.
Qed.

Lemma items_in_order_NoDup_keys (m : gmap JobTask R) :
  NoDup (items_in_order m).*1.
Proof.
  rewrite (items_in_order_Permutation m). apply NoDup_fst_map_to_list.
Qed.

Lemma retrieve_condition q :
  bool_decide (queue q = []) && (size (results q) =? N_tasks q) = true <->
  queue q = [] /\ size (results q) = N_tasks q.
Proof.
  rewrite andb_true_iff, bool_decide_eq_true, Nat.eqb_eq. reflexivity.
Qed.

Lemma all_in_flight_insert {J : Type} (ws : list (Worker J)) k w w' :
  ws !! k = Some w ->
  all_in_flight (<[k := w']> ws) ⊎ in_flight w = all_in_flight ws ⊎ in_flight w'.
Proof.
  revert k. induction ws as [|a ws IH]; intros [|k] Hk; try discriminate.
  - inversion Hk; subst.
    change (in_flight w' ⊎ all_in_flight ws ⊎ in_flight w =
            in_flight w ⊎ all_in_flight ws ⊎ in_flight w').
    generalize (in_flight w), (in_flight w'), (all_in_flight ws).
    intros X Y Z. multiset_solver.
  - specialize (IH k Hk).
    change (in_flight a ⊎ all_in_flight (<[k := w']> ws) ⊎ in_flight w =
            in_flight a ⊎ all_in_flight ws ⊎ in_flight w').
    revert IH.
    generalize (in_flight w), (in_flight w'), (all_in_flight ws),
      (all_in_flight (<[k := w']> ws)), (in_flight a).
    intros X Y Z U V HU. multiset_solver.
Qed.

Lemma all_in_flight_replicate {J : Type} n (w : Worker J) :
  in_flight w = ∅ -> all_in_flight (replicate n w) = ∅.
Proof.
  intros Hw. induction n as [|n IH]; [reflexivity|].
  change (in_flight w ⊎ all_in_flight (replicate n w) = ∅).
  rewrite Hw, IH. apply (left_id _ _).
Qed.

Lemma list_to_set_disj_single `{Countable A} (a : A) :
  list_to_set_disj [a] =@{gmultiset A} {[+ a +]}.
Proof. rewrite list_to_set_disj_cons, list_to_set_disj_nil. multiset_solver. Qed.

Lemma list_to_set_disj_Permutation `{Countable A} (l1 l2 : list A) :
  list_to_set_disj l1 =@{gmultiset A} list_to_set_disj l2 -> l1 ≡ₚ l2.
Proof.
  revert l2. induction l1 as [|a l1 IH]; intros l2 Heq.
  - destruct l2 as [|b l2]; [reflexivity|].
    assert (Hb : b ∈@{gmultiset A} list_to_set_disj []).
    { rewrite Heq. apply elem_of_list_to_set_disj. left. }
    apply elem_of_list_to_set_disj in Hb. inversion Hb.
  - assert (Ha : a ∈ l2).
    { apply (elem_of_list_to_set_disj (A:=A)). rewrite <- Heq.
      apply elem_of_list_to_set_disj. left. }
    apply list_elem_of_split in Ha as (l2a & l2b & ->).
    rewrite <- Permutation_middle. constructor. apply IH.
    rewrite list_to_set_disj_app, list_to_set_disj_cons in Heq.
    rewrite list_to_set_disj_cons in Heq. rewrite list_to_set_disj_app.
    set (X := list_to_set_disj l1) in *. set (Y := list_to_set_disj l2a) in *.
    set (Z := list_to_set_disj l2b) in *. clearbody X Y Z.
    multiset_solver.
Qed.

Ltac simpl_sys :=
  cbn [master master_to_queue queue_to_master queue_process queue_loop_running
       workers calls master_ipqm reads_handshake queue N_tasks results
       work_mode phase job_objects to_queue_pipe from_queue_pipe] in *.

Lemma enqueued_tasks_app h1 h2 :
  enqueued_tasks (h1 ++ h2) = enqueued_tasks h1 ++ enqueued_tasks h2.
Proof. apply flat_map_app. Qed.

Lemma delivered_tasks_app h1 h2 :
  delivered_tasks (h1 ++ h2) = delivered_tasks h1 ++ delivered_tasks h2.
Proof. apply flat_map_app. Qed.

Lemma recorded_tasks_app h1 h2 :
  recorded_tasks (h1 ++ h2) = recorded_tasks h1 ++ recorded_tasks h2.
Proof. apply flat_map_app. Qed.

Lemma workers_insert_ok {J : Type} (P : Worker J -> Prop)
    (ws : list (Worker J)) (k : nat) (w' : Worker J) :
  (forall k0 w, ws !! k0 = Some w -> P w) -> P w' ->
  forall k0 w, <[k := w']> ws !! k0 = Some w -> P w.
Proof.
  intros Hall Hw' k0 w Hlook.
  apply list_lookup_insert_Some in Hlook as [(-> & -> & _)|(_ & Hlook)].
  - exact Hw'.
  - exact (Hall _ _ Hlook).
Qed.

Lemma program_ok_tail {J : Type} (jobs : gmap nat J) c program :
  program_ok jobs (c :: program) -> program_ok jobs program.
Proof.
  intros [Hnt Hreg]. split.
  - intros Hin. apply Hnt. right. exact Hin.
  - intros j t Hin. apply (Hreg j t). right. exact Hin.
Qed.

Section WithJob.
Context {J : Type} `{Job J}.
Variable jobs : gmap nat J.

Lemma invariant_fork N program :
  program_ok jobs program -> queue_invariant jobs (fork N jobs program) [].
Proof.
  intros Hp. constructor; unfold fork, IPQM_initial; simpl_sys.
  - reflexivity.
  - exact Hp.
  - intros m Hm. inversion Hm.
  - intros j t Hjt. inversion Hjt.
  - intros k w Hk. apply lookup_replicate in Hk as [-> _].
    repeat split; reflexivity.
  - reflexivity.
  - rewrite all_in_flight_replicate by reflexivity. reflexivity.
  - rewrite all_in_flight_replicate by reflexivity.
    rewrite map_size_empty. rewrite (gmultiset_size_empty (A:=JobTask)). cbn. lia.
Qed.

Lemma invariant_master_moves s h s' :
  queue_invariant jobs s h -> master_step s = Some s' ->
  queue_invariant jobs s' h.
Proof.
  intros [Hrun Hcalls Hm2q Hq Hw Hfifo Hfl Hcnt] Hstep.
  unfold master_step in Hstep.
  destruct (reads_handshake (master s)).
  - destruct (queue_to_master s) as [|[| |n items] rest]; try discriminate;
      inversion Hstep; subst; clear Hstep; constructor; simpl_sys; try assumption.
    destruct (calls (master s)) as [|c cs]; [exact Hcalls|].
    cbn. exact (program_ok_tail _ _ _ Hcalls).
  - destruct (calls (master s)) as [|[j t| |] rest] eqn:Ec; try discriminate;
      inversion Hstep; subst; clear Hstep.
    + constructor; simpl_sys; try assumption.
      * exact (program_ok_tail _ _ _ Hcalls).
      * intros m Hm. apply elem_of_app in Hm as [Hm|Hm]; [exact (Hm2q m Hm)|].
        apply list_elem_of_singleton in Hm as ->. split; [discriminate|].
        intros j' t' E. inversion E; subst. apply (proj2 Hcalls j' t'). left.
    + constructor; simpl_sys; try assumption.
      intros m Hm. apply elem_of_app in Hm as [Hm|Hm]; [exact (Hm2q m Hm)|].
      apply list_elem_of_singleton in Hm as ->. split; discriminate.
    + exfalso. apply (proj1 Hcalls). left.
Qed.

Lemma invariant_queue_reads_master s h s' ev :
  queue_invariant jobs s h -> queue_master_step s = Some (s', ev) ->
  queue_invariant jobs s' (h ++ ev).
Proof.
  intros [Hrun Hcalls Hm2q Hq Hw Hfifo Hfl Hcnt] Hstep.
  unfold queue_master_step in Hstep. rewrite Hrun in Hstep.
  destruct (master_to_queue s) as [|message rest] eqn:Em; [discriminate|].
  assert (Hrest : forall m, m ∈ rest ->
            m <> M2Q_terminate /\
            forall j t, m = M2Q_enqueue j t -> is_Some (jobs !! j)).
  { intros m Hm. apply Hm2q. right. exact Hm. }
  destruct (Hm2q message ltac:(left)) as [Hnt Hreg].
  destruct message as [|j t|]; [congruence| |].
  - (* enqueue *)
    cbn in Hstep. inversion Hstep; subst; clear Hstep.
    constructor; simpl_sys; try assumption; try reflexivity.
    + intros j' t' Hin. apply elem_of_app in Hin as [Hin|Hin]; [exact (Hq _ _ Hin)|].
      apply list_elem_of_singleton in Hin. inversion Hin; subst.
      exact (Hreg _ _ eq_refl).
    + rewrite enqueued_tasks_app, delivered_tasks_app, Hfifo. cbn.
      rewrite app_nil_r, app_assoc. reflexivity.
    + rewrite delivered_tasks_app, recorded_tasks_app. cbn.
      rewrite !app_nil_r. exact Hfl.
    + rewrite length_app. cbn. lia.
  - (* retrieve *)
    unfold process_queue_pipe_message in Hstep.
    destruct (bool_decide (queue (queue_process s) = [])
              && (size (results (queue_process s)) =? N_tasks (queue_process s)))
      eqn:Hc.
    + apply retrieve_condition in Hc as [Hempty Hsize].
      inversion Hstep; subst; clear Hstep.
      constructor; simpl_sys; try assumption; try reflexivity.
      * rewrite enqueued_tasks_app, delivered_tasks_app. cbn.
        rewrite !app_nil_r. exact Hfifo.
      * rewrite delivered_tasks_app, recorded_tasks_app. cbn.
        rewrite !app_nil_r. exact Hfl.
      * rewrite map_size_empty. rewrite Hempty in *. cbn in *. lia.
    + inversion Hstep; subst; clear Hstep. rewrite app_nil_r.
      constructor; simpl_sys; try assumption; reflexivity.
Qed.

Lemma flight_same (ws : list (Worker J)) k w w' :
  ws !! k = Some w -> in_flight w' = in_flight w ->
  all_in_flight (<[k := w']> ws) = all_in_flight ws.
Proof.
  intros Hk Hfl. pose proof (all_in_flight_insert ws k w w' Hk) as Hins.
  rewrite Hfl in Hins. revert Hins.
  generalize (all_in_flight (<[k := w']> ws)), (all_in_flight ws), (in_flight w).
  intros X Y Z HX. multiset_solver.
Qed.

Lemma flight_gain (ws : list (Worker J)) k w w' jt :
  ws !! k = Some w -> in_flight w = ∅ -> in_flight w' = {[+ jt +]} ->
  all_in_flight (<[k := w']> ws) = all_in_flight ws ⊎ {[+ jt +]}.
Proof.
  intros Hk Hw Hw'. pose proof (all_in_flight_insert ws k w w' Hk) as Hins.
  rewrite Hw, Hw' in Hins. revert Hins.
  generalize (all_in_flight (<[k := w']> ws)), (all_in_flight ws).
  intros X Y HX. multiset_solver.
Qed.

Lemma flight_loss (ws : list (Worker J)) k w w' jt :
  ws !! k = Some w -> in_flight w = {[+ jt +]} -> in_flight w' = ∅ ->
  all_in_flight ws = all_in_flight (<[k := w']> ws) ⊎ {[+ jt +]}.
Proof.
  intros Hk Hw Hw'. pose proof (all_in_flight_insert ws k w w' Hk) as Hins.
  rewrite Hw, Hw' in Hins. revert Hins.
  generalize (all_in_flight (<[k := w']> ws)), (all_in_flight ws).
  intros X Y HX. multiset_solver.
Qed.

Lemma in_flight_eq (w : Worker J) :
  in_flight w = list_to_set_disj (accepted_in (from_queue_pipe w))
                ⊎ list_to_set_disj (results_in (to_queue_pipe w)).
Proof. reflexivity. Qed.

Lemma in_flight_none (w : Worker J) :
  accepted_in (from_queue_pipe w) = [] -> results_in (to_queue_pipe w) = [] ->
  in_flight w = ∅.
Proof.
  intros H1 H2. rewrite in_flight_eq, H1, H2. clear. multiset_solver.
Qed.

Lemma in_flight_accepted (w : Worker J) jt :
  accepted_in (from_queue_pipe w) = [jt] -> results_in (to_queue_pipe w) = [] ->
  in_flight w = {[+ jt +]}.
Proof.
  intros H1 H2. rewrite in_flight_eq, H1, H2. clear. multiset_solver.
Qed.

Lemma in_flight_result (w : Worker J) jt :
  accepted_in (from_queue_pipe w) = [] -> results_in (to_queue_pipe w) = [jt] ->
  in_flight w = {[+ jt +]}.
Proof.
  intros H1 H2. rewrite in_flight_eq, H1, H2. clear. multiset_solver.
Qed.

Lemma invariant_queue_reads_worker k s h s' ev :
  queue_invariant jobs s h -> queue_worker_step k s = Some (s', ev) ->
  queue_invariant jobs s' (h ++ ev).
Proof.
  intros [Hrun Hcalls Hm2q Hq Hw Hfifo Hfl Hcnt] Hstep.
  unfold queue_worker_step in Hstep. rewrite Hrun in Hstep.
  destruct (workers s !! k) as [w|] eqn:Ek; [|discriminate].
  destruct (to_queue_pipe w) as [|message rest] eqn:Eto; [discriminate|].
  destruct (Hw k w Ek) as (Hmode & Hdom & Hphase).
  destruct (phase w) eqn:Eph; try contradiction.
  - destruct Hphase as [Hto _]. congruence.
  - (* the worker awaits the reply to a dequeue *)
    destruct Hphase as [[Hto Hfrom]|[[Hto _]|[Hto _]]]; try congruence.
    rewrite Eto in Hto. inversion Hto; subst message rest. clear Hto.
    assert (Hflw : in_flight w = ∅).
    { apply in_flight_none; [rewrite Hfrom | rewrite Eto]; reflexivity. }
    unfold process_worker_pipe_message, from_queue in Hstep.
    destruct (queue (queue_process s)) as [|[j t] q'] eqn:Eq.
    + inversion Hstep; subst; clear Hstep. rewrite app_nil_r.
      rewrite Hfrom, Hmode. cbn [app].
      set (w' := mkWorker true AwaitsDequeueReply (job_objects w) []
                   [Q2W_dequeue_rejected]).
      assert (Hsame : all_in_flight (<[k := w']> (workers s))
                      = all_in_flight (workers s)).
      { apply (flight_same _ _ w); [exact Ek|]. rewrite Hflw. reflexivity. }
      constructor; simpl_sys; rewrite ?Eq; try assumption; try reflexivity.
      * apply (workers_insert_ok (worker_ok jobs) _ _ _ Hw).
        repeat split; try assumption. right. left. split; reflexivity.
      * rewrite Hsame. exact Hfl.
      * rewrite Hsame. exact Hcnt.
    + inversion Hstep; subst; clear Hstep.
      rewrite Hfrom, Hmode. cbn [app fst snd].
      set (w' := mkWorker true AwaitsDequeueReply (job_objects w) []
                   [Q2W_dequeue_accepted j t]).
      assert (Hgain : all_in_flight (<[k := w']> (workers s))
                      = all_in_flight (workers s) ⊎ {[+ (j, t) +]}).
      { apply (flight_gain _ _ w); [exact Ek | exact Hflw |].
        apply in_flight_accepted; reflexivity. }
      assert (Hreg : is_Some (jobs !! j)).
      { apply (Hq j t). left. }
      constructor; simpl_sys; try assumption; try reflexivity.
      * intros j' t' Hin. apply (Hq j' t'). right. exact Hin.
      * apply (workers_insert_ok (worker_ok jobs) _ _ _ Hw).
        repeat split; try assumption. right. right. split; [reflexivity|].
        exists j, t. split; [reflexivity | exact Hreg].
      * rewrite enqueued_tasks_app, delivered_tasks_app, Hfifo. cbn.
        rewrite app_nil_r, fmap_app, <- app_assoc. reflexivity.
      * rewrite delivered_tasks_app, recorded_tasks_app, fmap_app,
          list_to_set_disj_app, Hfl, Hgain.
        change (recorded_tasks [delivered k (j, t)]) with (@nil JobTask).
        change ((delivered_tasks [delivered k (j, t)]).*2) with [(j, t)].
        rewrite app_nil_r, list_to_set_disj_single.
        generalize (all_in_flight (workers s)),
          (list_to_set_disj (recorded_tasks h) : gmultiset JobTask).
        clear. intros X Y. multiset_solver.
      * rewrite Hgain, gmultiset_size_disj_union, gmultiset_size_singleton.
        cbn in Hcnt. lia.
  - (* the worker awaits the receipt of a result *)
    destruct Hphase as [(j & t & r & Hto & Hfrom)|[Hto _]]; try congruence.
    rewrite Eto in Hto. inversion Hto; subst message rest. clear Hto.
    assert (Hflw : in_flight w = {[+ (j, t) +]}).
    { apply in_flight_result; [rewrite Hfrom | rewrite Eto]; reflexivity. }
    cbn in Hstep. inversion Hstep; subst; clear Hstep.
    rewrite Hfrom, Hmode. cbn [app].
    set (w' := mkWorker true AwaitsReceipt (job_objects w) []
                 [Q2W_result_received]).
    assert (Hloss : all_in_flight (workers s)
                    = all_in_flight (<[k := w']> (workers s)) ⊎ {[+ (j, t) +]}).
    { apply (flight_loss _ _ w); [exact Ek | exact Hflw |].
      apply in_flight_none; reflexivity. }
    constructor; simpl_sys; try assumption; try reflexivity.
    + apply (workers_insert_ok (worker_ok jobs) _ _ _ Hw).
      repeat split; try assumption. right. split; reflexivity.
    + rewrite enqueued_tasks_app, delivered_tasks_app. cbn.
      rewrite !app_nil_r. exact Hfifo.
    + rewrite delivered_tasks_app, recorded_tasks_app, list_to_set_disj_app.
      change (delivered_tasks [recorded k (j, t) r]) with (@nil (nat * JobTask)).
      change (recorded_tasks [recorded k (j, t) r]) with [(j, t)].
      rewrite app_nil_r, Hfl, Hloss, list_to_set_disj_single.
      generalize (all_in_flight (<[k := w']> (workers s))),
        (list_to_set_disj (recorded_tasks h) : gmultiset JobTask).
      clear. intros X Y. multiset_solver.
    + rewrite Hloss, gmultiset_size_disj_union, gmultiset_size_singleton in Hcnt.
      pose proof (map_size_insert (j, t) r (results (queue_process s))) as Hsz.
      destruct (results (queue_process s) !! (j, t));
        cbv beta iota delta [Datatypes.id] in Hsz; lia.
Qed.

Lemma worker_step_ok w w' :
  worker_ok jobs w -> worker_step w = Some w' ->
  worker_ok jobs w' /\ in_flight w' = in_flight w.
Proof.
  intros (Hmode & Hdom & Hphase) Hstep.
  unfold worker_step in Hstep. rewrite Hmode in Hstep.
  destruct (phase w) eqn:Eph; try contradiction.
  - destruct Hphase as [Hto Hfrom]. inversion Hstep; subst; clear Hstep.
    rewrite Hto, Hfrom. split.
    + repeat split; try assumption. left. split; reflexivity.
    + rewrite (in_flight_none w) by (rewrite ?Hto, ?Hfrom; reflexivity).
      apply in_flight_none; reflexivity.
  - destruct Hphase as [[Hto Hfrom]|[[Hto Hfrom]|(Hto & j & t & Hfrom & Hreg)]];
      rewrite Hfrom in Hstep; try discriminate.
    + inversion Hstep; subst; clear Hstep. rewrite Hto. split.
      * repeat split; try assumption.
      * rewrite (in_flight_none w) by (rewrite ?Hto, ?Hfrom; reflexivity).
        apply in_flight_none; reflexivity.
    + assert (Hjob : is_Some (job_objects w !! j)).
      { apply elem_of_dom. rewrite Hdom. apply elem_of_dom. exact Hreg. }
      destruct Hjob as [job Hjob]. rewrite Hjob in Hstep.
      inversion Hstep; subst; clear Hstep. rewrite Hto. split.
      * split; [reflexivity|]. split.
        -- simpl_sys. rewrite dom_insert_L, <- Hdom.
           apply elem_of_dom_2 in Hjob.
           apply subseteq_union_1_L, singleton_subseteq_l. exact Hjob.
        -- simpl_sys. left. eauto.
      * rewrite (in_flight_accepted w (j, t))
          by (rewrite ?Hto, ?Hfrom; reflexivity).
        apply in_flight_result; reflexivity.
  - destruct Hphase as [(j & t & r & Hto & Hfrom)|[Hto Hfrom]];
      rewrite Hfrom in Hstep; try discriminate.
    inversion Hstep; subst; clear Hstep. rewrite Hto. split.
    + repeat split; try assumption.
    + rewrite (in_flight_none w) by (rewrite ?Hto, ?Hfrom; reflexivity).
      apply in_flight_none; reflexivity.
Qed.

Lemma invariant_worker_moves k w w' s h :
  queue_invariant jobs s h ->
  workers s !! k = Some w -> worker_step w = Some w' ->
  queue_invariant jobs
    (mkSystem (master s) (master_to_queue s) (queue_to_master s)
       (queue_process s) (queue_loop_running s) (<[k := w']> (workers s)))
    h.
Proof.
  intros [Hrun Hcalls Hm2q Hq Hw Hfifo Hfl Hcnt] Ek Hstep.
  destruct (worker_step_ok w w' (Hw k w Ek) Hstep) as [Hok Hsame].
  pose proof (flight_same (workers s) k w w' Ek Hsame) as Hfs.
  constructor; simpl_sys; try assumption.
  - apply (workers_insert_ok (worker_ok jobs) _ _ _ Hw). exact Hok.
  - rewrite Hfs. exact Hfl.
  - rewrite Hfs. exact Hcnt.
Qed.

Lemma invariant_step mv s h s' ev :
  queue_invariant jobs s h -> step mv s = Some (s', ev) ->
  queue_invariant jobs s' (h ++ ev).
Proof.
  intros Hinv Hstep. destruct mv as [| |k|k]; cbn [step] in Hstep.
  - destruct (master_step s) as [s1|] eqn:E; [|discriminate].
    cbn in Hstep. inversion Hstep; subst. rewrite app_nil_r.
    exact (invariant_master_moves s h s' Hinv E).
  - exact (invariant_queue_reads_master s h s' ev Hinv Hstep).
  - exact (invariant_queue_reads_worker k s h s' ev Hinv Hstep).
  - destruct (workers s !! k) as [w|] eqn:Ek; [|discriminate].
    cbn in Hstep. destruct (worker_step w) as [w'|] eqn:Ew; [|discriminate].
    cbn in Hstep. inversion Hstep; subst. rewrite app_nil_r.
    exact (invariant_worker_moves k w w' s h Hinv Ek Ew).
Qed.

Lemma invariant_reachable N program s h :
  program_ok jobs program ->
  reachable (fork N jobs program) s h -> queue_invariant jobs s h.
Proof.
  intros Hp Hr. induction Hr as [|s h mv s' ev Hr IH Hstep].
  - apply invariant_fork. exact Hp.
  - exact (invariant_step mv s h s' ev IH Hstep).
Qed.

(** A schedule that runs leads from reachable states to reachable states. *)
Lemma run_reachable init schedule s h s' h' :
  reachable init s h -> run schedule s h = Some (s', h') ->
  reachable init s' h'.
Proof.
  revert s h. induction schedule as [|mv schedule IH]; intros s h Hr Hrun;
    cbn [run] in Hrun.
  - inversion Hrun; subst. exact Hr.
  - destruct (step mv s) as [[s1 ev]|] eqn:E; [|discriminate].
    apply (IH s1 (h ++ ev)); [|exact Hrun].
    exact (reachable_step init s h mv s1 ev Hr E).
Qed.

(** When a [retrieve] would be accepted nothing is in flight: every task
    enqueued so far has been delivered, and recorded. *)
Lemma invariant_at_acceptance s h :
  queue_invariant jobs s h ->
  queue (queue_process s) = [] ->
  size (results (queue_process s)) = N_tasks (queue_process s) ->
  all_in_flight (workers s) = ∅ /\
  enqueued_tasks h = (delivered_tasks h).*2 /\
  (delivered_tasks h).*2 ≡ₚ recorded_tasks h.
Proof.
  intros Hinv Hq Hsize.
  pose proof (inv_count _ _ _ Hinv) as Hcount.
  pose proof (inv_fifo _ _ _ Hinv) as Hfifo.
  pose proof (inv_flight _ _ _ Hinv) as Hflight.
  rewrite Hq in Hcount, Hfifo. cbn [length] in Hcount.
  rewrite app_nil_r in Hfifo.
  assert (Hempty : all_in_flight (workers s) = ∅).
  { apply gmultiset_size_empty_inv. lia. }
  split; [exact Hempty|]. split; [exact Hfifo|].
  apply list_to_set_disj_Permutation. rewrite Hflight, Hempty.
  apply (left_id _ _).
Qed.

End WithJob.
End QueueFacts.

(** ** The values that travel through the queue system *)

Module ResultFacts.
Import MultiProcess QueueInvariants ResultInvariants QueueFacts.

Lemma tasks_of_app p1 p2 : tasks_of (p1 ++ p2) = tasks_of p1 ++ tasks_of p2.
Proof. apply flat_map_app. Qed.

Lemma enqueues_in_app p1 p2 :
  enqueues_in (p1 ++ p2) = enqueues_in p1 ++ enqueues_in p2.
Proof. apply flat_map_app. Qed.

Lemma payload_app p1 p2 : payload (p1 ++ p2) = payload p1 ++ payload p2.
Proof. apply flat_map_app. Qed.

Lemma accepted_in_app p1 p2 :
  accepted_in (p1 ++ p2) = accepted_in p1 ++ accepted_in p2.
Proof. apply flat_map_app. Qed.

(** Reading results into a map: what was there stays, what is read is
    there afterwards. *)
Lemma foldl_insert_keeps (items : list (nat * nat * R)) (m : gmap (nat * nat) R) jt :
  is_Some (m !! jt) ->
  is_Some (foldl (fun res item => <[item.1 := item.2]> res) m items !! jt).
Proof.
  revert m. induction items as [|[k v] items IH]; intros m Hm; cbn [foldl]; [exact Hm|].
  apply IH. cbn. destruct (decide (k = jt)) as [->|Hne].
  - rewrite lookup_insert_eq. eauto.
  - rewrite lookup_insert_ne by exact Hne. exact Hm.
Qed.

Lemma foldl_insert_reads (items : list (nat * nat * R)) (m : gmap (nat * nat) R) jt :
  jt ∈ items.*1 ->
  is_Some (foldl (fun res item => <[item.1 := item.2]> res) m items !! jt).
Proof.
  revert m. induction items as [|[k v] items IH]; intros m Hin; cbn in Hin.
  - inversion Hin.
  - cbn [foldl]. apply elem_of_cons in Hin as [->|Hin].
    + apply foldl_insert_keeps. cbn. rewrite lookup_insert_eq. eauto.
    + apply IH. exact Hin.
Qed.

Lemma foldl_insert_values (P : nat * nat -> R -> Prop)
    (items : list (nat * nat * R)) (m : gmap (nat * nat) R) :
  (forall jt r, m !! jt = Some r -> P jt r) ->
  (forall jt r, (jt, r) ∈ items -> P jt r) ->
  forall jt r,
    foldl (fun res item => <[item.1 := item.2]> res) m items !! jt = Some r ->
    P jt r.
Proof.
  revert m. induction items as [|[k v] items IH]; intros m Hm Hitems jt r; cbn [foldl].
  - apply Hm.
  - apply IH.
    + intros jt' r'. cbn. destruct (decide (k = jt')) as [->|Hne].
      * rewrite lookup_insert_eq. intros E. inversion E; subst.
        apply Hitems. left.
      * rewrite lookup_insert_ne by exact Hne. apply Hm.
    + intros jt' r' Hin. apply Hitems. right. exact Hin.
Qed.

(** [gather_worker_results] copies the results of its own job, by task. *)
Lemma gather_skips (job_id : nat) (items : list (nat * nat * R))
    (acc : gmap nat R) (t : nat) :
  (job_id, t) ∉ items.*1 ->
  foldl (fun acc item =>
           if decide (item.1.1 = job_id) then <[item.1.2 := item.2]> acc
           else acc) acc items !! t = acc !! t.
Proof.
  revert acc. induction items as [|[[j t'] r] items IH]; intros acc Hnin;
    cbn [foldl]; [reflexivity|].
  cbn in Hnin. apply not_elem_of_cons in Hnin as [Hne Hnin].
  rewrite (IH _ Hnin). cbn. destruct (decide (j = job_id)) as [->|Hj];
    [|reflexivity].
  apply lookup_insert_ne. congruence.
Qed.

Lemma gather_reads (job_id : nat) (items : list (nat * nat * R))
    (acc : gmap nat R) (t : nat) (r : R) :
  NoDup items.*1 -> (job_id, t, r) ∈ items ->
  foldl (fun acc item =>
           if decide (item.1.1 = job_id) then <[item.1.2 := item.2]> acc
           else acc) acc items !! t = Some r.
Proof.
  revert acc. induction items as [|[[j t'] r'] items IH]; intros acc Hnd Hin.
  - inversion Hin.
  - cbn in Hnd. apply list.NoDup_cons in Hnd as [Hfresh Hnd]. cbn [foldl].
    apply elem_of_cons in Hin as [Heq|Hin].
    + inversion Heq; subst j t' r'. rewrite (gather_skips _ _ _ _ Hfresh).
      cbn. rewrite decide_True by reflexivity. apply lookup_insert_eq.
    + exact (IH _ Hnd Hin).
Qed.

Lemma gather_worker_results_lookup (job_id : nat) (res : gmap (nat * nat) R)
    (t : nat) :
  gather_worker_results job_id res ∅ !! t = res !! (job_id, t).
Proof.
  unfold gather_worker_results. destruct (res !! (job_id, t)) as [r|] eqn:E.
  - apply gather_reads; [apply items_in_order_NoDup_keys|].
    apply elem_of_items_in_order. exact E.
  - rewrite gather_skips; [apply lookup_empty|].
    intros Hin. apply list_elem_of_fmap in Hin as ([jt r] & Hjt & Hin).
    cbn in Hjt. subst jt. apply elem_of_items_in_order in Hin. congruence.
Qed.

Lemma get_result_parallel_lookup (job_id n : nat) (m : Master) :
  get_result_parallel job_id n m =
  map (fun t => default 0%R (results (master_ipqm m) !! (job_id, t))) (seq 0 n).
Proof.
  unfold get_result_parallel, collect_result. apply map_ext. intros t.
  rewrite gather_worker_results_lookup. reflexivity.
Qed.

Section WithJobs.
Variable jobs : gmap nat xSquaredPlusBVector.
Variable program : list Call.
Hypothesis program_valid : forall jt, jt ∈ tasks_of program -> valid_task jobs jt.
Hypothesis program_retrieves : list.last program = Some call_retrieve.

Lemma result_invariant_fork N :
  result_invariant jobs program (fork N jobs program).
Proof.
  constructor; unfold fork, IPQM_initial; simpl_sys.
  - intros k w Hk. apply lookup_replicate in Hk as [-> _].
    repeat split; simpl_sys.
    + intros j job' Hj. exists job'. auto.
    + intros jt Hin. inversion Hin.
    + intros j t r Hin. inversion Hin.
  - exact program_valid.
  - intros jt Hin. inversion Hin.
  - intros jt Hin. inversion Hin.
  - intros jt r Hl. rewrite lookup_empty in Hl. discriminate.
  - intros jt r Hin. inversion Hin.
  - intros jt r Hl. rewrite lookup_empty in Hl. discriminate.
  - unfold master_ok. simpl_sys. split; [reflexivity|]. intros Hin. inversion Hin.
  - intros n items Hin. inversion Hin.
  - exists []. reflexivity.
  - intros jt Hin. left. exact Hin.
  - intros Hnil. rewrite Hnil in program_retrieves. discriminate.
Qed.

Lemma result_invariant_master_moves s h s' :
  queue_invariant jobs s h -> result_invariant jobs program s ->
  master_step s = Some s' -> result_invariant jobs program s'.
Proof.
  intros Hq [Hws Hcalls Hm2q Hqueue Hres Hpay Hmas Hprot Hacc Hsuf Hsome Hdone] Hstep.
  unfold master_step in Hstep. unfold master_ok in Hprot.
  destruct (reads_handshake (master s)) eqn:Ehs.
  - destruct Hprot as [[rest Ecalls] Hpipes].
    destruct (queue_to_master s) as [|msg q2m] eqn:Eq2m; [discriminate|].
    destruct Hpipes as [(pre & _ & _ & Hnil)|[Em2q [msg' Hone]]]; [discriminate|].
    inversion Hone; subst msg' q2m. clear Hone.
    assert (Hother : forall m : Master,
              (m = mkMaster (master_ipqm (master s)) (calls (master s)) false) ->
              payload [msg] = [] ->
              result_invariant jobs program
                (mkSystem m (master_to_queue s) [] (queue_process s)
                   (queue_loop_running s) (workers s))).
    { intros m -> Hnopay. constructor; simpl_sys; try assumption.
      - intros jt r Hin. inversion Hin.
      - unfold master_ok. simpl_sys. split; [reflexivity|].
        rewrite Em2q. intros Hin. inversion Hin.
      - intros n items Hin. inversion Hin.
      - intros jt Hjt. destruct (Hsome jt Hjt) as [?|[?|[?|[?|[?|[Hp|?]]]]]]; auto 10.
        rewrite Hnopay in Hp. inversion Hp. }
    destruct msg as [| |n items].
    + inversion Hstep; subst. apply Hother; reflexivity.
    + inversion Hstep; subst. apply Hother; reflexivity.
    + inversion Hstep; subst; clear Hstep Hother.
      destruct (Hacc n items ltac:(left)) as (Hqe & Hre & Hfe & Hn).
      assert (Hpl : payload [Q2M_retrieve_accepted n items] = take n items).
      { cbn. apply app_nil_r. }
      constructor; simpl_sys; try assumption.
      * rewrite Ecalls. cbn [tail]. intros jt Hin. apply Hcalls.
        rewrite Ecalls. exact Hin.
      * intros jt r Hin. inversion Hin.
      * unfold read_results. simpl_sys.
        apply (foldl_insert_values (fun jt r => r = expected jobs jt)).
        -- exact Hmas.
        -- intros jt r Hin. apply Hpay. rewrite Hpl. exact Hin.
      * unfold master_ok. simpl_sys. split; [reflexivity|].
        rewrite Em2q. intros Hin. inversion Hin.
      * intros n' items' Hin. inversion Hin.
      * destruct Hsuf as [done Hsuf]. exists (done ++ [call_retrieve]).
        rewrite Hsuf, Ecalls, <- app_assoc. reflexivity.
      * intros jt Hjt. unfold read_results. simpl_sys.
        destruct (Hsome jt Hjt) as [Hc|[?|[?|[?|[?|[Hp|Hm]]]]]]; auto 10.
        -- left. rewrite Ecalls in *. exact Hc.
        -- do 6 right. apply foldl_insert_reads. rewrite <- Hpl. exact Hp.
        -- do 6 right. apply foldl_insert_keeps. exact Hm.
      * intros Hrest jt Hjt. unfold read_results. simpl_sys.
        destruct (Hsome jt Hjt) as [Hc|[Hc|[Hc|[Hc|[Hc|[Hp|Hm]]]]]].
        -- rewrite Ecalls in Hc, Hrest. cbn [tail] in Hrest. subst rest.
           inversion Hc.
        -- rewrite Em2q in Hc. inversion Hc.
        -- rewrite Hqe in Hc. inversion Hc.
        -- rewrite Hfe in Hc. exfalso. clear -Hc. multiset_solver.
        -- rewrite Hre, lookup_empty in Hc. destruct Hc as [? Hc]. discriminate.
        -- apply foldl_insert_reads. rewrite <- Hpl. exact Hp.
        -- apply foldl_insert_keeps. exact Hm.
  - destruct Hprot as [Eq2m Hnoret].
    destruct (inv_calls _ _ _ Hq) as [Hnoterm _].
    destruct (calls (master s)) as [|[j t| |] rest] eqn:Ecalls; try discriminate;
      inversion Hstep; subst; clear Hstep.
    + constructor; simpl_sys; try assumption.
      * intros jt Hin. apply Hcalls. right. exact Hin.
      * intros jt Hin. rewrite enqueues_in_app in Hin.
        apply elem_of_app in Hin as [Hin|Hin]; [exact (Hm2q jt Hin)|].
        apply list_elem_of_singleton in Hin as ->. apply Hcalls. left.
      * unfold master_ok. simpl_sys. split; [exact Eq2m|].
        intros Hin. apply elem_of_app in Hin as [Hin|Hin]; [exact (Hnoret Hin)|].
        apply list_elem_of_singleton in Hin. discriminate.
      * destruct Hsuf as [done Hsuf]. exists (done ++ [call_to_queue j t]).
        rewrite Hsuf, <- app_assoc. reflexivity.
      * intros jt Hjt. rewrite enqueues_in_app.
        destruct (Hsome jt Hjt) as [Hc|[?|?]]; auto 10.
        -- apply elem_of_cons in Hc as [->|Hc]; [|left; exact Hc].
           right. left. apply elem_of_app. right. left.
        -- right. left. apply elem_of_app. left. assumption.
      * intros -> jt Hjt. exfalso. destruct Hsuf as [done Hsuf].
        rewrite Hsuf, last_snoc in program_retrieves. discriminate.
    + constructor; simpl_sys; try assumption.
      * intros jt Hin. rewrite enqueues_in_app in Hin. cbn in Hin.
        rewrite app_nil_r in Hin. exact (Hm2q jt Hin).
      * unfold master_ok. simpl_sys. split; [eauto|]. left.
        exists (master_to_queue s). auto.
      * intros jt Hjt. rewrite enqueues_in_app. cbn. rewrite app_nil_r.
        exact (Hsome jt Hjt).
    + exfalso. apply Hnoterm. left.
Qed.

Lemma result_invariant_queue_reads_master s h s' ev :
  queue_invariant jobs s h -> result_invariant jobs program s ->
  queue_master_step s = Some (s', ev) -> result_invariant jobs program s'.
Proof.
  intros Hq [Hws Hcalls Hm2q Hqueue Hres Hpay Hmas Hprot Hacc Hsuf Hsome Hdone] Hstep.
  unfold queue_master_step in Hstep. rewrite (inv_running _ _ _ Hq) in Hstep.
  destruct (master_to_queue s) as [|message rest] eqn:Em; [discriminate|].
  destruct (inv_m2q _ _ _ Hq message) as [Hnt _]; [rewrite Em; left|].
  unfold master_ok in Hprot. rewrite Em in Hprot.
  destruct message as [|j t|]; [congruence| |].
  - (* enqueue *)
    cbn in Hstep. inversion Hstep; subst; clear Hstep.
    assert (Hq2m : forall n items,
              ~ Q2M_retrieve_accepted n items ∈ queue_to_master s).
    { intros n items Hin. destruct (reads_handshake (master s)).
      - destruct Hprot as [_ [(pre & _ & _ & Hnil)|[Hnil _]]].
        + rewrite Hnil in Hin. inversion Hin.
        + congruence.
      - destruct Hprot as [Hnil _]. rewrite Hnil in Hin. inversion Hin. }
    constructor; simpl_sys; rewrite ?app_nil_r; try assumption.
    + intros jt Hin. apply Hm2q. right. exact Hin.
    + intros jt Hin. apply elem_of_app in Hin as [Hin|Hin]; [exact (Hqueue jt Hin)|].
      apply list_elem_of_singleton in Hin as ->. apply Hm2q. left.
    + unfold master_ok. simpl_sys. destruct (reads_handshake (master s)).
      * destruct Hprot as [Hc [(pre & Hpre & Hnot & Hnil)|[Hnil _]]];
          [|congruence].
        split; [exact Hc|]. left.
        destruct pre as [|p pre]; [discriminate Hpre|].
        inversion Hpre; subst. exists pre. repeat split; try assumption.
        intros Hin. apply Hnot. right. exact Hin.
      * destruct Hprot as [Hnil Hnot]. split; [exact Hnil|].
        intros Hin. apply Hnot. right. exact Hin.
    + intros n items Hin. exfalso. exact (Hq2m n items Hin).
    + intros jt Hjt.
      destruct (Hsome jt Hjt) as [?|[Hc|[Hc|?]]]; auto 10.
      * apply elem_of_cons in Hc as [->|Hc].
        -- right. right. left. apply elem_of_app. right. left.
        -- right. left. exact Hc.
      * right. right. left. apply elem_of_app. left. exact Hc.
  - (* retrieve *)
    assert (Hshape : reads_handshake (master s) = true /\ rest = [] /\
                     queue_to_master s = []).
    { destruct (reads_handshake (master s)).
      - destruct Hprot as [_ [(pre & Hpre & Hnot & Hnil)|[Hnil _]]];
          [|congruence].
        destruct pre as [|p pre].
        + inversion Hpre; subst. auto.
        + inversion Hpre; subst. exfalso. apply Hnot. left.
      - destruct Hprot as [_ Hnot]. exfalso. apply Hnot. left. }
    destruct Hshape as (Ehs & -> & Eq2m). rewrite Ehs in Hprot.
    destruct Hprot as [Hc _].
    unfold process_queue_pipe_message in Hstep.
    destruct (bool_decide (queue (queue_process s) = [])
              && (size (results (queue_process s)) =? N_tasks (queue_process s)))
      eqn:Hcond.
    + apply retrieve_condition in Hcond as [Hempty Hsize].
      inversion Hstep; subst; clear Hstep. rewrite Eq2m. cbn [app].
      assert (Hlen : N_tasks (queue_process s)
                     = length (items_in_order (results (queue_process s)))).
      { rewrite items_in_order_length. symmetry. exact Hsize. }
      assert (Hpl : payload [Q2M_retrieve_accepted (N_tasks (queue_process s))
                               (items_in_order (results (queue_process s)))]
                    = items_in_order (results (queue_process s))).
      { cbn. rewrite app_nil_r, Hlen. apply firstn_all. }
      assert (Hfe : all_in_flight (workers s) = ∅).
      { pose proof (inv_count _ _ _ Hq) as Hcnt. rewrite Hempty in Hcnt.
        cbn in Hcnt. apply gmultiset_size_empty_inv. lia. }
      constructor; simpl_sys; try assumption.
      * intros jt r Hl. rewrite lookup_empty in Hl. discriminate.
      * intros jt r Hin. rewrite Hpl in Hin.
        apply elem_of_items_in_order in Hin. exact (Hres jt r Hin).
      * unfold master_ok. simpl_sys. rewrite Ehs. split; [exact Hc|].
        right. split; [reflexivity|]. eauto.
      * intros n items Hin. apply list_elem_of_singleton in Hin.
        inversion Hin; subst. auto.
      * intros jt Hjt. rewrite Hpl.
        destruct (Hsome jt Hjt) as [?|[Hm|[?|[?|[[r Hr]|[Hp|?]]]]]]; auto 10.
        -- do 5 right. left. apply list_elem_of_fmap. exists (jt, r).
           split; [reflexivity|]. apply elem_of_items_in_order. exact Hr.
        -- rewrite Eq2m in Hp. inversion Hp.
    + inversion Hstep; subst; clear Hstep. rewrite Eq2m. cbn [app].
      constructor; simpl_sys; try assumption.
      * intros jt r Hin. cbn in Hin. inversion Hin.
      * unfold master_ok. simpl_sys. rewrite Ehs. split; [exact Hc|].
        right. split; [reflexivity|]. eauto.
      * intros n items Hin. apply list_elem_of_singleton in Hin. discriminate.
      * intros jt Hjt.
        destruct (Hsome jt Hjt) as [?|[Hm|[?|[?|[?|[Hp|?]]]]]]; auto 10.
        rewrite Eq2m in Hp. inversion Hp.
Qed.

Lemma result_invariant_queue_reads_worker k s h s' ev :
  queue_invariant jobs s h -> result_invariant jobs program s ->
  queue_worker_step k s = Some (s', ev) -> result_invariant jobs program s'.
Proof.
  intros Hq [Hws Hcalls Hm2q Hqueue Hres Hpay Hmas Hprot Hacc Hsuf Hsome Hdone] Hstep.
  unfold queue_worker_step in Hstep. rewrite (inv_running _ _ _ Hq) in Hstep.
  destruct (workers s !! k) as [w|] eqn:Ek; [|discriminate].
  destruct (to_queue_pipe w) as [|message rest] eqn:Eto; [discriminate|].
  destruct (inv_workers _ _ _ Hq k w Ek) as (Hmode & Hdom & Hphase).
  destruct (Hws k w Ek) as (Hjobs & Hvalid & Hright).
  destruct (phase w) eqn:Eph; try contradiction.
  - destruct Hphase as [Hto _]. congruence.
  - (* the worker awaits the reply to a dequeue *)
    destruct Hphase as [[Hto Hfrom]|[[Hto _]|[Hto _]]]; try congruence.
    rewrite Eto in Hto. inversion Hto; subst message rest. clear Hto.
    assert (Hflw : in_flight w = ∅).
    { apply in_flight_none; [rewrite Hfrom | rewrite Eto]; reflexivity. }
    unfold process_worker_pipe_message, from_queue in Hstep.
    destruct (queue (queue_process s)) as [|[j t] q'] eqn:Eq.
    + inversion Hstep; subst; clear Hstep.
      rewrite Hfrom, Hmode. cbn [app].
      set (w' := mkWorker true AwaitsDequeueReply (job_objects w) []
                   [Q2W_dequeue_rejected]).
      assert (Hsame : all_in_flight (<[k := w']> (workers s))
                      = all_in_flight (workers s)).
      { apply (flight_same _ _ w); [exact Ek|]. rewrite Hflw. reflexivity. }
      constructor; simpl_sys; rewrite ?Eq, ?Hsame; try assumption.
      * apply (workers_insert_ok (worker_values_ok jobs) _ _ _ Hws).
        repeat split; simpl_sys.
        -- exact Hjobs.
        -- intros jt Hin. cbn in Hin. inversion Hin.
        -- intros j t r Hin. inversion Hin.
    + inversion Hstep; subst; clear Hstep.
      rewrite Hfrom, Hmode. cbn [app fst snd].
      set (w' := mkWorker true AwaitsDequeueReply (job_objects w) []
                   [Q2W_dequeue_accepted j t]).
      assert (Hgain : all_in_flight (<[k := w']> (workers s))
                      = all_in_flight (workers s) ⊎ {[+ (j, t) +]}).
      { apply (flight_gain _ _ w); [exact Ek | exact Hflw |].
        apply in_flight_accepted; reflexivity. }
      constructor; simpl_sys; try assumption.
      * apply (workers_insert_ok (worker_values_ok jobs) _ _ _ Hws).
        repeat split; simpl_sys.
        -- exact Hjobs.
        -- intros jt Hin. cbn in Hin. apply list_elem_of_singleton in Hin as ->.
           apply Hqueue. left.
        -- intros j0 t0 r Hin. inversion Hin.
      * intros jt Hin. apply Hqueue. right. exact Hin.
      * intros n items Hin. destruct (Hacc n items Hin) as (Hqe & _).
        discriminate Hqe.
      * intros jt Hjt. rewrite Hgain.
        destruct (Hsome jt Hjt) as [?|[?|[Hc|[Hc|?]]]]; auto 10.
        -- apply elem_of_cons in Hc as [->|Hc]; [|auto 10].
           do 3 right. left. clear. multiset_solver.
        -- do 3 right. left. clear -Hc. multiset_solver.
  - (* the worker awaits the receipt of a result *)
    destruct Hphase as [(j & t & r & Hto & Hfrom)|[Hto _]]; try congruence.
    rewrite Eto in Hto. inversion Hto; subst message rest. clear Hto.
    assert (Hflw : in_flight w = {[+ (j, t) +]}).
    { apply in_flight_result; [rewrite Hfrom | rewrite Eto]; reflexivity. }
    cbn in Hstep. inversion Hstep; subst; clear Hstep.
    rewrite Hfrom, Hmode. cbn [app].
    set (w' := mkWorker true AwaitsReceipt (job_objects w) []
                 [Q2W_result_received]).
    assert (Hloss : all_in_flight (workers s)
                    = all_in_flight (<[k := w']> (workers s)) ⊎ {[+ (j, t) +]}).
    { apply (flight_loss _ _ w); [exact Ek | exact Hflw |].
      apply in_flight_none; reflexivity. }
    constructor; simpl_sys; try assumption.
    + apply (workers_insert_ok (worker_values_ok jobs) _ _ _ Hws).
      repeat split; simpl_sys.
      * exact Hjobs.
      * intros jt Hin. cbn in Hin. inversion Hin.
      * intros j0 t0 r0 Hin. inversion Hin.
    + intros jt r' Hl. destruct (decide ((j, t) = jt)) as [<-|Hne].
      * rewrite lookup_insert_eq in Hl. inversion Hl; subst.
        apply Hright. rewrite Eto. left.
      * rewrite lookup_insert_ne in Hl by exact Hne. exact (Hres jt r' Hl).
    + intros n items Hin. destruct (Hacc n items Hin) as (_ & _ & Hfe & _).
      exfalso. rewrite Hloss in Hfe. clear -Hfe. multiset_solver.
    + intros jt Hjt.
      destruct (Hsome jt Hjt) as [?|[?|[?|[Hc|[Hc|?]]]]]; auto 10.
      * rewrite Hloss in Hc. apply gmultiset_elem_of_disj_union in Hc as [Hc|Hc].
        -- auto 10.
        -- apply gmultiset_elem_of_singleton in Hc as ->.
           do 4 right. left. rewrite lookup_insert_eq. eauto.
      * do 4 right. left. destruct (decide ((j, t) = jt)) as [<-|Hne].
        -- rewrite lookup_insert_eq. eauto.
        -- rewrite lookup_insert_ne by exact Hne. exact Hc.
Qed.

Lemma worker_step_values w w' :
  worker_ok jobs w -> worker_values_ok jobs w -> worker_step w = Some w' ->
  worker_values_ok jobs w'.
Proof.
  intros (Hmode & Hdom & Hphase) (Hjobs & Hvalid & Hright) Hstep.
  unfold worker_step in Hstep. rewrite Hmode in Hstep.
  destruct (phase w) eqn:Eph; try contradiction.
  - destruct Hphase as [Hto Hfrom]. inversion Hstep; subst; clear Hstep.
    rewrite Hto, Hfrom. repeat split; simpl_sys.
    + exact Hjobs.
    + intros jt Hin. inversion Hin.
    + intros j t r Hin. apply list_elem_of_singleton in Hin. discriminate Hin.
  - destruct Hphase as [[Hto Hfrom]|[[Hto Hfrom]|(Hto & j & t & Hfrom & Hreg)]];
      rewrite Hfrom in Hstep; try discriminate.
    + inversion Hstep; subst; clear Hstep. rewrite Hto.
      repeat split; simpl_sys.
      * exact Hjobs.
      * intros jt Hin. inversion Hin.
      * intros j t r Hin. inversion Hin.
    + destruct (job_objects w !! j) as [job'|] eqn:Ejob.
      2:{ exfalso. apply not_elem_of_dom in Ejob. apply Ejob.
          rewrite Hdom. apply elem_of_dom. exact Hreg. }
      inversion Hstep; subst; clear Hstep. rewrite Hto.
      destruct (Hjobs j job' Ejob) as (job & Ej & Ex & Eb & El).
      destruct (Hvalid (j, t)) as (job0 & Ej0 & Hlt & Hlen).
      { rewrite Hfrom. left. }
      cbn [fst snd] in Ej0, Hlt. rewrite Ej in Ej0. inversion Ej0; subst job0.
      repeat split; simpl_sys.
      * intros j0 job0 Hl. destruct (decide (j = j0)) as [<-|Hne].
        -- rewrite lookup_insert_eq in Hl. inversion Hl; subst job0.
           exists job. cbn. rewrite length_insert. auto.
        -- rewrite lookup_insert_ne in Hl by exact Hne. exact (Hjobs j0 job0 Hl).
      * intros jt Hin. inversion Hin.
      * intros j0 t0 r Hin. apply list_elem_of_singleton in Hin.
        inversion Hin; subst. unfold expected. cbn [fst snd]. rewrite Ej.
        cbn. rewrite list_lookup_total_insert_eq by lia.
        rewrite Ex, Eb. reflexivity.
  - destruct Hphase as [(j & t & r & Hto & Hfrom)|[Hto Hfrom]];
      rewrite Hfrom in Hstep; try discriminate.
    inversion Hstep; subst; clear Hstep. rewrite Hto.
    repeat split; simpl_sys.
    + exact Hjobs.
    + intros jt Hin. inversion Hin.
    + intros j t r Hin. inversion Hin.
Qed.

Lemma result_invariant_worker_moves k w w' s h :
  queue_invariant jobs s h -> result_invariant jobs program s ->
  workers s !! k = Some w -> worker_step w = Some w' ->
  result_invariant jobs program
    (mkSystem (master s) (master_to_queue s) (queue_to_master s)
       (queue_process s) (queue_loop_running s) (<[k := w']> (workers s))).
Proof.
  intros Hq [Hws Hcalls Hm2q Hqueue Hres Hpay Hmas Hprot Hacc Hsuf Hsome Hdone]
    Ek Hstep.
  pose proof (inv_workers _ _ _ Hq k w Ek) as Hok.
  destruct (worker_step_ok jobs w w' Hok Hstep) as [_ Hsame].
  pose proof (flight_same (workers s) k w w' Ek Hsame) as Hfs.
  constructor; simpl_sys; rewrite ?Hfs; try assumption.
  apply (workers_insert_ok (worker_values_ok jobs) _ _ _ Hws).
  exact (worker_step_values w w' Hok (Hws k w Ek) Hstep).
Qed.

Lemma result_invariant_step mv s h s' ev :
  queue_invariant jobs s h -> result_invariant jobs program s ->
  step mv s = Some (s', ev) -> result_invariant jobs program s'.
Proof.
  intros Hq Hinv Hstep. destruct mv as [| |k|k]; cbn [step] in Hstep.
  - destruct (master_step s) as [s1|] eqn:E; [|discriminate].
    cbn in Hstep. inversion Hstep; subst.
    exact (result_invariant_master_moves s h s' Hq Hinv E).
  - exact (result_invariant_queue_reads_master s h s' ev Hq Hinv Hstep).
  - exact (result_invariant_queue_reads_worker k s h s' ev Hq Hinv Hstep).
  - destruct (workers s !! k) as [w|] eqn:Ek; [|discriminate].
    cbn in Hstep. destruct (worker_step w) as [w'|] eqn:Ew; [|discriminate].
    cbn in Hstep. inversion Hstep; subst.
    exact (result_invariant_worker_moves k w w' s h Hq Hinv Ek Ew).
Qed.

Lemma result_invariant_reachable N s h :
  program_ok jobs program ->
  reachable (fork N jobs program) s h ->
  queue_invariant jobs s h /\ result_invariant jobs program s.
Proof.
  intros Hp Hr. induction Hr as [|s h mv s' ev Hr [IHq IHr] Hstep].
  - split; [apply invariant_fork; exact Hp | apply result_invariant_fork].
  - split.
    + exact (invariant_step jobs mv s h s' ev IHq Hstep).
    + exact (result_invariant_step mv s h s' ev IHq IHr Hstep).
Qed.

(** Once the master has made all its calls it holds the right result of
    every task of the program. *)
Lemma master_results_done N s h :
  program_ok jobs program ->
  reachable (fork N jobs program) s h -> calls (master s) = [] ->
  forall jt, jt ∈ tasks_of program ->
  results (master_ipqm (master s)) !! jt = Some (expected jobs jt).
Proof.
  intros Hp Hr Hcalls jt Hjt.
  destruct (result_invariant_reachable N s h Hp Hr) as [_ Hinv].
  destruct (res_done _ _ _ Hinv Hcalls jt Hjt) as [r Hr'].
  rewrite Hr'. f_equal. exact (res_master _ _ _ Hinv jt r Hr').
Qed.

End WithJobs.
End ResultFacts.

(** ** The single-job test *)

Module SmokeFacts.
Import MultiProcess QueueInvariants ResultInvariants QueueFacts ResultFacts.
Import SmokeTest.

Lemma registered_lookup : registration.1.2 !! job_id = Some x_sq_plus_b.
Proof. apply lookup_insert_eq. Qed.

Lemma smoke_tasks :
  tasks_of (evaluate_calls job_id (length x_init)) =
  [(job_id, 0); (job_id, 1); (job_id, 2); (job_id, 3)].
Proof. reflexivity. Qed.

Lemma smoke_program_ok :
  program_ok registration.1.2 (evaluate_calls job_id (length x_init)).
Proof.
  split.
  - intros Hin. cbn in Hin.
    repeat (apply elem_of_cons in Hin as [Hin|Hin]; [discriminate Hin|]).
    inversion Hin.
  - intros j t Hin. cbn in Hin.
    repeat (apply elem_of_cons in Hin as [Hin|Hin];
            [inversion Hin; subst; exists x_sq_plus_b; exact registered_lookup|]).
    inversion Hin.
Qed.

Lemma smoke_program_valid jt :
  jt ∈ tasks_of (evaluate_calls job_id (length x_init)) ->
  valid_task registration.1.2 jt.
Proof.
  rewrite smoke_tasks. intros Hin. exists x_sq_plus_b.
  repeat (apply elem_of_cons in Hin as [->|Hin];
          [split; [exact registered_lookup | cbn; lia]|]).
  inversion Hin.
Qed.

Lemma smoke_program_retrieves :
  list.last (evaluate_calls job_id (length x_init)) = Some call_retrieve.
Proof. reflexivity. Qed.

Lemma smoke_expected t :
  t < 4 ->
  expected registration.1.2 (job_id, t) = y_expected !!! t.
Proof.
  intros Ht. unfold expected. cbn [fst snd]. rewrite registered_lookup.
  destruct t as [|[|[|[|t]]]]; [| | | |lia]; cbn; unfold b_initial; lra.
Qed.

Lemma get_result_serial_smoke : get_result_serial x_sq_plus_b = y_expected.
Proof.
  unfold get_result_serial, evaluate_serial, y_expected. cbn.
  unfold b_initial. repeat (f_equal; try lra).
Qed.

Lemma finishes_run NumCPU :
  finishes NumCPU = true ->
  exists s h, run (schedule NumCPU) (x_sq_plus_b_parallel NumCPU) [] = Some (s, h)
              /\ calls (master s) = [].
Proof.
  unfold finishes.
  destruct (run (schedule NumCPU) (x_sq_plus_b_parallel NumCPU) [])
    as [[s h]|]; [|discriminate].
  intros Hfin. exists s, h. split; [reflexivity|].
  destruct (calls (master s)); [reflexivity|discriminate].
Qed.

Lemma finishes_1 : finishes 1 = true.
Proof. vm_compute. reflexivity. Qed.

Lemma finishes_2 : finishes 2 = true.
Proof. vm_compute. reflexivity. Qed.

Lemma finishes_3 : finishes 3 = true.
Proof. vm_compute. reflexivity. Qed.

Lemma smoke_result NumCPU s h :
  reachable (x_sq_plus_b_parallel NumCPU) s h -> calls (master s) = [] ->
  get_result_parallel job_id (length x_init) (master s) = y_expected.
Proof.
  intros Hr Hdone. rewrite get_result_parallel_lookup.
  pose proof (master_results_done _ _ smoke_program_valid
                smoke_program_retrieves NumCPU s h smoke_program_ok Hr Hdone)
    as Hres.
  rewrite smoke_tasks in Hres.
  change (length x_init) with 4. cbn [seq map].
  rewrite !Hres by (repeat constructor).
  rewrite !smoke_expected by lia. reflexivity.
Qed.

End SmokeFacts.

(** ** Batches of tasks: what the counter and the result map stand for *)

Module BatchFacts.
Import MultiProcess QueueInvariants QueueFacts.

Lemma recorded_results_app h1 h2 :
  recorded_results (h1 ++ h2) = recorded_results h1 ++ recorded_results h2.
Proof. apply flat_map_app. Qed.

Lemma recorded_tasks_results (h : list Event) :
  recorded_tasks h = (recorded_results h).*1.
Proof.
  induction h as [|e h IH]; [reflexivity|].
  change (recorded_tasks (e :: h))
    with (match e with recorded _ jt _ => [jt] | _ => [] end ++ recorded_tasks h).
  change (recorded_results (e :: h))
    with (match e with recorded _ jt r => [(jt, r)] | _ => [] end
          ++ recorded_results h).
  rewrite fmap_app, IH. destruct e; reflexivity.
Qed.

Lemma elem_of_recorded_results (h : list Event) k jt r :
  recorded k jt r ∈ h -> (jt, r) ∈ recorded_results h.
Proof.
  induction h as [|e h IH]; intros Hin; [inversion Hin|].
  change (recorded_results (e :: h))
    with (match e with recorded _ jt r => [(jt, r)] | _ => [] end
          ++ recorded_results h).
  apply elem_of_app. apply elem_of_cons in Hin as [<-|Hin].
  - left. left.
  - right. apply IH. exact Hin.
Qed.

(** Storing results under keys that are all different: every one of them
    is there afterwards. *)
Lemma foldl_insert_skips (items : list (nat * nat * R)) (m : gmap (nat * nat) R) jt :
  jt ∉ items.*1 ->
  foldl (fun res item => <[item.1 := item.2]> res) m items !! jt = m !! jt.
Proof.
  revert m. induction items as [|[k v] items IH]; intros m Hnin; [reflexivity|].
  cbn in Hnin. apply not_elem_of_cons in Hnin as [Hne Hnin].
  cbn [foldl]. rewrite (IH _ Hnin). cbn. apply lookup_insert_ne. congruence.
Qed.

Lemma foldl_insert_stored (items : list (nat * nat * R)) (m : gmap (nat * nat) R)
    jt r :
  NoDup items.*1 -> (jt, r) ∈ items ->
  foldl (fun res item => <[item.1 := item.2]> res) m items !! jt = Some r.
Proof.
  revert m. induction items as [|[k v] items IH]; intros m Hnd Hin.
  - inversion Hin.
  - cbn in Hnd. apply list.NoDup_cons in Hnd as [Hfresh Hnd].
    cbn [foldl]. apply elem_of_cons in Hin as [Heq|Hin].
    + inversion Heq; subst. rewrite foldl_insert_skips by exact Hfresh.
      cbn. apply lookup_insert_eq.
    + apply IH; assumption.
Qed.

Lemma batch_from_snoc (batch h : list Event) (e : Event) :
  batch_from batch (h ++ [e])
  = match e with
    | accepted _ => []
    | _ => batch_from batch h ++ [e]
    end.
Proof.
  revert batch. induction h as [|e' h IH]; intros batch.
  - destruct e; reflexivity.
  - cbn [app batch_from]. destruct e'; rewrite IH; reflexivity.
Qed.

Lemma since_accept_snoc (h : list Event) (e : Event) :
  since_accept (h ++ [e])
  = match e with
    | accepted _ => []
    | _ => since_accept h ++ [e]
    end.
Proof. apply batch_from_snoc. Qed.

(** What one move does to the queue process, by the event it produces. *)
Lemma step_cases {J : Type} `{Job J} (mv : Move) (s s' : System J) (ev : list Event) :
  step mv s = Some (s', ev) ->
  let q := queue_process s in
  (ev = [] /\ queue_process s' = q) \/
  (exists jt, ev = [enqueued jt] /\
     queue_process s' = mkIPQM (queue q ++ [jt]) (S (N_tasks q)) (results q)) \/
  (exists items, ev = [accepted items] /\ queue_loop_running s = true /\
     queue q = [] /\ size (results q) = N_tasks q /\
     queue_process s' = mkIPQM [] 0 ∅) \/
  (exists k jt rest, ev = [delivered k jt] /\ queue q = jt :: rest /\
     queue_process s' = mkIPQM rest (N_tasks q) (results q)) \/
  (exists k jt r, ev = [recorded k jt r] /\
     queue_process s' = mkIPQM (queue q) (N_tasks q) (<[jt := r]> (results q))).
Proof.
  intros Hstep q. subst q. destruct mv as [| |k|k]; cbn [step] in Hstep.
  - destruct (master_step s) as [s1|] eqn:E; [|discriminate].
    cbn in Hstep. inversion Hstep; subst s1 ev. clear Hstep. left.
    split; [reflexivity|]. unfold master_step in E.
    destruct (reads_handshake (master s)).
    + destruct (queue_to_master s) as [|[| |n items] rest]; inversion E; reflexivity.
    + destruct (calls (master s)) as [|[j t| |] rest]; inversion E; reflexivity.
  - unfold queue_master_step in Hstep.
    destruct (queue_loop_running s) eqn:Erun; [|discriminate].
    destruct (master_to_queue s) as [|[|j t|] rest]; [discriminate| | |].
    + cbn in Hstep. inversion Hstep; subst. left. split; reflexivity.
    + cbn in Hstep. inversion Hstep; subst. right. left.
      exists (j, t). split; reflexivity.
    + cbn [process_queue_pipe_message] in Hstep.
      pose proof (retrieve_condition (queue_process s)) as Hcond.
      destruct (bool_decide _ && _) eqn:Etest.
      * inversion Hstep; subst. right. right. left.
        destruct Hcond as [Hcond _]. destruct (Hcond eq_refl) as [Hq Hsz].
        exists (items_in_order (results (queue_process s))).
        cbn. rewrite Hq. auto.
      * inversion Hstep; subst. left. split; reflexivity.
  - unfold queue_worker_step in Hstep.
    destruct (queue_loop_running s); [|discriminate].
    destruct (workers s !! k) as [w|]; [|discriminate].
    destruct (to_queue_pipe w) as [|[| |j t r] rest]; [discriminate| | |].
    + cbn in Hstep. inversion Hstep; subst. left. split; reflexivity.
    + unfold process_worker_pipe_message, from_queue in Hstep.
      destruct (queue (queue_process s)) as [|[j t] q'] eqn:Eq.
      * inversion Hstep; subst. left. split; reflexivity.
      * inversion Hstep; subst. right. right. right. left.
        exists k, (j, t), q'. cbn. auto.
    + cbn in Hstep. inversion Hstep; subst. right. right. right. right.
      exists k, (j, t), r. cbn. auto.
  - destruct (workers s !! k) as [w|]; [|discriminate]. cbn in Hstep.
    destruct (worker_step w) as [w'|]; [|discriminate]. cbn in Hstep.
    inversion Hstep; subst. left. split; reflexivity.
Qed.

Lemma size_list_to_set_le (l : list (nat * nat)) :
  size (list_to_set l : gset (nat * nat)) <= length l.
Proof.
  induction l as [|a l IH]; [reflexivity|].
  cbn [list_to_set length].
  pose proof (size_union_alt ({[a]} : gset (nat * nat)) (list_to_set l)) as Hsz.
  rewrite size_singleton in Hsz.
  pose proof (subseteq_size (list_to_set l ∖ {[a]}) (list_to_set l : gset (nat * nat))
                ltac:(apply subseteq_difference_l; reflexivity)).
  lia.
Qed.

Lemma size_list_to_set_dup (l : list (nat * nat)) :
  ~ NoDup l -> size (list_to_set l : gset (nat * nat)) < length l.
Proof.
  induction l as [|a l IH]; intros Hdup.
  - exfalso. apply Hdup. constructor.
  - cbn [list_to_set length].
    destruct (decide (a ∈ l)) as [Hin|Hnin].
    + assert (E : ({[a]} ∪ list_to_set l : gset (nat * nat)) = list_to_set l).
      { apply subseteq_union_1_L, singleton_subseteq_l, elem_of_list_to_set. exact Hin. }
      rewrite E. pose proof (size_list_to_set_le l). lia.
    + assert (Hdup' : ~ NoDup l).
      { intros Hnd. apply Hdup. constructor; assumption. }
      specialize (IH Hdup').
      rewrite size_union, size_singleton;
        [lia | apply disjoint_singleton_l; rewrite elem_of_list_to_set; exact Hnin].
Qed.

Section WithJob.
Context {J : Type} `{Job J}.
Variable jobs : gmap nat J.

(** The tasks recorded in the current batch are among those enqueued in
    it. *)
Lemma batch_recorded_were_enqueued (s : System J) h :
  queue_invariant jobs s h -> batch_invariant s h ->
  forall jt, jt ∈ recorded_tasks (since_accept h) ->
             jt ∈ enqueued_tasks (since_accept h).
Proof.
  intros Hq [_ _ _ (before & Hh & Hbe & Hbd)] jt Hjt.
  pose proof (inv_fifo _ _ _ Hq) as Hfifo.
  pose proof (inv_flight _ _ _ Hq) as Hflight.
  set (B := since_accept h) in *. clearbody B. subst h.
  rewrite enqueued_tasks_app, delivered_tasks_app, fmap_app, <- app_assoc, Hbe
    in Hfifo.
  apply app_inv_head in Hfifo. rewrite Hfifo. apply elem_of_app. left.
  rewrite delivered_tasks_app, recorded_tasks_app, fmap_app,
    !list_to_set_disj_app in Hflight.
  assert (Hm : list_to_set_disj (delivered_tasks before).*2
               =@{gmultiset (nat * nat)} list_to_set_disj (recorded_tasks before)).
  { apply list_to_set_disj_perm. exact Hbd. }
  rewrite Hm in Hflight.
  apply (elem_of_list_to_set_disj (A:=nat * nat)).
  apply (elem_of_list_to_set_disj (A:=nat * nat)) in Hjt.
  revert Hflight Hjt.
  generalize (list_to_set_disj (recorded_tasks before) : gmultiset (nat * nat)),
    (list_to_set_disj (delivered_tasks B).*2 : gmultiset (nat * nat)),
    (list_to_set_disj (recorded_tasks B) : gmultiset (nat * nat)),
    (all_in_flight (workers s)).
  clear. intros X Y Z U HX HZ. multiset_solver.
Qed.

Lemma batch_with_a_duplicate (s : System J) h :
  queue_invariant jobs s h -> batch_invariant s h ->
  ~ NoDup (enqueued_tasks (since_accept h)) ->
  size (results (queue_process s)) < N_tasks (queue_process s).
Proof.
  intros Hq Hb Hdup.
  pose proof (batch_recorded_were_enqueued s h Hq Hb) as Hsub.
  destruct Hb as [Hcount Hres _ _].
  rewrite Hcount, <- size_dom, Hres.
  eapply Nat.le_lt_trans; [|apply size_list_to_set_dup; exact Hdup].
  apply subseteq_size. intros jt Hjt.
  apply elem_of_list_to_set in Hjt. apply elem_of_list_to_set. auto.
Qed.

Lemma batch_invariant_step mv (s s' : System J) h ev :
  queue_invariant jobs s h -> batch_invariant s h ->
  step mv s = Some (s', ev) -> batch_invariant s' (h ++ ev).
Proof.
  intros Hq [Hcount Hres Hval (before & Hh & Hbe & Hbd)] Hstep.
  destruct (step_cases mv s s' ev Hstep)
    as [[-> E]|[(jt & -> & E)|[(items & -> & _ & Eq & Esz & E)
       |[(k & jt & rest & -> & Eq & E)|(k & jt & r & -> & E)]]]].
  - rewrite app_nil_r.
    constructor; rewrite ?E; [exact Hcount | exact Hres | exact Hval|].
    exists before. auto.
  - constructor; rewrite ?E; cbn [N_tasks results]; rewrite since_accept_snoc.
    + rewrite enqueued_tasks_app, length_app, Hcount. cbn. lia.
    + rewrite recorded_tasks_app, Hres. cbn. rewrite app_nil_r. reflexivity.
    + rewrite recorded_results_app. cbn. rewrite app_nil_r. exact Hval.
    + exists before. rewrite Hh at 1. rewrite app_assoc. auto.
  - destruct (invariant_at_acceptance jobs s h Hq Eq Esz) as (_ & Hfifo & Hperm).
    constructor; rewrite ?E; cbn [N_tasks results]; rewrite since_accept_snoc.
    + reflexivity.
    + cbn. apply dom_empty_L.
    + reflexivity.
    + exists (h ++ [accepted items]). rewrite app_nil_r.
      split; [reflexivity|].
      rewrite enqueued_tasks_app, delivered_tasks_app, recorded_tasks_app.
      cbn. rewrite !app_nil_r. auto.
  - constructor; rewrite ?E; cbn [N_tasks results]; rewrite since_accept_snoc.
    + rewrite enqueued_tasks_app. cbn. rewrite app_nil_r. exact Hcount.
    + rewrite recorded_tasks_app. cbn. rewrite app_nil_r. exact Hres.
    + rewrite recorded_results_app. cbn. rewrite app_nil_r. exact Hval.
    + exists before. rewrite Hh at 1. rewrite app_assoc. auto.
  - constructor; rewrite ?E; cbn [N_tasks results]; rewrite since_accept_snoc.
    + rewrite enqueued_tasks_app. cbn. rewrite app_nil_r. exact Hcount.
    + rewrite recorded_tasks_app, dom_insert_L, Hres. cbn.
      rewrite list_to_set_app_L. cbn.
      rewrite (right_id_L ∅ (∪)). apply (comm_L (∪)).
    + rewrite recorded_results_app, foldl_app, <- Hval. reflexivity.
    + exists before. rewrite Hh at 1. rewrite app_assoc. auto.
Qed.

Lemma batch_invariant_reachable N program (s : System J) h :
  program_ok jobs program ->
  reachable (fork N jobs program) s h ->
  queue_invariant jobs s h /\ batch_invariant s h.
Proof.
  intros Hp Hr. induction Hr as [|s h mv s' ev Hr [IHq IHb] Hstep].
  - split; [apply invariant_fork; exact Hp|].
    constructor.
    + reflexivity.
    + cbn. apply dom_empty_L.
    + reflexivity.
    + exists []. repeat split; reflexivity.
  - split.
    + exact (invariant_step jobs mv s h s' ev IHq Hstep).
    + exact (batch_invariant_step mv s s' h ev IHq IHb Hstep).
Qed.


(** When a [retrieve] would be accepted, the batch is complete: the tasks
    enqueued in it are all different, each has been recorded once, and the
    result map holds for each of them the result that was recorded. *)
Lemma batch_at_acceptance (s : System J) h :
  queue_invariant jobs s h -> batch_invariant s h ->
  queue (queue_process s) = [] ->
  size (results (queue_process s)) = N_tasks (queue_process s) ->
  enqueued_tasks (since_accept h) ≡ₚ recorded_tasks (since_accept h) /\
  NoDup (enqueued_tasks (since_accept h)) /\
  dom (results (queue_process s)) = list_to_set (enqueued_tasks (since_accept h)) /\
  forall k jt r, recorded k jt r ∈ since_accept h ->
                 results (queue_process s) !! jt = Some r.
Proof.
  intros Hq [Hcount Hres Hval (before & Hh & Hbe & Hbd)] Hempty Hsize.
  destruct (invariant_at_acceptance jobs s h Hq Hempty Hsize)
    as (_ & Hfifo & Hperm).
  set (B := since_accept h) in *.
  assert (Hh' : h = before ++ B) by exact Hh. clearbody B.
  assert (HB : enqueued_tasks B ≡ₚ recorded_tasks B).
  { subst h.
    rewrite enqueued_tasks_app, delivered_tasks_app, fmap_app, Hbe in Hfifo.
    apply app_inv_head in Hfifo. rewrite Hfifo.
    rewrite delivered_tasks_app, recorded_tasks_app, fmap_app, Hbd in Hperm.
    apply Permutation_app_inv_l in Hperm. exact Hperm. }
  assert (Hnd : NoDup (recorded_tasks B)).
  { destruct (decide (NoDup (recorded_tasks B))) as [Hnd|Hdup]; [exact Hnd|].
    apply size_list_to_set_dup in Hdup.
    rewrite <- Hres, size_dom, Hsize, Hcount, HB in Hdup. lia. }
  split; [exact HB|]. split; [rewrite HB; exact Hnd|]. split.
  - rewrite Hres. apply list_to_set_perm_L. symmetry. exact HB.
  - intros k jt r Hin. rewrite Hval. apply foldl_insert_stored.
    + rewrite <- recorded_tasks_results. exact Hnd.
    + eapply elem_of_recorded_results. exact Hin.
Qed.

End WithJob.
End BatchFacts.

(** ** The queue protocol *)

Module QueueClaims.
Import MultiProcess QueueInvariants ResultInvariants QueueFacts ResultFacts.
Import BatchFacts SmokeTest SmokeFacts.

(** C2.  On [M2Q::retrieve] the queue process keeps running and answers
    [retrieve_accepted] if and only if its queue is empty and it holds as
    many results as [N_tasks] counts, where every [M2Q::enqueue] adds one to
    [N_tasks].  An accepted retrieve streams [N_tasks] and then every stored
    result once, in key order, and leaves an empty result store and
    [N_tasks = 0]; a rejected one answers [retrieve_rejected] and leaves the
    queue process as it was. *)
Theorem C2_retrieve_accepted_iff_all_results_in
    (q q' : IPQM) (carry_on : bool) (out : list Q2M) :
  process_queue_pipe_message M2Q_retrieve q = (carry_on, q', out) ->
  carry_on = true /\
  ((exists n items, out = [Q2M_retrieve_accepted n items]) <->
   queue q = [] /\ size (results q) = N_tasks q) /\
  (queue q = [] /\ size (results q) = N_tasks q ->
   out = [Q2M_retrieve_accepted (N_tasks q) (items_in_order (results q))] /\
   length (items_in_order (results q)) = N_tasks q /\
   NoDup (items_in_order (results q)).*1 /\
   (forall jt r, (jt, r) ∈ items_in_order (results q) <->
                 results q !! jt = Some r) /\
   q' = mkIPQM [] 0 ∅) /\
  (~ (queue q = [] /\ size (results q) = N_tasks q) ->
   out = [Q2M_retrieve_rejected] /\ q' = q) /\
  (forall j t,
     N_tasks (process_queue_pipe_message (M2Q_enqueue j t) q).1.2
     = S (N_tasks q)).
Proof.
  intros Hmsg. cbn [process_queue_pipe_message] in Hmsg.
  pose proof (retrieve_condition q) as Hcond.
  destruct (bool_decide (queue q = []) && (size (results q) =? N_tasks q))
    eqn:Etest; injection Hmsg as <- <- <-.
  - assert (Hyes : queue q = [] /\ size (results q) = N_tasks q)
      by (apply Hcond; reflexivity).
    split; [reflexivity|]. split; [|split; [|split]].
    + split; [intros _; exact Hyes | intros _; eauto].
    + intros _. split; [reflexivity|]. split.
      { rewrite items_in_order_length. apply Hyes. }
      split; [apply items_in_order_NoDup_keys|].
      split; [intros jt r; apply elem_of_items_in_order|].
      destruct Hyes as [-> _]. reflexivity.
    + intros Hno. contradiction.
    + intros j t. reflexivity.
  - assert (Hno : ~ (queue q = [] /\ size (results q) = N_tasks q)).
    { intros Hyes. apply Hcond in Hyes. discriminate Hyes. }
    split; [reflexivity|]. split; [|split; [|split]].
    + split; [intros (n & items & Hout); discriminate Hout | intros Hyes; contradiction].
    + intros Hyes. contradiction.
    + intros _. split; reflexivity.
    + intros j t. reflexivity.
Qed.

Lemma C2_witness :
  process_queue_pipe_message M2Q_retrieve (mkIPQM [] 1 {[(0, 0) := 3%R]})
  = (true, mkIPQM [] 0 ∅, [Q2M_retrieve_accepted 1 [((0, 0), 3%R)]]) /\
  [Q2M_retrieve_accepted 1 [((0, 0), 3%R)]]
  = [Q2M_retrieve_accepted 1 (items_in_order {[(0, 0) := 3%R]})].
Proof.
  assert (Hmsg : process_queue_pipe_message M2Q_retrieve
                   (mkIPQM [] 1 {[(0, 0) := 3%R]})
                 = (true, mkIPQM [] 0 ∅,
                    [Q2M_retrieve_accepted 1 [((0, 0), 3%R)]]))
    by (vm_compute; reflexivity).
  split; [exact Hmsg|].
  destruct (C2_retrieve_accepted_iff_all_results_in _ _ _ _ Hmsg)
    as (_ & _ & Hacc & _).
  apply Hacc. split; [reflexivity | vm_compute; reflexivity].
Defined.

(** C4.  [M2Q::enqueue] appends the task at the tail of the queue;
    [W2Q::dequeue] is answered [dequeue_accepted] with the head of the
    queue, which it pops, when there is one, and [dequeue_rejected] when the
    queue is empty; [W2Q::send_result] stores the result under its task.  So
    in every reachable state of a system whose program never terminates the
    queue and enqueues tasks of registered jobs only, the tasks delivered so
    far are the first of the tasks enqueued so far, in the same order, each
    by one delivery to one worker, the others being still in the queue;
    every delivery is either still in flight at its worker or has had one
    result recorded; and the result map of the queue process is exactly the
    results recorded since the last accepted retrieve, each stored under its
    task, with [N_tasks] the number of tasks enqueued since then.  When the
    queue is empty and as many results are held as tasks were counted, every
    enqueued task has been delivered once and has had one result recorded:
    the tasks of the batch are all different, and the result map holds,
    for exactly these tasks, the result recorded for each. *)
Theorem C4_tasks_delivered_and_recorded_once :
  (forall q j t,
     process_queue_pipe_message (M2Q_enqueue j t) q
     = (true, mkIPQM (queue q ++ [(j, t)]) (S (N_tasks q)) (results q), [])) /\
  (forall q,
     process_worker_pipe_message W2Q_dequeue q
     = match queue q with
       | [] => Some (q, [Q2W_dequeue_rejected])
       | job_task :: rest =>
           Some (mkIPQM rest (N_tasks q) (results q),
                 [Q2W_dequeue_accepted job_task.1 job_task.2])
       end) /\
  (forall q j t r,
     process_worker_pipe_message (W2Q_send_result j t r) q
     = Some (mkIPQM (queue q) (N_tasks q) (<[(j, t) := r]> (results q)),
             [Q2W_result_received])) /\
  (forall (J : Type) (HJ : Job J) (jobs : gmap nat J) (N_workers : nat)
          (program : list Call) (s : System J) (h : list Event),
     program_ok jobs program ->
     reachable (fork N_workers jobs program) s h ->
     enqueued_tasks h = (delivered_tasks h).*2 ++ queue (queue_process s) /\
     list_to_set_disj (delivered_tasks h).*2
     = all_in_flight (workers s) ⊎ list_to_set_disj (recorded_tasks h) /\
     N_tasks (queue_process s) = length (enqueued_tasks (since_accept h)) /\
     results (queue_process s)
     = foldl (fun res item => <[item.1 := item.2]> res) ∅
         (recorded_results (since_accept h)) /\
     (queue (queue_process s) = [] ->
      size (results (queue_process s)) = N_tasks (queue_process s) ->
      enqueued_tasks h = (delivered_tasks h).*2 /\
      (delivered_tasks h).*2 ≡ₚ recorded_tasks h /\
      NoDup (enqueued_tasks (since_accept h)) /\
      enqueued_tasks (since_accept h) ≡ₚ recorded_tasks (since_accept h) /\
      dom (results (queue_process s))
      = list_to_set (enqueued_tasks (since_accept h)) /\
      forall k jt r, recorded k jt r ∈ since_accept h ->
                     results (queue_process s) !! jt = Some r)).
Proof.
  split; [|split; [|split]].
  - intros q j t. reflexivity.
  - intros q. unfold process_worker_pipe_message, from_queue.
    destruct (queue q) as [|job_task rest]; [destruct q|]; reflexivity.
  - intros q j t r. reflexivity.
  - intros J HJ jobs N_workers program s h Hp Hr.
    destruct (batch_invariant_reachable jobs N_workers program s h Hp Hr)
      as [Hinv Hbatch].
    split; [exact (inv_fifo _ _ _ Hinv)|].
    split; [exact (inv_flight _ _ _ Hinv)|].
    split; [exact (batch_count _ _ Hbatch)|].
    split; [exact (batch_values _ _ Hbatch)|].
    intros Hq Hsize.
    destruct (invariant_at_acceptance jobs s h Hinv Hq Hsize) as (_ & Hfifo & Hperm).
    destruct (batch_at_acceptance jobs s h Hinv Hbatch Hq Hsize)
      as (HB & Hnd & Hdom & Hvals).
    auto 10.
Qed.

(** C4 on the test with two workers, at the moment when the four tasks
    have been worked off and the master has not yet asked for the results:
    a retrieve would be accepted, the four tasks are all different, and the
    result map holds a result for exactly these four. *)
Lemma C4_witness :
  exists s h,
    run (replicate 4 master_moves ++ replicate 4 queue_reads_master
         ++ flat_map (fun t => one_task (t mod 2)) (seq 0 4))
        (x_sq_plus_b_parallel 2) [] = Some (s, h) /\
    queue (queue_process s) = [] /\
    size (results (queue_process s)) = N_tasks (queue_process s) /\
    enqueued_tasks h = (delivered_tasks h).*2 /\
    NoDup (enqueued_tasks (since_accept h)) /\
    dom (results (queue_process s))
    = list_to_set (enqueued_tasks (since_accept h)).
Proof.
  destruct (run (replicate 4 master_moves ++ replicate 4 queue_reads_master
                 ++ flat_map (fun t => one_task (t mod 2)) (seq 0 4))
                (x_sq_plus_b_parallel 2) [])
    as [[s h]|] eqn:Erun; [|vm_compute in Erun; discriminate Erun].
  pose proof (run_reachable _ _ _ _ _ _ (reachable_init _) Erun) as Hreach.
  assert (Hq : queue (queue_process s) = []).
  { vm_compute in Erun. injection Erun as <- <-. reflexivity. }
  assert (Hsize : size (results (queue_process s)) = N_tasks (queue_process s)).
  { vm_compute in Erun. injection Erun as <- <-. vm_compute. reflexivity. }
  exists s, h. split; [reflexivity|]. split; [exact Hq|]. split; [exact Hsize|].
  destruct C4_tasks_delivered_and_recorded_once as (_ & _ & _ & Hsys).
  destruct (Hsys _ _ _ 2 _ s h smoke_program_ok Hreach) as (_ & _ & _ & _ & Hdone).
  destruct (Hdone Hq Hsize) as (Hfifo & _ & Hnd & _ & Hdom & _).
  split; [exact Hfifo|]. split; [exact Hnd | exact Hdom].
Defined.

(** C9.  The serial vector over [x = (0, 1, 2, 3)] with [b = 3] returns
    [(3, 4, 7, 12)].  With 1, 2 or 3 workers the parallel vector's
    [evaluate()] can run to its end through enqueue, dequeue and retrieve,
    and for every number of workers and every order in which the processes
    take their turns, once [evaluate()] has returned on the master the
    result is [(3, 4, 7, 12)], the serial result. *)
Theorem C9_parallel_vector_returns_serial_result :
  get_result_serial x_sq_plus_b = y_expected /\
  (forall NumCPU, NumCPU ∈ [1; 2; 3] ->
     exists s h,
       run (schedule NumCPU) (x_sq_plus_b_parallel NumCPU) [] = Some (s, h) /\
       calls (master s) = []) /\
  (forall NumCPU s h,
     reachable (x_sq_plus_b_parallel NumCPU) s h -> calls (master s) = [] ->
     get_result_parallel job_id (length x_init) (master s)
     = get_result_serial x_sq_plus_b).
Proof.
  split; [exact get_result_serial_smoke|]. split.
  - intros NumCPU Hin. apply finishes_run.
    apply elem_of_cons in Hin as [->|Hin]; [exact finishes_1|].
    apply elem_of_cons in Hin as [->|Hin]; [exact finishes_2|].
    apply elem_of_cons in Hin as [->|Hin]; [exact finishes_3|].
    inversion Hin.
  - intros NumCPU s h Hr Hdone. rewrite get_result_serial_smoke.
    exact (smoke_result NumCPU s h Hr Hdone).
Qed.

Lemma C9_witness :
  exists s h,
    run (schedule 3) (x_sq_plus_b_parallel 3) [] = Some (s, h) /\
    get_result_parallel job_id (length x_init) (master s) = [3; 4; 7; 12]%R.
Proof.
  destruct C9_parallel_vector_returns_serial_result as (Hserial & Hruns & Hall).
  destruct (Hruns 3) as (s & h & Hrun & Hdone).
  - right. right. left.
  - exists s, h. split; [exact Hrun|].
    change ([3; 4; 7; 12]%R) with y_expected. rewrite <- Hserial.
    apply (Hall 3 s h); [|exact Hdone].
    exact (run_reachable _ _ _ _ _ _ (reachable_init _) Hrun).
Defined.

End QueueClaims.

(** ** Registration of jobs *)

Module RegistrationClaims.
Import TaskManager.

(** C5, as stated, fails: after [terminate()] a job is registered without
    an error although the task manager has been activated before. *)
Lemma C5_counterexample :
  ~ (forall (ops : list (Op MultiProcess.xSquaredPlusBVector))
            (st st' : Static MultiProcess.xSquaredPlusBVector)
            (job_id : nat),
       run_ops false ops initial = Some st ->
       add_job_object SmokeTest.x_sq_plus_b st = inr (job_id, st') ->
       op_activate ∉ ops).
Proof.
  intros Hclaim.
  apply (Hclaim [op_instance 1; op_activate; op_terminate false]
           (mkStatic (Some (mk 1 false false)) ∅ 0)
           (mkStatic (Some (mk 1 false false))
              (<[0 := SmokeTest.x_sq_plus_b]> ∅) 1) 0).
  - reflexivity.
  - reflexivity.
  - right. left.
Qed.

(** C5, amended.  [TaskManager::add_job_object] throws the [logic_error]
    about an activated instance exactly when an instance exists and is
    activated at the time of the call; otherwise it registers the job under
    the next job id.  [activate()] makes an instance activated and
    [terminate()] ends that, so that jobs can be registered before there is
    an instance, between its creation (which forks) and its activation, and
    again after [terminate()].  [add_job_object] of
    [InterProcessQueueAndMessenger] never fails. *)
Theorem C5_registration_fails_while_activated
    {J : Type} (job_object : J) (st : Static J) :
  (add_job_object job_object st = inl (logic_error activated_message) <->
   exists tm, _instance st = Some tm /\ is_activated tm = true) /\
  (add_job_object job_object st
   = inr (job_counter st,
          mkStatic (_instance st)
            (<[job_counter st := job_object]> (job_objects st))
            (S (job_counter st))) <->
   ~ exists tm, _instance st = Some tm /\ is_activated tm = true) /\
  (forall tm, is_activated (activate tm) = true /\
              is_activated (terminate false tm) = false) /\
  (forall default N_workers, is_activated (construct default N_workers) = default) /\
  (forall job_objects job_counter,
     MultiProcess.add_job_object job_object job_objects job_counter
     = (job_counter, <[job_counter := job_object]> job_objects, S job_counter)).
Proof.
  unfold add_job_object. split; [|split; [|split; [|split]]].
  - destruct (_instance st) as [tm|] eqn:Einst.
    + destruct (is_activated tm) eqn:Eact.
      * split; [intros _; eauto | reflexivity].
      * split; [discriminate|].
        intros (tm' & Htm & Hact). inversion Htm; subst. congruence.
    + split; [discriminate|]. intros (tm' & Htm & _). discriminate Htm.
  - destruct (_instance st) as [tm|] eqn:Einst.
    + destruct (is_activated tm) eqn:Eact.
      * split; [discriminate|]. intros Hno. exfalso. apply Hno. eauto.
      * split; [|reflexivity].
        intros _ (tm' & Htm & Hact). inversion Htm; subst. congruence.
    + split; [|reflexivity]. intros _ (tm' & Htm & _). discriminate Htm.
  - intros tm. split; [reflexivity|]. reflexivity.
  - reflexivity.
  - reflexivity.
Qed.

End RegistrationClaims.

(** ** More on the gradient kernel *)

Module DerivatorProperties.
Import Cxx CxxFacts StepFacts NumericalDerivatorMinuit2 Invariants Scenario.
Import DerivatorFacts.
Local Open Scope R_scope.

(** X1.  [Differentiate] changes nothing of the derivator but the cached
    function value, which becomes f(cx), and the cells below [fN] of the
    three vectors: tolerances, number of cycles, dimension and error level
    stay, the vectors keep their lengths, and cells from [fN] on keep their
    values. *)
Theorem Differentiate_touches_only_the_first_fN_cells {FState : Type}
    (f : list R -> FState -> R * FState) (cx : list R) (d : t) (s : FState) :
  let out := (Differentiate f cx d s).1 in
  fStepTolerance out = fStepTolerance d /\
  fGradTolerance out = fGradTolerance d /\
  fNCycles out = fNCycles d /\
  fN out = fN d /\
  Up out = Up d /\
  fVal out = (f cx s).1 /\
  length (fGrd out) = length (fGrd d) /\
  length (fG2 out) = length (fG2 d) /\
  length (fGstep out) = length (fGstep d) /\
  forall j, (fN d <= j)%nat ->
    fGrd out !! j = fGrd d !! j /\
    fG2 out !! j = fG2 d !! j /\
    fGstep out !! j = fGstep d !! j.
Proof.
  cbv zeta. unfold Differentiate.
  destruct (f cx s) as [v s0]. cbn [fst].
  destruct (fold_param_body_frame f (dfmin_of (set_fVal d v))
              (seq 0 (fN (set_fVal d v))) cx (set_fVal d v) s0) as [_ Hfr].
  destruct (fold_left _ _ _) as [[x1 d1] s1]. cbn in Hfr. cbn [fst snd].
  destruct Hfr as (H1 & H2 & H3 & H4 & H5 & H6 & H7 & H8 & H9 & Hc).
  repeat (split; [assumption|]).
  intros j Hj. apply Hc. rewrite in_seq. cbn. lia.
Qed.

(** The body of the parameter loop with no cycle to run. *)
Lemma fold_param_body_idle {FState : Type} (f : list R -> FState -> R * FState)
    (dfmin : R) (l : list nat) (x : list R) (d : t) (s : FState) :
  fNCycles d = 0%nat ->
  fold_left (param_body f dfmin) l (x, d, s) = (x, d, s).
Proof.
  intros Hn. induction l as [|i l IH]; [reflexivity|].
  cbn [fold_left]. unfold param_body at 2. rewrite Hn. cbn [cycle_loop].
  exact IH.
Qed.

(** X2.  With no cycle to run, [Differentiate] on a function of at least
    one dimension evaluates the function once, at [cx], caches the value and
    leaves the gradient, the second derivatives and the steps as they
    were. *)
Theorem Differentiate_without_cycles {FState : Type}
    (f : list R -> FState -> R * FState) (cx : list R) (d : t) (s : FState) :
  (0 < fN d)%nat -> fNCycles d = 0%nat ->
  Differentiate f cx d s = (set_fVal d (f cx s).1, (f cx s).2).
Proof.
  intros _ Hn. unfold Differentiate. destruct (f cx s) as [v s0]. cbn [fst snd].
  rewrite fold_param_body_idle by exact Hn. reflexivity.
Qed.

Lemma Differentiate_without_cycles_witness :
  Differentiate (recording const_one) [0]
    (mk 0.5 0.1 0 0 1 1 [0] [0] [1]) []
  = (mk 0.5 0.1 0 1 1 1 [0] [0] [1], [[0]]).
Proof.
  apply (Differentiate_without_cycles (recording const_one) [0]
           (mk 0.5 0.1 0 0 1 1 [0] [0] [1]) []).
  - cbn. lia.
  - reflexivity.
Defined.

(** The calls of one cycle loop: two for each cycle that ran. *)
Lemma cycle_loop_calls g n i xtf epspri dfmin step_old x d log :
  exists k calls,
    (cycle_loop (recording g) n i xtf epspri dfmin step_old x d log).2
    = log ++ calls /\
    length calls = (2 * k)%nat /\ (k <= n)%nat.
Proof.
  revert step_old x d log.
  induction n as [|n IH]; intros step_old x d log; cbn [cycle_loop].
  - exists 0%nat, []. cbn. rewrite app_nil_r. auto.
  - destruct (Rlt_dec _ _).
    { exists 0%nat, []. cbn. rewrite app_nil_r. split; [reflexivity|]. split; lia. }
    unfold recording at 1 2.
    destruct (Rlt_dec _ _).
    + eexists 1%nat, _. cbn [snd]. rewrite <- app_assoc.
      split; [reflexivity|]. cbn. split; lia.
    + edestruct IH as (k & calls & Hlog & Hlen & Hk). rewrite Hlog.
      eexists (S k), _. rewrite <- !app_assoc. split; [reflexivity|].
      rewrite !length_app, Hlen. cbn. split; lia.
Qed.

Lemma fold_param_body_calls g dfmin l x d log :
  exists k calls,
    (fold_left (param_body (recording g) dfmin) l (x, d, log)).2 = log ++ calls /\
    length calls = (2 * k)%nat /\ (k <= length l * fNCycles d)%nat.
Proof.
  revert x d log. induction l as [|i l IH]; intros x d log; cbn [fold_left].
  - exists 0%nat, []. cbn. rewrite app_nil_r. auto.
  - unfold param_body at 2.
    destruct (cycle_loop_calls g (fNCycles d) i (x !!! i) (epspri_of d i) dfmin 0
                x d log) as (k1 & c1 & H1 & L1 & K1).
    pose proof (cycle_loop_frame (recording g) (fNCycles d) i (x !!! i)
                  (epspri_of d i) dfmin 0 x d log) as Hfr.
    destruct (cycle_loop (recording g) _ _ _ _ _ _ _ _ _) as [[x1 d1] log1].
    cbn in H1, Hfr. subst log1.
    destruct (IH x1 d1 (log ++ c1)) as (k2 & c2 & H2 & L2 & K2).
    destruct Hfr as (_ & _ & Hn & _). rewrite Hn in K2.
    exists (k1 + k2)%nat, (c1 ++ c2). rewrite H2, <- app_assoc.
    split; [reflexivity|]. rewrite length_app, L1, L2. cbn [length]. split; lia.
Qed.

(** X3.  One call of [Differentiate] evaluates the function first at [cx]
    and then an even number of times, two for every cycle that runs: at
    most [2 * fN * fNCycles] further evaluations. *)
Theorem Differentiate_number_of_evaluations
    (g : list R -> R) (cx : list R) (d : t) (log : list (list R)) :
  exists k calls,
    (Differentiate (recording g) cx d log).2 = log ++ cx :: calls /\
    length calls = (2 * k)%nat /\ (k <= fN d * fNCycles d)%nat.
Proof.
  unfold Differentiate. unfold recording at 1.
  destruct (fold_param_body_calls g (dfmin_of (set_fVal d (g cx)))
              (seq 0 (fN (set_fVal d (g cx)))) cx (set_fVal d (g cx)) (log ++ [cx]))
    as (k & calls & Hlog & Hlen & Hk).
  destruct (fold_left _ _ _) as [[x1 d1] log1]. cbn in Hlog. cbn [snd].
  rewrite length_seq in Hk. cbn in Hk.
  exists k, calls. rewrite Hlog, <- app_assoc. auto.
Qed.

(** X5.  In a cycle of [Differentiate] with |f(x)| + Up >= 0, where the
    square root of [optstp] is taken of a number that is not negative, the
    step is a number that lies between its floor [max(vrysml, 8 |eps2 x_i|)] and the larger of
    that floor and ten times the size of the previous step; when ten times
    the previous step is below the floor, in particular when the previous
    step is 0, the step is the floor: the lower clamp has the last word.
    ([d], [dp] and [d0] are the derivators in the cycle, at the start of the
    cycle loop and at the start of the call.) *)
Theorem cycle_step_between_floor_and_ten_times_previous
    (d dp d0 : t) (i : nat) (x : list R) :
  0 <= Rabs (fVal d0) + Up d0 ->
  let step := cycle_step d i x (epspri_of dp i) (dfmin_of d0) in
  let stpmin := Rmax vrysml (8 * Rabs (eps2 * (x !!! i))) in
  let stpmax := 10 * Rabs (fGstep d !!! i) in
  cycle_step_double d i x (epspri_of dp i) (dfmin_of d0) = Finite step /\
  stpmin <= step /\ step <= Rmax stpmin stpmax /\
  (stpmax <= stpmin -> step = stpmin) /\
  (fGstep d !!! i = 0 -> step = stpmin).
Proof.
  intros HUp step stpmin stpmax. split.
  { apply derivator_step_double_number, (radicand_sign d dp d0 i), HUp. }
  subst step. rewrite derivator_step_spec.
  unfold Spec.clamped_step. cbv zeta. fold stpmin. fold stpmax.
  set (cand := Rmax _ (Rabs _)).
  assert (Hlow : 0 < stpmin).
  { pose proof vrysml_pos. pose proof (Rmax_l vrysml (8 * Rabs (eps2 * (x !!! i)))).
    fold stpmin in H0. lra. }
  assert (Hfloor : stpmax <= stpmin -> Rmax stpmin (Rmin cand stpmax) = stpmin).
  { intros Hle. apply Rmax_left. pose proof (Rmin_r cand stpmax). lra. }
  split; [apply Rmax_l|]. split; [|split].
  - apply Rmax_lub; [apply Rmax_l|].
    eapply Rle_trans; [apply Rmin_r | apply Rmax_r].
  - exact Hfloor.
  - intros Hz. apply Hfloor. subst stpmax. rewrite Hz, Rabs_R0. lra.
Qed.

(** On the one-parameter scenario: the step is at most ten times the
    previous step, 1. *)
Lemma cycle_step_between_floor_and_ten_times_previous_witness :
  cycle_step unit_derivator_at_1 0 [0]
    (epspri_of unit_derivator_at_1 0) (dfmin_of unit_derivator_at_1)
  <= Rmax (Rmax vrysml (8 * Rabs (eps2 * ([0] !!! 0%nat))))
          (10 * Rabs (fGstep unit_derivator_at_1 !!! 0%nat)).
Proof.
  destruct (cycle_step_between_floor_and_ten_times_previous unit_derivator_at_1
              unit_derivator_at_1 unit_derivator_at_1 0 [0])
    as (_ & _ & Hupper & _).
  - cbn. rewrite Rabs_R1. lra.
  - exact Hupper.
Defined.

(** X25.  With |f(x)| + Up < 0, an error level below -|f(x)|, which the
    constructor takes as it takes any other, [dfmin] is negative,
    [std::sqrt] gives NaN, and [std::max] and the two clamps, whose
    comparisons with NaN are false, leave it: the step of the cycle is NaN,
    for every parameter and whatever the gradient state. *)
Theorem a_negative_error_level_makes_the_step_NaN
    (d dp d0 : t) (i : nat) (x : list R) :
  Rabs (fVal d0) + Up d0 < 0 ->
  dfmin_of d0 < 0 /\
  std_sqrt (dfmin_of d0 / (Rabs (fG2 d !!! i) + epspri_of dp i)) = NaN /\
  cycle_step_double d i x (epspri_of dp i) (dfmin_of d0) = NaN.
Proof.
  intros HUp.
  destruct (radicand_sign d dp d0 i) as [_ Hneg]. specialize (Hneg HUp).
  split; [|split].
  - unfold dfmin_of. pose proof eps2_pos. nra.
  - unfold std_sqrt. destruct (Rlt_dec _ 0); [reflexivity | lra].
  - apply derivator_step_double_NaN. exact Hneg.
Qed.

(** With the cached value 1 and the error level -3. *)
Lemma a_negative_error_level_makes_the_step_NaN_witness :
  cycle_step_double negative_level_derivator 0 [0]
    (epspri_of negative_level_derivator 0) (dfmin_of negative_level_derivator)
  = NaN.
Proof.
  destruct (a_negative_error_level_makes_the_step_NaN negative_level_derivator
              negative_level_derivator negative_level_derivator 0 [0])
    as (_ & _ & Hstep).
  - cbn. rewrite Rabs_R1. lra.
  - exact Hstep.
Defined.

Section AgainstMinuit2.
Context {S1 S2 : Type}.
Variable f1 : list R -> S1 -> R * S1.
Variable f2 : list R -> S2 -> R * S2.
Variable Trafo_ExtOfInt : nat -> nat.
Variable Trafo_Parameter : nat -> MinuitParameter.t.
Hypothesis same_values : forall x s1 s2, (f1 x s1).1 = (f2 x s2).1.

Lemma cycle_loop_as_Minuit2 n i xtf epspri dfmin stepb4 x d s1 s2 :
  MinuitParameter.HasLimits (Trafo_Parameter (Trafo_ExtOfInt i)) = false ->
  (Numerical2PGradientCalculator.cycle_loop Trafo_ExtOfInt Trafo_Parameter eps2
     (fStepTolerance d) (fGradTolerance d) f2 n i xtf epspri dfmin vrysml
     (fVal d) stepb4 x (fGrd d) (fG2 d) (fGstep d) s2).1
  = loop_vectors (cycle_loop f1 n i xtf epspri dfmin stepb4 x d s1).
Proof.
  intros Hlim. revert stepb4 x d s1 s2.
  induction n as [|n IH]; intros stepb4 x d s1 s2;
    cbn [cycle_loop Numerical2PGradientCalculator.cycle_loop]; [reflexivity|].
  assert (Estep : Numerical2PGradientCalculator.cycle_step Trafo_ExtOfInt
                    Trafo_Parameter eps2 i x (fG2 d) (fGstep d) epspri dfmin vrysml
                  = cycle_step d i x epspri dfmin).
  { unfold Numerical2PGradientCalculator.cycle_step, cycle_step.
    rewrite Hlim. reflexivity. }
  rewrite Estep. set (step := cycle_step d i x epspri dfmin).
  destruct (Rlt_dec _ _); [reflexivity|].
  pose proof (same_values (<[i := xtf + step]> x) s1 s2) as E1.
  destruct (f1 _ s1) as [a1 t1]. destruct (f2 _ s2) as [a2 t2].
  cbn in E1. subst a2.
  pose proof (same_values (<[i := xtf - step]> (<[i := xtf + step]> x)) t1 t2) as E2.
  destruct (f1 _ t1) as [b1 u1]. destruct (f2 _ t2) as [b2 u2].
  cbn in E2. subst b2.
  cbn [fGrd fG2 fGstep fVal fGradTolerance set_fGstep set_fGrd set_fG2].
  destruct (Rlt_dec _ _); [reflexivity|].
  exact (IH step _ (set_fG2 (set_fGrd (set_fGstep d i step) i
                      (0.5 * (a1 - b1) / step)) i
                      ((a1 + b1 - 2 * fVal d) / step / step)) u1 u2).
Qed.

Lemma fold_param_body_as_Minuit2 dfmin l x d s1 s2 :
  (forall i, In i l ->
     MinuitParameter.HasLimits (Trafo_Parameter (Trafo_ExtOfInt i)) = false) ->
  (fold_left
     (Numerical2PGradientCalculator.param_body Trafo_ExtOfInt Trafo_Parameter
        eps2 (fNCycles d) (fStepTolerance d) (fGradTolerance d) f2
        dfmin vrysml (fVal d))
     l (x, fGrd d, fG2 d, fGstep d, s2)).1
  = loop_vectors (fold_left (param_body f1 dfmin) l (x, d, s1)).
Proof.
  revert x d s1 s2. induction l as [|i l IH]; intros x d s1 s2 Hlim;
    cbn [fold_left]; [reflexivity|].
  unfold param_body at 2. unfold Numerical2PGradientCalculator.param_body at 2.
  pose proof (cycle_loop_as_Minuit2 (fNCycles d) i (x !!! i) (epspri_of d i) dfmin 0
                x d s1 s2 (Hlim i (or_introl eq_refl))) as E.
  pose proof (cycle_loop_frame f1 (fNCycles d) i (x !!! i) (epspri_of d i) dfmin 0
                x d s1) as Hfr.
  unfold epspri_of in E at 1.
  destruct (Numerical2PGradientCalculator.cycle_loop _ _ _ _ _ _ _ _ _ _ _ _ _ _
              _ _ _ _ s2) as [[[[x2 grd2] g22] gstep2] t2].
  destruct (cycle_loop f1 _ _ _ _ _ _ _ _ s1) as [[x1 d1] t1].
  cbn in E, Hfr. inversion E; subst.
  destruct Hfr as (Et & Eg & En & Ev & _). rewrite <- Et, <- Eg, <- En, <- Ev.
  apply IH. intros j Hj. apply Hlim. right. exact Hj.
Qed.

End AgainstMinuit2.

(** X6.  Where no parameter has limits, [Differentiate] computes what
    Minuit2's [Numerical2PGradientCalculator] computes from the same
    gradient state, when Minuit2 is given the machine precision
    [std::numeric_limits<double>::epsilon()], the function value at the
    point and the derivator's tolerances, number of cycles and error level:
    the has-limits clamp is the only difference between the two loops. *)
Theorem Differentiate_is_Minuit2_without_limits {S1 S2 : Type}
    (f1 : list R -> S1 -> R * S1) (f2 : list R -> S2 -> R * S2)
    (Trafo_ExtOfInt : nat -> nat) (Trafo_Parameter : nat -> MinuitParameter.t)
    (cx : list R) (d : t) (s1 : S1) (s2 : S2) :
  (forall x t1 t2, (f1 x t1).1 = (f2 x t2).1) ->
  (forall i, (i < fN d)%nat ->
     MinuitParameter.HasLimits (Trafo_Parameter (Trafo_ExtOfInt i)) = false) ->
  fN d = length cx ->
  let out := (Differentiate f1 cx d s1).1 in
  let minuit2 :=
    (Numerical2PGradientCalculator.calculate Trafo_ExtOfInt Trafo_Parameter
       eps eps2 (Up d) (fNCycles d) (fStepTolerance d) (fGradTolerance d) f2
       cx (f1 cx s1).1
       (Numerical2PGradientCalculator.mkFG (fGrd d) (fG2 d) (fGstep d)) s2).1 in
  Numerical2PGradientCalculator.Grad minuit2 = fGrd out /\
  Numerical2PGradientCalculator.G2 minuit2 = fG2 out /\
  Numerical2PGradientCalculator.Gstep minuit2 = fGstep out.
Proof.
  intros Hsame Hlim Hlen. cbv zeta.
  unfold Differentiate, Numerical2PGradientCalculator.calculate.
  destruct (f1 cx s1) as [v t1]. cbn [fst].
  cbn [Numerical2PGradientCalculator.Grad Numerical2PGradientCalculator.G2
       Numerical2PGradientCalculator.Gstep].
  pose proof (fold_param_body_as_Minuit2 f1 f2 Trafo_ExtOfInt Trafo_Parameter
                Hsame (dfmin_of (set_fVal d v)) (seq 0 (fN d)) cx (set_fVal d v)
                t1 s2) as E.
  cbn [fNCycles fStepTolerance fGradTolerance fVal fGrd fG2 fGstep set_fVal] in E.
  change (fN (set_fVal d v)) with (fN d). rewrite <- Hlen.
  change (8 * eps2 * (Rabs v + Up d)) with (dfmin_of (set_fVal d v)).
  change (8 * eps * eps) with vrysml.
  destruct (fold_left (Numerical2PGradientCalculator.param_body _ _ _ _ _ _ _ _ _ _)
              _ _) as [[[[x2 grd2] g22] gstep2] u2].
  destruct (fold_left (param_body f1 _) _ _) as [[x1 d1] u1].
  cbn in E. cbn [fst snd].
  assert (E' : (x2, grd2, g22, gstep2) = (x1, fGrd d1, fG2 d1, fGstep d1)).
  { apply E. intros i Hi. apply Hlim. apply in_seq in Hi. lia. }
  inversion E'; subst. auto.
Qed.

Lemma Differentiate_is_Minuit2_without_limits_witness :
  Numerical2PGradientCalculator.Gstep
    (Numerical2PGradientCalculator.calculate (fun i => i)
       (fun _ => MinuitParameter.mk 1 false false false 0 0)
       eps eps2 1 1 0.5 0.1 (recording const_one) [0] 1
       (Numerical2PGradientCalculator.mkFG [0] [0] [1]) []).1
  = fGstep (Differentiate (stateless const_one) [0] unit_derivator tt).1.
Proof.
  apply (Differentiate_is_Minuit2_without_limits (stateless const_one)
           (recording const_one) (fun i => i)
           (fun _ => MinuitParameter.mk 1 false false false 0 0)
           [0] unit_derivator tt []).
  - intros x t1 t2. reflexivity.
  - intros i _. reflexivity.
  - reflexivity.
Defined.

(** What the loop of [SetInitialValues] leaves in the three vectors. *)
Lemma fold_SetInitialValues (g g2 s : list R) (l : list nat) (d : t) :
  let out :=
    fold_left
      (fun d i =>
         set_fGstep (set_fG2 (set_fGrd d i (g !!! i)) i (g2 !!! i)) i (s !!! i))
      l d in
  frame (fun j => In j l) d out /\
  forall j, In j l ->
    ((j < length (fGrd d))%nat -> fGrd out !!! j = g !!! j) /\
    ((j < length (fG2 d))%nat -> fG2 out !!! j = g2 !!! j) /\
    ((j < length (fGstep d))%nat -> fGstep out !!! j = s !!! j).
Proof.
  cbv zeta. revert d. induction l as [|i l IH]; intros d; cbn [fold_left].
  - split; [apply frame_refl | intros j []].
  - set (d1 := set_fGstep _ _ _).
    assert (Hfr1 : frame (fun j => j = i) d d1).
    { subst d1. unfold frame. cbn. rewrite !length_insert.
      repeat (split; [reflexivity|]). intros j Hj.
      rewrite !list_lookup_insert_ne by congruence. auto. }
    destruct (IH d1) as [Hfr Hcells]. split.
    + eapply frame_weaken; [|eapply frame_trans; [exact Hfr1 | exact Hfr]].
      cbn. intros j [->|Hj]; auto.
    + intros j Hj.
      destruct (in_dec Nat.eq_dec j l) as [Hin|Hnin].
      * destruct (Hcells j Hin) as (C1 & C2 & C3).
        destruct Hfr1 as (_ & _ & _ & _ & _ & _ & L1 & L2 & L3 & _).
        rewrite L1, L2, L3 in *. auto.
      * destruct Hj as [<-|Hj]; [|contradiction].
        destruct Hfr as (_ & _ & _ & _ & _ & _ & _ & _ & _ & Hc).
        destruct (Hc i Hnin) as (E1 & E2 & E3).
        rewrite (lookup_total_of_lookup _ _ _ E1), (lookup_total_of_lookup _ _ _ E2),
          (lookup_total_of_lookup _ _ _ E3).
        subst d1. cbn. repeat split; intros Hlt;
          apply list_lookup_total_insert_eq; exact Hlt.
Qed.

(** X7.  [SetInitialValues(g, g2, s)] on a derivator whose three vectors
    have [fN] cells, as the constructor makes them, replaces them by the
    first [fN] values of [g], [g2] and [s], and changes nothing else. *)
Theorem SetInitialValues_replaces_the_vectors (g g2 s : list R) (d : t) :
  length (fGrd d) = fN d -> length (fG2 d) = fN d -> length (fGstep d) = fN d ->
  (fN d <= length g)%nat -> (fN d <= length g2)%nat -> (fN d <= length s)%nat ->
  SetInitialValues g g2 s d
  = mk (fStepTolerance d) (fGradTolerance d) (fNCycles d) (fVal d) (fN d) (Up d)
       (take (fN d) g) (take (fN d) g2) (take (fN d) s).
Proof.
  intros L1 L2 L3 G1 G2 G3. unfold SetInitialValues.
  destruct (fold_SetInitialValues g g2 s (seq 0 (fN d)) d) as [Hfr Hcells].
  set (out := fold_left _ _ _) in *. clearbody out.
  destruct Hfr as (E1 & E2 & E3 & E4 & E5 & E6 & E7 & E8 & E9 & _).
  assert (Hvec : forall (v w : list R) (src : list R),
            length v = fN d -> (fN d <= length src)%nat ->
            (forall j, (j < fN d)%nat -> v !!! j = src !!! j) ->
            v = take (fN d) src).
  { intros v w src Lv Ls Hv. apply list_eq. intros j.
    destruct (decide (j < fN d)%nat) as [Hj|Hj].
    - rewrite lookup_take_lt by exact Hj.
      rewrite (list_lookup_lookup_total_lt v j) by lia.
      rewrite (list_lookup_lookup_total_lt src j) by lia.
      f_equal. apply Hv. exact Hj.
    - rewrite lookup_take_ge by lia. apply lookup_ge_None. lia. }
  destruct out as [a1 a2 a3 a4 a5 a6 v1 v2 v3]. cbn in *. subst.
  f_equal.
  - apply (Hvec v1 v1 g); [lia | exact G1|].
    intros j Hj. apply Hcells; [apply in_seq; lia | lia].
  - apply (Hvec v2 v2 g2); [lia | exact G2|].
    intros j Hj. apply Hcells; [apply in_seq; lia | lia].
  - apply (Hvec v3 v3 s); [lia | exact G3|].
    intros j Hj. apply Hcells; [apply in_seq; lia | lia].
Qed.

Lemma SetInitialValues_replaces_the_vectors_witness :
  SetInitialValues [1; 2; 3] [4; 5; 6] [7; 8; 9] (construct 2 0.5 0.1 2 1)
  = mk 0.5 0.1 2 0 2 1 [1; 2] [4; 5] [7; 8].
Proof.
  apply (SetInitialValues_replaces_the_vectors [1; 2; 3] [4; 5; 6] [7; 8; 9]
           (construct 2 0.5 0.1 2 1)); cbn; lia.
Defined.

(** X8.  For a parameter without limits whose internal and external values
    coincide, [SetInitialGradient] seeds the state from the parameter's
    error [werr] alone: with gsmin = 8 eps2 (|x_i| + eps2) and
    dirin = max(|werr|, gsmin), it sets g2_i = 2 Up / dirin^2,
    grad_i = 2 Up / dirin and gstep_i = max(gsmin, 0.1 dirin), a strictly
    positive step even when the error is 0. *)
Theorem SetInitialGradient_of_an_unlimited_parameter
    (Trafo_ExtOfInt : nat -> nat) (Trafo_Parameter : nat -> MinuitParameter.t)
    (Trafo_Int2ext Trafo_Ext2int : nat -> R -> R) (Eps2 ErrorDef : R)
    (par_Vec : list R) (n : nat) (gr gr2 gst : list R) (i : nat) :
  0 < Eps2 -> (i < n)%nat ->
  length gr = n -> length gr2 = n -> length gst = n ->
  MinuitParameter.HasLimits (Trafo_Parameter (Trafo_ExtOfInt i)) = false ->
  (forall v, Trafo_Int2ext i v = v) ->
  (forall v, Trafo_Ext2int (Trafo_ExtOfInt i) v = v) ->
  let out := SetInitialGradient Trafo_ExtOfInt Trafo_Parameter Trafo_Int2ext
               Trafo_Ext2int Eps2 ErrorDef par_Vec n gr gr2 gst in
  let werr := MinuitParameter.Error (Trafo_Parameter (Trafo_ExtOfInt i)) in
  let gsmin := 8 * Eps2 * (Rabs (par_Vec !!! i) + Eps2) in
  let dirin := Rmax (Rabs werr) gsmin in
  out.1.1 !!! i = 2 * ErrorDef / dirin /\
  out.1.2 !!! i = 2 * ErrorDef / dirin ^ 2 /\
  out.2 !!! i = Rmax gsmin (0.1 * dirin) /\
  0 < out.2 !!! i.
Proof.
  intros He Hi Lgr Lgr2 Lgst Hlim Hint Hext out werr gsmin dirin.
  destruct (InitialGradientFacts.fold_initial_gradient Trafo_ExtOfInt
              Trafo_Parameter Trafo_Int2ext Trafo_Ext2int Eps2 ErrorDef par_Vec
              (seq 0 n) gr gr2 gst) as (_ & _ & _ & Hcells).
  destruct (Hcells i) as [Hin _].
  destruct Hin as (H1 & H2 & H3); [apply in_seq; lia|].
  specialize (H1 ltac:(lia)). specialize (H2 ltac:(lia)). specialize (H3 ltac:(lia)).
  destruct (InitialGradientFacts.initial_gradient_at_spec Trafo_ExtOfInt
              Trafo_Parameter Trafo_Int2ext Trafo_Ext2int Eps2 ErrorDef par_Vec
              i He) as (Hgs & Hdir & S2 & S3 & S1).
  assert (Evplu : vplu_of Trafo_ExtOfInt Trafo_Parameter Trafo_Int2ext
                    Trafo_Ext2int par_Vec i = werr).
  { unfold vplu_of. cbv zeta. rewrite Hlim, Hint, Hext. subst werr. ring. }
  assert (Evmin : vmin_of Trafo_ExtOfInt Trafo_Parameter Trafo_Int2ext
                    Trafo_Ext2int par_Vec i = - werr).
  { unfold vmin_of. cbv zeta. rewrite Hlim, Hint, Hext. subst werr. ring. }
  rewrite Evplu, Evmin, Rabs_Ropp, Hlim in *.
  replace ((Rabs werr + Rabs werr) / 2) with (Rabs werr) in * by lra.
  fold gsmin in Hgs, Hdir, S1, S2, S3. fold dirin in Hdir, S1, S2, S3.
  subst out. unfold SetInitialGradient. rewrite H1, H2, H3, S1, S2, S3.
  split; [field; lra|]. split; [reflexivity|]. split; [reflexivity|].
  eapply Rlt_le_trans; [exact Hgs | apply Rmax_l].
Qed.

(** One parameter at 0 with error 1, eps2 = 1 and Up = 1: gsmin = 8. *)
Lemma SetInitialGradient_of_an_unlimited_parameter_witness :
  0 < (SetInitialGradient (fun i => i)
         (fun _ => MinuitParameter.mk 1 false false false 0 0)
         (fun _ v => v) (fun _ v => v) 1 1 [0] 1 [0] [0] [0]).2 !!! 0%nat.
Proof.
  apply (SetInitialGradient_of_an_unlimited_parameter (fun i => i)
           (fun _ => MinuitParameter.mk 1 false false false 0 0)
           (fun _ v => v) (fun _ v => v) 1 1 [0] 1 [0] [0] [0] 0);
    try reflexivity; try lra; try lia.
Defined.

End DerivatorProperties.

(** ** More on the queue process *)

Module QueueProperties.
Import MultiProcess QueueInvariants ResultInvariants QueueFacts ResultFacts.
Import QueueRuns SmokeTest SmokeFacts.

Lemma handle_enqueues (tasks : list (nat * nat)) (q : IPQM) :
  handle_master_messages (map (fun jt => M2Q_enqueue jt.1 jt.2) tasks) q
  = (true, mkIPQM (queue q ++ tasks) (length tasks + N_tasks q) (results q), []).
Proof.
  revert q. induction tasks as [|[j t] tasks IH]; intros q.
  - cbn. rewrite app_nil_r. destruct q; reflexivity.
  - cbn [map handle_master_messages process_queue_pipe_message to_queue fst snd].
    cbn [queue N_tasks results]. rewrite IH. unfold to_queue.
    cbn [queue N_tasks results]. rewrite <- app_assoc. cbn [app length].
    replace (length tasks + S (N_tasks q)) with (S (length tasks) + N_tasks q)
      by lia.
    destruct tasks; reflexivity.
Qed.

Lemma handle_dequeues (tasks rest : list (nat * nat)) (n : nat) (res : gmap (nat * nat) R) :
  handle_worker_messages (replicate (length tasks) W2Q_dequeue)
    (mkIPQM (tasks ++ rest) n res)
  = Some (mkIPQM rest n res,
          map (fun jt => Q2W_dequeue_accepted jt.1 jt.2) tasks).
Proof.
  induction tasks as [|jt tasks IH]; [reflexivity|].
  cbn [length replicate handle_worker_messages process_worker_pipe_message
       from_queue queue app N_tasks results mbind option_bind].
  rewrite IH. reflexivity.
Qed.

(** X9.  The queue is first in, first out.  After the queue process has
    read the enqueue messages of a list of tasks, as many dequeue requests
    as there are tasks in its queue are answered with those tasks in the
    order in which they were enqueued, behind the tasks that were already
    there; this leaves the queue empty, so that the next dequeue request is
    rejected.  The task counter has grown by the number of tasks and is not
    lowered by dequeuing. *)
Theorem queue_is_first_in_first_out (tasks : list (nat * nat)) (q : IPQM) :
  let after_enqueue :=
    (handle_master_messages (map (fun jt => M2Q_enqueue jt.1 jt.2) tasks) q).1.2 in
  let drained := mkIPQM [] (length tasks + N_tasks q) (results q) in
  queue after_enqueue = queue q ++ tasks /\
  handle_worker_messages
    (replicate (length (queue q ++ tasks)) W2Q_dequeue) after_enqueue
  = Some (drained,
          map (fun jt => Q2W_dequeue_accepted jt.1 jt.2) (queue q ++ tasks)) /\
  process_worker_pipe_message W2Q_dequeue drained
  = Some (drained, [Q2W_dequeue_rejected]).
Proof.
  cbv zeta. rewrite handle_enqueues. cbn [fst snd queue].
  split; [reflexivity|]. split; [|reflexivity].
  rewrite <- (app_nil_r (queue q ++ tasks)) at 2.
  apply handle_dequeues.
Qed.

(** Reading a stream of results whose keys are all different. *)
Lemma foldl_insert_lookup (items : list (nat * nat * R)) (m : gmap (nat * nat) R)
    (jt : nat * nat) :
  NoDup items.*1 ->
  foldl (fun res item => <[item.1 := item.2]> res) m items !! jt
  = match list_find (fun item => item.1 = jt) items with
    | Some (_, item) => Some item.2
    | None => m !! jt
    end.
Proof.
  revert m. induction items as [|[k v] items IH]; intros m Hnd; [reflexivity|].
  cbn in Hnd. apply list.NoDup_cons in Hnd as [Hfresh Hnd].
  cbn [foldl list_find]. rewrite (IH _ Hnd). cbn [fst snd].
  destruct (decide (k = jt)) as [->|Hne].
  - destruct (list_find _ items) as [[n item]|] eqn:Ef.
    + exfalso. apply list_find_Some in Ef as (Hl & Hk & _).
      apply Hfresh. apply list_elem_of_fmap. exists item.
      split; [symmetry; exact Hk | eapply list_elem_of_lookup_2; exact Hl].
    + cbn. apply lookup_insert_eq.
  - destruct (list_find _ items) as [[n item]|]; cbn; [reflexivity|].
    apply lookup_insert_ne. exact Hne.
Qed.

(** X10.  What the master holds after an accepted retrieve.  When the
    queue process accepts a retrieve, the result map of the master after
    reading the stream is the result map the queue process held, laid over
    the results the master had before: for every task the master now has
    the result of the queue process if there is one, else its own earlier
    one.  The master's [retrieve] never removes a result. *)
Theorem retrieve_copies_the_results_to_the_master (q m : IPQM) :
  queue q = [] -> size (results q) = N_tasks q ->
  exists items,
    process_queue_pipe_message M2Q_retrieve q
    = (true, mkIPQM [] 0 ∅, [Q2M_retrieve_accepted (N_tasks q) items]) /\
    results (read_results (N_tasks q) items m) = results q ∪ results m /\
    N_tasks (read_results (N_tasks q) items m) = N_tasks q /\
    queue (read_results (N_tasks q) items m) = queue m.
Proof.
  intros Hq Hsize. exists (items_in_order (results q)).
  split.
  { cbn [process_queue_pipe_message].
    rewrite (proj2 (retrieve_condition q)) by (split; assumption).
    rewrite Hq. reflexivity. }
  split; [|split; reflexivity].
  unfold read_results. cbn [results].
  rewrite take_ge by (rewrite items_in_order_length; lia).
  apply map_eq. intros jt.
  rewrite foldl_insert_lookup by apply items_in_order_NoDup_keys.
  rewrite lookup_union.
  destruct (list_find _ _) as [[n item]|] eqn:Ef.
  - apply list_find_Some in Ef as (Hl & Hk & _).
    apply list_elem_of_lookup_2 in Hl. destruct item as [k v]. cbn in Hk. subst k.
    apply elem_of_items_in_order in Hl. rewrite Hl. cbn.
    destruct (results m !! jt); reflexivity.
  - destruct (results q !! jt) as [r|] eqn:Er.
    + exfalso. apply elem_of_items_in_order in Er.
      apply list_elem_of_lookup_1 in Er as [n Hn].
      eapply list_find_None in Ef. rewrite Forall_forall in Ef.
      apply (Ef (jt, r)); [|reflexivity].
      apply list_elem_of_In. eapply list_elem_of_lookup_2. exact Hn.
    + cbn. destruct (results m !! jt); reflexivity.
Qed.

Lemma retrieve_copies_the_results_to_the_master_witness :
  exists items,
    process_queue_pipe_message M2Q_retrieve (mkIPQM [] 1 {[(0, 0) := 3%R]})
    = (true, mkIPQM [] 0 ∅, [Q2M_retrieve_accepted 1 items]) /\
    results (read_results 1 items (mkIPQM [] 0 {[(0, 1) := 4%R]}))
    = {[(0, 0) := 3%R]} ∪ {[(0, 1) := 4%R]}.
Proof.
  destruct (retrieve_copies_the_results_to_the_master
              (mkIPQM [] 1 {[(0, 0) := 3%R]}) (mkIPQM [] 0 {[(0, 1) := 4%R]}))
    as (items & Hmsg & Hres & _).
  - reflexivity.
  - vm_compute. reflexivity.
  - exists items. split; [exact Hmsg | exact Hres].
Defined.

(** X11.  [gather_worker_results] copies, for every task, the result that
    the retrieved map holds for this job and this task; results of other
    jobs are skipped, and a task without a result keeps what
    [ipqm_results] held for it before. *)
Theorem gather_worker_results_takes_own_results
    (job_id : nat) (res : gmap (nat * nat) R) (ipqm_results : gmap nat R)
    (task : nat) :
  gather_worker_results job_id res ipqm_results !! task
  = match res !! (job_id, task) with
    | Some r => Some r
    | None => ipqm_results !! task
    end.
Proof.
  unfold gather_worker_results. destruct (res !! (job_id, task)) as [r|] eqn:E.
  - apply gather_reads; [apply items_in_order_NoDup_keys|].
    apply elem_of_items_in_order. exact E.
  - apply gather_skips.
    intros Hin. apply list_elem_of_fmap in Hin as ([jt r] & Hjt & Hin).
    cbn in Hjt. subst jt. apply elem_of_items_in_order in Hin. congruence.
Qed.

Lemma step_keeps_the_workers {J : Type} `{Job J} (mv : Move) (s s' : System J) ev :
  step mv s = Some (s', ev) -> length (workers s') = length (workers s).
Proof.
  destruct mv as [| |k|k]; cbn [step]; intros Hstep.
  - destruct (master_step s) as [s1|] eqn:E; [|discriminate].
    cbn in Hstep. inversion Hstep; subst s1 ev. clear Hstep.
    unfold master_step in E.
    destruct (reads_handshake (master s)).
    + destruct (queue_to_master s) as [|[| |n items] rest]; inversion E; reflexivity.
    + destruct (calls (master s)) as [|[j t| |] rest]; inversion E; reflexivity.
  - unfold queue_master_step in Hstep.
    destruct (queue_loop_running s); [|discriminate].
    destruct (master_to_queue s) as [|m rest]; [discriminate|].
    destruct (process_queue_pipe_message m (queue_process s)) as [[c q] out].
    inversion Hstep; subst. cbn [workers].
    destruct (c || _); [reflexivity|]. unfold terminate_workers. apply length_map.
  - unfold queue_worker_step in Hstep.
    destruct (queue_loop_running s); [|discriminate].
    destruct (workers s !! k) as [w|]; [|discriminate].
    destruct (to_queue_pipe w) as [|m rest]; [discriminate|].
    destruct (process_worker_pipe_message m (queue_process s)) as [[q out]|];
      inversion Hstep; subst; cbn [workers]; apply length_insert.
  - destruct (workers s !! k) as [w|]; [|discriminate]. cbn in Hstep.
    destruct (worker_step w) as [w'|]; [|discriminate]. cbn in Hstep.
    inversion Hstep; subst. cbn [workers]. apply length_insert.
Qed.

(** X12.  While the master's program does not terminate the queue and
    enqueues tasks of registered jobs only, nothing goes wrong in any
    process, whatever the order of their turns: the queue loop keeps
    running, all [N_workers] workers stay in work mode inside their loop
    (none has left it and none has thrown), every worker keeps a job object
    for exactly the registered job ids, and no worker sends
    [W2Q::terminate], the one message on which the queue process throws. *)
Theorem no_process_fails_before_terminate {J : Type} `{Job J}
    (jobs : gmap nat J) (N_workers : nat) (program : list Call)
    (s : System J) (h : list Event) :
  program_ok jobs program ->
  reachable (fork N_workers jobs program) s h ->
  queue_loop_running s = true /\
  length (workers s) = N_workers /\
  forall k w, workers s !! k = Some w ->
    work_mode w = true /\ phase w <> Exited /\ phase w <> Threw /\
    dom (job_objects w) = dom jobs /\
    (W2Q_terminate ∉ to_queue_pipe w) /\
    forall message q, head (to_queue_pipe w) = Some message ->
                      is_Some (process_worker_pipe_message message q).
Proof.
  intros Hp Hr.
  pose proof (invariant_reachable jobs N_workers program s h Hp Hr) as Hinv.
  split; [exact (inv_running _ _ _ Hinv)|]. split.
  { clear Hinv. induction Hr as [|s h mv s' ev Hr IH Hstep].
    - apply length_replicate.
    - rewrite (step_keeps_the_workers mv s s' ev Hstep). exact IH. }
  intros k w Hk.
  destruct (inv_workers _ _ _ Hinv k w Hk) as (Hmode & Hdom & Hphase).
  assert (Hnt : W2Q_terminate ∉ to_queue_pipe w).
  { intros Hin. destruct (phase w); try contradiction.
    - destruct Hphase as [Hto _]. rewrite Hto in Hin. inversion Hin.
    - destruct Hphase as [[Hto _]|[[Hto _]|(Hto & _)]]; rewrite Hto in Hin.
      + apply list_elem_of_singleton in Hin. discriminate Hin.
      + inversion Hin.
      + inversion Hin.
    - destruct Hphase as [(j & t & r & Hto & _)|[Hto _]]; rewrite Hto in Hin.
      + apply list_elem_of_singleton in Hin. discriminate Hin.
      + inversion Hin. }
  split; [exact Hmode|].
  split; [intros E; rewrite E in Hphase; exact Hphase|].
  split; [intros E; rewrite E in Hphase; exact Hphase|].
  split; [exact Hdom|]. split; [exact Hnt|].
  intros message q Hhead.
  destruct (to_queue_pipe w) as [|m rest]; [discriminate|].
  cbn in Hhead. inversion Hhead; subst m.
  destruct message as [| |j t r].
  - exfalso. apply Hnt. left.
  - cbn. destruct (from_queue q) as [[jt|] q']; eauto.
  - cbn. eauto.
Qed.

Lemma no_process_fails_before_terminate_witness :
  exists s h,
    run (schedule 2) (x_sq_plus_b_parallel 2) [] = Some (s, h) /\
    queue_loop_running s = true /\ length (workers s) = 2.
Proof.
  destruct (finishes_run 2 finishes_2) as (s & h & Hrun & _).
  exists s, h. split; [exact Hrun|].
  destruct (no_process_fails_before_terminate _ 2 _ s h smoke_program_ok)
    as (Hloop & Hlen & _).
  - exact (run_reachable _ _ _ _ _ _ (reachable_init _) Hrun).
  - split; [exact Hloop | exact Hlen].
Defined.

(** X13.  The queue process never holds more results, queued tasks and
    tasks in flight at the workers than its counter [N_tasks] says.  So
    when it holds as many results as it has counted tasks, its queue is
    empty and no task is in flight: of the two tests of a retrieve, the
    count decides. *)
Theorem results_complete_means_nothing_pending {J : Type} `{Job J}
    (jobs : gmap nat J) (N_workers : nat) (program : list Call)
    (s : System J) (h : list Event) :
  program_ok jobs program ->
  reachable (fork N_workers jobs program) s h ->
  (size (results (queue_process s)) + length (queue (queue_process s))
   + size (all_in_flight (workers s)) <= N_tasks (queue_process s)) /\
  (size (results (queue_process s)) = N_tasks (queue_process s) ->
   queue (queue_process s) = [] /\ all_in_flight (workers s) = ∅).
Proof.
  intros Hp Hr.
  pose proof (invariant_reachable jobs N_workers program s h Hp Hr) as Hinv.
  pose proof (inv_count _ _ _ Hinv) as Hcount.
  split; [exact Hcount|]. intros Hsize. split.
  - apply nil_length_inv. lia.
  - apply gmultiset_size_empty_inv. lia.
Qed.

Lemma results_complete_means_nothing_pending_witness :
  exists s h,
    run (schedule 3) (x_sq_plus_b_parallel 3) [] = Some (s, h) /\
    size (results (queue_process s)) + length (queue (queue_process s))
    + size (all_in_flight (workers s)) <= N_tasks (queue_process s).
Proof.
  destruct (finishes_run 3 finishes_3) as (s & h & Hrun & _).
  exists s, h. split; [exact Hrun|].
  destruct (results_complete_means_nothing_pending _ 3 _ s h smoke_program_ok)
    as [Hcount _].
  - exact (run_reachable _ _ _ _ _ _ (reachable_init _) Hrun).
  - exact Hcount.
Defined.

(** The serial loop fills the result cell by cell. *)
Lemma evaluate_serial_prefix (v : xSquaredPlusBVector) (n : nat) :
  (n <= length (result v))%nat ->
  fold_left (fun v ix =>
               mkVector (_b v) (x v)
                 (<[ix := (x v !!! ix) ^ 2 + _b v]> (result v))%R)
            (seq 0 n) v
  = mkVector (_b v) (x v)
      (map (fun ix => (x v !!! ix) ^ 2 + _b v)%R (seq 0 n) ++ drop n (result v)).
Proof.
  induction n as [|n IH]; intros Hn.
  - cbn. rewrite drop_0. destruct v; reflexivity.
  - rewrite seq_S, fold_left_app, IH by lia. cbn [fold_left Nat.add _b x result].
    f_equal. rewrite map_app. cbn [map].
    rewrite <- app_assoc. cbn [app].
    assert (Hlen : length (map (fun ix => (x v !!! ix) ^ 2 + _b v)%R (seq 0 n)) = n)
      by (rewrite length_map, length_seq; reflexivity).
    rewrite insert_app_r_alt by (rewrite Hlen; lia).
    rewrite Hlen, Nat.sub_diag. f_equal.
    destruct (lookup_lt_is_Some_2 (result v) n ltac:(lia)) as [r Hr].
    rewrite (drop_S _ _ _ Hr). reflexivity.
Qed.

Lemma evaluate_serial_result (v : xSquaredPlusBVector) :
  length (result v) = length (x v) ->
  result (evaluate_serial v)
  = map (fun ix => (x v !!! ix) ^ 2 + _b v)%R (seq 0 (length (x v))).
Proof.
  intros Hlen. unfold evaluate_serial.
  rewrite evaluate_serial_prefix by lia. cbn [result].
  rewrite <- Hlen, drop_all, app_nil_r. reflexivity.
Qed.

Lemma tasks_of_evaluate_calls (job_id n : nat) :
  tasks_of (evaluate_calls job_id n) = map (pair job_id) (seq 0 n).
Proof.
  unfold evaluate_calls. rewrite tasks_of_app.
  change (tasks_of [call_retrieve]) with (@nil (nat * nat)). rewrite app_nil_r.
  induction (seq 0 n) as [|t l IH]; [reflexivity|].
  unfold tasks_of in *. cbn [map flat_map app]. f_equal. exact IH.
Qed.

(** The program of a master that evaluates the given jobs one after
    another. *)
Lemma tasks_of_evaluations (todo : list (nat * xSquaredPlusBVector)) jt :
  jt ∈ tasks_of (flat_map (fun p => evaluate_calls p.1 (length (x p.2))) todo)
  <-> exists job, (jt.1, job) ∈ todo /\ (jt.2 < length (x job))%nat.
Proof.
  induction todo as [|[j job] todo IH].
  - cbn. split; [inversion 1 | intros (job & Hin & _); inversion Hin].
  - cbn [flat_map fst snd]. rewrite tasks_of_app, elem_of_app, IH.
    rewrite tasks_of_evaluate_calls, list_elem_of_fmap. split.
    + intros [(t & -> & Ht)|(job' & Hin & Hlt)].
      * exists job. apply elem_of_seq in Ht. cbn. split; [left | lia].
      * exists job'. split; [right; exact Hin | exact Hlt].
    + intros (job' & Hin & Hlt). apply elem_of_cons in Hin as [Heq|Hin].
      * left. inversion Heq; subst. exists jt.2.
        split; [destruct jt; reflexivity | apply elem_of_seq; lia].
      * right. exists job'. auto.
Qed.

(** X15.  The parallel vectors return what the serial ones return.  For
    every number of workers, every registry of jobs and every list of
    registered [xSquaredPlusBVector] jobs (of any size and any [b]) that the
    master evaluates one after another, and whatever the order in which
    master, queue process and workers take their turns: once the master has
    made its last call, [get_result] of each of these jobs is the result of
    the serial evaluation of that job.  Results of different jobs do not get
    mixed up. *)
Theorem parallel_results_are_the_serial_results
    (jobs : gmap nat xSquaredPlusBVector)
    (todo : list (nat * xSquaredPlusBVector)) (N_workers : nat)
    (s : System xSquaredPlusBVector) (h : list Event) :
  todo <> [] ->
  (forall job_id job, (job_id, job) ∈ todo ->
     jobs !! job_id = Some job /\ length (result job) = length (x job)) ->
  reachable
    (fork N_workers jobs
       (flat_map (fun p => evaluate_calls p.1 (length (x p.2))) todo)) s h ->
  calls (master s) = [] ->
  forall job_id job, (job_id, job) ∈ todo ->
    get_result_parallel job_id (length (x job)) (master s)
    = result (evaluate_serial job).
Proof.
  intros Hne Hreg Hr Hdone job_id job Hin.
  set (program := flat_map _ todo) in *.
  assert (Hvalid : forall jt, jt ∈ tasks_of program -> valid_task jobs jt).
  { intros jt Hjt. apply tasks_of_evaluations in Hjt as (job' & Hin' & Hlt).
    destruct (Hreg _ _ Hin') as [Hj Hl]. exists job'. auto. }
  assert (Hlast : list.last program = Some call_retrieve).
  { subst program. destruct (exists_last Hne) as (front & [j' job'] & ->).
    rewrite flat_map_app. cbn. rewrite app_nil_r. unfold evaluate_calls.
    rewrite app_assoc. apply last_snoc. }
  assert (Hok : program_ok jobs program).
  { split.
    - subst program. clear. induction todo as [|[j' job'] todo IH].
      + inversion 1.
      + cbn [flat_map]. rewrite elem_of_app. intros [Hin|Hin]; [|exact (IH Hin)].
        unfold evaluate_calls in Hin. apply elem_of_app in Hin as [Hin|Hin].
        * apply list_elem_of_fmap in Hin as (t & Ht & _). discriminate Ht.
        * apply list_elem_of_singleton in Hin. discriminate Hin.
    - intros j t Hjt.
      assert (Htask : (j, t) ∈ tasks_of program).
      { clear -Hjt. induction program as [|c program IH]; [inversion Hjt|].
        apply elem_of_cons in Hjt as [<-|Hjt]; cbn.
        - left.
        - apply elem_of_app. right. exact (IH Hjt). }
      destruct (Hvalid _ Htask) as (job' & Hj & _). cbn in Hj. eauto. }
  rewrite get_result_parallel_lookup.
  destruct (Hreg _ _ Hin) as [Hj Hl].
  rewrite (evaluate_serial_result job Hl).
  apply map_ext_in. intros t Ht. apply in_seq in Ht.
  rewrite (master_results_done jobs program Hvalid Hlast N_workers s h Hok Hr
             Hdone (job_id, t)).
  - cbn. unfold expected. cbn [fst snd]. rewrite Hj. reflexivity.
  - apply tasks_of_evaluations. exists job. cbn. split; [exact Hin | lia].
Qed.

Lemma parallel_results_are_the_serial_results_witness :
  exists s h,
    run (schedule 1) (x_sq_plus_b_parallel 1) [] = Some (s, h) /\
    get_result_parallel job_id (length (x x_sq_plus_b)) (master s)
    = result (evaluate_serial x_sq_plus_b).
Proof.
  destruct (finishes_run 1 finishes_1) as (s & h & Hrun & Hdone).
  exists s, h. split; [exact Hrun|].
  apply (parallel_results_are_the_serial_results registration.1.2
           [(job_id, x_sq_plus_b)] 1 s h).
  - discriminate.
  - intros j job Hin. apply list_elem_of_singleton in Hin. inversion Hin; subst.
    split; [exact registered_lookup | reflexivity].
  - exact (run_reachable _ _ _ _ _ _ (reachable_init _) Hrun).
  - exact Hdone.
  - left.
Defined.

End QueueProperties.

(** ** Progress of the queue system *)

Module ProgressProperties.
Import MultiProcess QueueInvariants QueueFacts SmokeTest SmokeFacts.

Section WithJob.
Context {J : Type} `{Job J}.

Lemma run_app (a b : list Move) (s : System J) (h : list Event) :
  run (a ++ b) s h
  = match run a s h with
    | Some (s', h') => run b s' h'
    | None => None
    end.
Proof.
  revert s h. induction a as [|mv a IH]; intros s h; [reflexivity|].
  cbn [app run]. destruct (step mv s) as [[s1 ev]|]; [apply IH | reflexivity].
Qed.

(** The master sends its enqueue messages. *)
Lemma master_enqueues (job_id : nat) (l : list nat) (rest : list Call)
    (m : IPQM) (m2q : list M2Q) (q2m : list Q2M) (q : IPQM) (run_flag : bool)
    (ws : list (Worker J)) (h : list Event) :
  run (replicate (length l) master_moves)
    (mkSystem (mkMaster m (map (call_to_queue job_id) l ++ rest) false)
       m2q q2m q run_flag ws) h
  = Some (mkSystem (mkMaster m rest false)
            (m2q ++ map (M2Q_enqueue job_id) l) q2m q run_flag ws, h).
Proof.
  revert m2q. induction l as [|t l IH]; intros m2q.
  - cbn. rewrite app_nil_r. reflexivity.
  - cbn [length replicate run step map app master_step master reads_handshake
         calls master_ipqm master_to_queue queue_to_master queue_process
         queue_loop_running workers mbind option_bind].
    rewrite app_nil_r, IH, <- app_assoc. reflexivity.
Qed.

(** The queue process reads them. *)
Lemma queue_reads_enqueues (job_id : nat) (l : list nat) (rest : list M2Q)
    (mas : Master) (q2m : list Q2M) (q : IPQM) (ws : list (Worker J))
    (h : list Event) :
  run (replicate (length l) queue_reads_master)
    (mkSystem mas (map (M2Q_enqueue job_id) l ++ rest) q2m q true ws) h
  = Some (mkSystem mas rest q2m
            (mkIPQM (queue q ++ map (pair job_id) l) (length l + N_tasks q)
               (results q))
            true ws,
          h ++ map (fun t => enqueued (job_id, t)) l).
Proof.
  revert q h. induction l as [|t l IH]; intros q h.
  - cbn. rewrite !app_nil_r. destruct q; reflexivity.
  - cbn [length replicate run step map app queue_master_step master
         master_to_queue queue_to_master queue_process queue_loop_running
         workers process_queue_pipe_message to_queue queue N_tasks results].
    rewrite app_nil_r, IH. cbn [queue N_tasks results map].
    rewrite <- !app_assoc. cbn [app].
    replace (length l + S (N_tasks q)) with (S (length l + N_tasks q)) by lia.
    reflexivity.
Qed.

(** Worker 0 takes the task at the head of the queue and its result is
    recorded. *)
Lemma worker_does_one_task (job_id t : nat) (job : J) (objs : gmap nat J)
    (mas : Master) (m2q : list M2Q) (q2m : list Q2M) (tasks : list (nat * nat))
    (n : nat) (res : gmap (nat * nat) R) (ws : list (Worker J))
    (h : list Event) :
  objs !! job_id = Some job ->
  exists objs' r,
    is_Some (objs' !! job_id) /\
    run (one_task 0)
      (mkSystem mas m2q q2m (mkIPQM ((job_id, t) :: tasks) n res) true
         (mkWorker true AtLoopTop objs [] [] :: ws)) h
    = Some (mkSystem mas m2q q2m
              (mkIPQM tasks n (<[(job_id, t) := r]> res)) true
              (mkWorker true AtLoopTop objs' [] [] :: ws),
            h ++ [delivered 0 (job_id, t); recorded 0 (job_id, t) r]).
Proof.
  intros Hjob.
  exists (<[job_id := evaluate_task t job]> objs),
         (get_task_result t (evaluate_task t job)).
  split; [rewrite lookup_insert_eq; eauto|].
  unfold one_task.
  cbn [run step workers lookup list_lookup mbind option_bind worker_step phase
       work_mode job_objects to_queue_pipe from_queue_pipe app master
       master_to_queue queue_to_master queue_process queue_loop_running
       queue_worker_step process_worker_pipe_message from_queue queue N_tasks
       results insert list_insert fst snd].
  rewrite Hjob.
  cbn [run step workers lookup list_lookup mbind option_bind worker_step phase
       work_mode job_objects to_queue_pipe from_queue_pipe app master
       master_to_queue queue_to_master queue_process queue_loop_running
       queue_worker_step process_worker_pipe_message from_queue queue N_tasks
       results insert list_insert fst snd].
  rewrite !app_nil_r, <- !app_assoc. reflexivity.
Qed.

Lemma worker_does_all_tasks (job_id : nat) (l : list nat) :
  forall (job : J) (objs : gmap nat J) (mas : Master) (m2q : list M2Q)
         (q2m : list Q2M) (n : nat) (res : gmap (nat * nat) R)
         (ws : list (Worker J)) (h : list Event),
  objs !! job_id = Some job ->
  exists objs' res' h',
    dom res' = dom res ∪ list_to_set (map (pair job_id) l) /\
    run (concat (replicate (length l) (one_task 0)))
      (mkSystem mas m2q q2m (mkIPQM (map (pair job_id) l) n res) true
         (mkWorker true AtLoopTop objs [] [] :: ws)) h
    = Some (mkSystem mas m2q q2m (mkIPQM [] n res') true
              (mkWorker true AtLoopTop objs' [] [] :: ws), h').
Proof.
  induction l as [|t l IH]; intros job objs mas m2q q2m n res ws h Hjob.
  - exists objs, res, h. split; [|reflexivity]. cbn.
    symmetry. apply (right_id_L ∅ (∪)).
  - cbn [length replicate concat map]. 
    destruct (worker_does_one_task job_id t job objs mas m2q q2m
                (map (pair job_id) l) n res ws h Hjob)
      as (objs1 & r & [job1 Hjob1] & Hrun1).
    destruct (IH job1 objs1 mas m2q q2m n (<[(job_id, t) := r]> res) ws
                (h ++ [delivered 0 (job_id, t); recorded 0 (job_id, t) r]) Hjob1)
      as (objs' & res' & h' & Hdom & Hrun).
    exists objs', res', h'. split.
    + rewrite Hdom, dom_insert_L. cbn [map list_to_set].
      rewrite (comm_L (∪) {[(job_id, t)]} (dom res)), (assoc_L (∪)). reflexivity.
    + rewrite run_app, Hrun1. exact Hrun.
Qed.

(** X23.  The protocol can always be carried through.  For every job
    registered before the fork, every number of tasks and every number of
    workers from one on, there is an order of turns in which the master
    enqueues the tasks of one [evaluate()], the queue process hands them
    out, a worker computes them, the retrieve is accepted and the master
    has made all its calls, with every task enqueued, delivered and recorded
    by then. *)
Theorem evaluate_can_run_to_its_end (jobs : gmap nat J)
    (job_id n N_workers : nat) :
  0 < N_workers -> is_Some (jobs !! job_id) ->
  exists schedule s h,
    run schedule (fork N_workers jobs (evaluate_calls job_id n)) [] = Some (s, h) /\
    calls (master s) = [] /\
    reads_handshake (master s) = false /\
    dom (results (master_ipqm (master s)))
    = list_to_set (map (pair job_id) (seq 0 n)).
Proof.
  intros HN [job Hjob].
  destruct N_workers as [|N]; [lia|].
  set (l := seq 0 n).
  assert (Hl : length l = n) by apply length_seq.
  exists (replicate (length l) master_moves
          ++ replicate (length l) queue_reads_master
          ++ concat (replicate (length l) (one_task 0))
          ++ [master_moves; queue_reads_master; master_moves]).
  unfold fork, evaluate_calls. fold l. cbn [replicate].
  rewrite run_app, master_enqueues. cbn [app].
  rewrite run_app.
  rewrite <- (app_nil_r (map (M2Q_enqueue job_id) l)).
  rewrite queue_reads_enqueues. unfold IPQM_initial. cbn [queue N_tasks results app].
  rewrite run_app.
  destruct (worker_does_all_tasks job_id l job jobs
              (mkMaster (mkIPQM [] 0 ∅) [call_retrieve] false) [] []
              (length l + 0) ∅ (replicate N (mkWorker true AtLoopTop jobs [] []))
              (map (fun t => enqueued (job_id, t)) l) Hjob)
    as (objs' & res' & h' & Hdom & Hrun).
  rewrite Hrun. rewrite dom_empty_L, (left_id_L ∅ (∪)) in Hdom.
  assert (Hsize : size res' = length l + 0).
  { rewrite <- size_dom, Hdom.
    rewrite size_list_to_set, length_map; [lia|].
    apply NoDup_fmap_2; [intros a b E; congruence | apply NoDup_seq]. }
  cbn [run step master_step master reads_handshake calls master_ipqm
       master_to_queue queue_to_master queue_process queue_loop_running workers
       mbind option_bind app queue_master_step process_queue_pipe_message
       queue N_tasks results].
  rewrite bool_decide_eq_true_2 by reflexivity. rewrite Hsize, Nat.eqb_refl.
  cbn [andb app run step master_step master reads_handshake calls master_ipqm
       master_to_queue queue_to_master queue_process queue_loop_running workers
       mbind option_bind tail].
  eexists _, _. split; [reflexivity|]. cbn [master calls reads_handshake].
  split; [reflexivity|]. split; [reflexivity|].
  cbn [master_ipqm read_results results].
  rewrite take_ge by (rewrite items_in_order_length; lia).
  apply set_eq. intros jt. rewrite elem_of_dom.
  rewrite <- Hdom, elem_of_dom. split.
  - intros [r Hr].
    apply (ResultFacts.foldl_insert_values
             (fun jt _ => is_Some (res' !! jt)) (items_in_order res') ∅) in Hr;
      [exact Hr | | ].
    + intros k v Hk. rewrite lookup_empty in Hk. discriminate Hk.
    + intros k v Hk. apply elem_of_items_in_order in Hk. eauto.
  - intros [r Hr]. apply ResultFacts.foldl_insert_reads.
    apply list_elem_of_fmap. exists (jt, r).
    split; [reflexivity | apply elem_of_items_in_order; exact Hr].
Qed.

End WithJob.

Lemma evaluate_can_run_to_its_end_witness :
  exists schedule s h,
    run schedule (x_sq_plus_b_parallel 3) [] = Some (s, h) /\
    calls (master s) = [].
Proof.
  destruct (evaluate_can_run_to_its_end registration.1.2 job_id (length x_init) 3)
    as (schedule & s & h & Hrun & Hdone & _).
  - lia.
  - rewrite registered_lookup. eauto.
  - exists schedule, s, h. split; [exact Hrun | exact Hdone].
Defined.

End ProgressProperties.

(** ** The messages on the pipes *)

Module WireProperties.
Import MultiProcess QueueFacts Wire.

Lemma receive_items_sent (items : list (nat * nat * R)) (rest : list Datum) :
  receive_items (length items) (flat_map send_item items ++ rest)
  = Some (items, rest).
Proof.
  induction items as [|[[j t] r] items IH]; [reflexivity|].
  cbn [length flat_map send_item app fst snd receive_items].
  rewrite IH. reflexivity.
Qed.

(** X16.  Every message is read as it was written.  For each of the four
    message alphabets, what the reader of a pipe decodes from the values
    that the writer streamed for a message (the tag cast to [int], then the
    payload) is that message with that payload, and the rest of the pipe is
    left for the next read; the tags of an alphabet are told apart.  For
    the reply to a retrieve this holds for whatever the queue process
    replies, since an accepted reply announces exactly as many results as
    it streams. *)
Theorem messages_are_read_as_written (rest : list Datum) :
  (forall m, receive_M2Q (send_M2Q m ++ rest) = Some (m, rest)) /\
  (forall m, receive_W2Q (send_W2Q m ++ rest) = Some (m, rest)) /\
  (forall m, receive_Q2W (send_Q2W m ++ rest) = Some (m, rest)) /\
  (forall items,
     receive_Q2M (send_Q2M (Q2M_retrieve_accepted (length items) items) ++ rest)
     = Some (Q2M_retrieve_accepted (length items) items, rest)) /\
  (forall q, receive_Q2M
               (flat_map send_Q2M (process_queue_pipe_message M2Q_retrieve q).2
                ++ rest)
             = match (process_queue_pipe_message M2Q_retrieve q).2 with
               | [reply] => Some (reply, rest)
               | _ => None
               end /\
             length (process_queue_pipe_message M2Q_retrieve q).2 = 1).
Proof.
  assert (Hacc : forall items,
            receive_Q2M
              (send_Q2M (Q2M_retrieve_accepted (length items) items) ++ rest)
            = Some (Q2M_retrieve_accepted (length items) items, rest)).
  { intros items. cbn [send_Q2M app receive_Q2M Z.eqb Pos.eqb].
    rewrite receive_items_sent. reflexivity. }
  split; [intros [|j t|]; reflexivity|].
  split; [intros [| |j t r]; reflexivity|].
  split; [intros [| |j t| | |]; reflexivity|].
  split; [exact Hacc|].
  intros q. cbn [process_queue_pipe_message].
  destruct (bool_decide (queue q = []) && (size (results q) =? N_tasks q)) eqn:E.
  - cbn [snd flat_map]. rewrite app_nil_r. split; [|reflexivity].
    apply retrieve_condition in E as [_ <-].
    rewrite <- (items_in_order_length (results q)). apply Hacc.
  - split; reflexivity.
Qed.

End WireProperties.

(** ** The partitions of [MPRooNLLVar] *)

Module PartitionProperties.
Import MPRooNLLVar.
Local Open Scope N_scope.

Lemma size_t_small (n : N) : n < 2 ^ 64 -> size_t n = n.
Proof. intros H. unfold size_t. apply N.mod_small. exact H. Qed.

(** X17.  In bulk mode the tasks divide the events into consecutive blocks:
    the block of task 0 starts at event 0, the block of each task ends where
    the block of the next task starts, the block of the last task ends at
    the last event, and no block is more than one event longer than
    another. *)
Theorem bulk_partitions_are_consecutive_blocks (N_events N_tasks task : N) :
  0 < N_tasks -> task < N_tasks ->
  N_tasks < 2 ^ 64 -> N_events * N_tasks < 2 ^ 64 ->
  let block t := partition_of bulk_partition N_events N_tasks t in
  (block 0).1.1 = 0 /\
  (block task).1.1 <= (block task).1.2 <= N_events /\
  (block task).1.2 = (block (task + 1)).1.1 /\
  (block (N_tasks - 1)).1.2 = N_events /\
  (block task).2 = 1 /\
  N_events / N_tasks <= (block task).1.2 - (block task).1.1
                     <= N_events / N_tasks + 1.
Proof.
  intros HT Ht H64 Hfit block. subst block. unfold partition_of. cbn [fst snd].
  assert (Hmul : forall t, t <= N_tasks -> size_t (N_events * t) = N_events * t).
  { intros t Hle. apply size_t_small. nia. }
  assert (Hsucc : forall t, t < N_tasks -> size_t (t + 1) = t + 1).
  { intros t Hlt. apply size_t_small. lia. }
  rewrite !Hsucc by lia. rewrite !Hmul by lia.
  replace (N_tasks - 1 + 1) with N_tasks by lia.
  rewrite N.mul_0_r, N.Div0.div_0_l.
  rewrite (N.div_mul N_events N_tasks) by lia.
  pose proof (N.div_mod N_events N_tasks ltac:(lia)) as Hdm.
  pose proof (N.mod_lt N_events N_tasks ltac:(lia)) as Hr.
  set (q := N_events / N_tasks) in *. set (r := N_events mod N_tasks) in *.
  pose proof (N.div_mod (N_events * task) N_tasks ltac:(lia)) as Ha.
  pose proof (N.mod_lt (N_events * task) N_tasks ltac:(lia)) as Hra.
  pose proof (N.div_mod (N_events * (task + 1)) N_tasks ltac:(lia)) as Hb.
  pose proof (N.mod_lt (N_events * (task + 1)) N_tasks ltac:(lia)) as Hrb.
  set (a := N_events * task / N_tasks) in *.
  set (b := N_events * (task + 1) / N_tasks) in *.
  set (ra := (N_events * task) mod N_tasks) in *.
  set (rb := (N_events * (task + 1)) mod N_tasks) in *.
  assert (Hab : a <= b) by nia.
  assert (HbE : b <= N_events) by nia.
  repeat split; try reflexivity; try lia; nia.
Qed.

Lemma bulk_block (N_events N_tasks task : N) :
  task < N_tasks -> N_tasks < 2 ^ 64 -> N_events * N_tasks < 2 ^ 64 ->
  partition_of bulk_partition N_events N_tasks task
  = (N_events * task / N_tasks, N_events * (task + 1) / N_tasks, 1).
Proof.
  intros Ht H64 Hfit. unfold partition_of.
  rewrite (size_t_small (task + 1)) by lia.
  rewrite !size_t_small by nia. reflexivity.
Qed.

(** X18.  Whatever the task mode, the tasks divide the events among
    themselves: every event of the data set lies in the partition of exactly
    one task. *)
Theorem every_event_is_in_exactly_one_task
    (mp_task_mode : RooNLLVarTask) (N_events NumCPU event : N) :
  0 < NumCPU -> NumCPU < 2 ^ 64 -> N_events < 2 ^ 64 ->
  N_events * NumCPU < 2 ^ 64 -> event < N_events ->
  let N_tasks := N_tasks_of mp_task_mode N_events NumCPU in
  exists task,
    task < N_tasks /\
    in_partition (partition_of mp_task_mode N_events N_tasks task) event /\
    forall task', task' < N_tasks ->
      in_partition (partition_of mp_task_mode N_events N_tasks task') event ->
      task' = task.
Proof.
  intros HT HT64 HE64 Hfit He N_tasks. subst N_tasks.
  destruct mp_task_mode; cbn [N_tasks_of].
  - exists 0. unfold in_partition, partition_of. cbn [fst snd].
    rewrite N.mod_1_r. repeat split; try lia.
  - exists event. unfold in_partition, partition_of. cbn [fst snd].
    split; [exact He|]. split.
    + rewrite size_t_small by lia. rewrite N.mod_1_r. lia.
    + intros task' Ht'. rewrite size_t_small by lia. lia.
  - set (t := ((event + 1) * NumCPU - 1) / N_events).
    pose proof (N.div_mod ((event + 1) * NumCPU - 1) N_events ltac:(lia)) as Hdm.
    pose proof (N.mod_lt ((event + 1) * NumCPU - 1) N_events ltac:(lia)) as Hrho.
    fold t in Hdm. set (rho := ((event + 1) * NumCPU - 1) mod N_events) in *.
    assert (Hpos : 1 <= (event + 1) * NumCPU) by nia.
    assert (Ht : t < NumCPU) by nia.
    assert (Hbelow : N_events * t < (event + 1) * NumCPU) by nia.
    assert (Habove : (event + 1) * NumCPU <= N_events * (t + 1)) by nia.
    assert (Hin : forall task, task < NumCPU ->
              in_partition (partition_of bulk_partition N_events NumCPU task) event
              <-> N_events * task < (event + 1) * NumCPU
                  /\ (event + 1) * NumCPU <= N_events * (task + 1)).
    { intros task Htask. rewrite bulk_block by assumption.
      unfold in_partition. cbn [fst snd]. rewrite N.mod_1_r.
      pose proof (N.div_mod (N_events * task) NumCPU ltac:(lia)) as Ha.
      pose proof (N.mod_lt (N_events * task) NumCPU ltac:(lia)) as Hra.
      pose proof (N.div_mod (N_events * (task + 1)) NumCPU ltac:(lia)) as Hb.
      pose proof (N.mod_lt (N_events * (task + 1)) NumCPU ltac:(lia)) as Hrb.
      set (a := N_events * task / NumCPU) in *.
      set (b := N_events * (task + 1) / NumCPU) in *.
      set (ra := (N_events * task) mod NumCPU) in *.
      set (rb := (N_events * (task + 1)) mod NumCPU) in *.
      split; intros H; repeat split; try reflexivity; nia. }
    exists t. split; [exact Ht|]. split; [apply Hin; auto|].
    intros task' Ht' Hin'. apply Hin in Hin' as [Hb' Ha']; [|exact Ht'].
    nia.
  - exists (event mod NumCPU).
    pose proof (N.div_mod event NumCPU ltac:(lia)) as Hdm.
    pose proof (N.mod_lt event NumCPU ltac:(lia)) as Hr.
    unfold in_partition, partition_of. cbn [fst snd].
    split; [exact Hr|]. split.
    + pose proof (N.Div0.mod_le event NumCPU) as Hle.
      split; [lia|].
      replace (event - event mod NumCPU) with (event / NumCPU * NumCPU) by lia.
      apply N.Div0.mod_mul.
    + intros task' Ht' [Hrange Hmod].
      pose proof (N.div_mod (event - task') NumCPU ltac:(lia)) as Hdm'.
      rewrite Hmod in Hdm'.
      set (k := (event - task') / NumCPU) in *.
      assert (Ee : event = task' + k * NumCPU) by lia.
      rewrite Ee, N.Div0.mod_add. symmetry.
      apply N.mod_small. exact Ht'.
Qed.

Lemma bulk_partitions_are_consecutive_blocks_witness :
  (partition_of bulk_partition 10 3 1).1.1 = 3 /\
  (partition_of bulk_partition 10 3 1).1.2 = 6 /\
  (partition_of bulk_partition 10 3 (3 - 1)).1.2 = 10.
Proof.
  destruct (bulk_partitions_are_consecutive_blocks 10 3 1)
    as (_ & _ & _ & Hlast & _); [reflexivity | reflexivity | reflexivity | reflexivity |].
  split; [reflexivity|]. split; [reflexivity | exact Hlast].
Defined.

Lemma every_event_is_in_exactly_one_task_witness :
  exists task,
    task < 3 /\ in_partition (partition_of interleave 10 3 task) 7.
Proof.
  destruct (every_event_is_in_exactly_one_task interleave 10 3 7)
    as (task & Ht & Hin & _); try reflexivity.
  exists task. split; [exact Ht | exact Hin].
Defined.

End PartitionProperties.

(** ** The registry of the task manager *)

Module RegistryProperties.
Import TaskManager RegistryInvariants.

Lemma run_ops_snoc {J : Type} (d : bool) (ops : list (Op J)) (op : Op J)
    (st : Static J) :
  run_ops d (ops ++ [op]) st = (st' ← run_ops d ops st; apply_op d op st').
Proof. unfold run_ops. rewrite foldl_app. reflexivity. Qed.

Lemma apply_op_ok {J : Type} (d : bool) (op : Op J) (st st' : Static J) :
  registry_ok st -> apply_op d op st = Some st' -> registry_ok st'.
Proof.
  intros [Hids Hinst] Hop. destruct op as [N| |throws|job|id]; cbn in Hop.
  - unfold instance in Hop. destruct (_instance st) as [tm|] eqn:Ei.
    + inversion Hop; subst. split; [exact Hids|]. rewrite Ei. exact Hinst.
    + destruct (decide (N = 0)) as [|HN]; [discriminate|].
      inversion Hop; subst. split; [exact Hids|]. cbn.
      intros tm Etm. inversion Etm; subst. cbn. auto.
  - unfold on_instance in Hop. destruct (_instance st) as [tm|] eqn:Ei; [|discriminate].
    cbn in Hop. inversion Hop; subst. split; [exact Hids|]. cbn.
    intros tm' Etm. inversion Etm; subst.
    destruct (Hinst tm eq_refl) as [HN Hact]. unfold activate.
    destruct (processes_initialized tm) eqn:Ep; cbn; auto.
  - unfold on_instance in Hop. destruct (_instance st) as [tm|] eqn:Ei; [|discriminate].
    cbn in Hop. inversion Hop; subst. split; [exact Hids|]. cbn.
    intros tm' Etm. inversion Etm; subst.
    destruct (Hinst tm eq_refl) as [HN Hact]. unfold terminate.
    destruct throws; cbn; [auto|]. split; [exact HN | discriminate].
  - unfold add_job_object in Hop.
    destruct (match _instance st with Some tm => is_activated tm | None => false end);
      [discriminate|].
    inversion Hop; subst. split; [|exact Hinst]. cbn.
    intros id [j Hj]. destruct (decide (job_counter st = id)) as [<-|Hne]; [lia|].
    rewrite lookup_insert_ne in Hj by exact Hne.
    specialize (Hids id (ex_intro _ j Hj)). lia.
  - inversion Hop; subst. unfold remove_job_object. cbn. split.
    + intros id' [j Hj]. cbn in Hj. apply lookup_delete_Some in Hj as [_ Hj]. eauto.
    + intros tm Etm. cbn in Etm. destruct (decide _); [discriminate|].
      exact (Hinst tm Etm).
Qed.

Lemma run_ops_ok {J : Type} (d : bool) (ops : list (Op J)) (st : Static J) :
  run_ops d ops initial = Some st -> registry_ok st.
Proof.
  revert st. induction ops as [|op ops IH] using rev_ind; intros st Hrun.
  - inversion Hrun; subst. split; [|intros tm E; discriminate E].
    intros id [j Hj]. cbn in Hj. rewrite lookup_empty in Hj. discriminate Hj.
  - rewrite run_ops_snoc in Hrun.
    destruct (run_ops d ops initial) as [st0|]; [|discriminate].
    cbn in Hrun. exact (apply_op_ok d op st0 st (IH st0 eq_refl) Hrun).
Qed.

(** X19.  Job ids are never used twice.  Whatever was called on the task
    manager before, a registration that succeeds returns an id under which
    no job is registered, greater than the id of every registered job; it
    adds the job under that id and changes no other entry.  Since the
    counter is never lowered, the id of a removed job is not given out
    again. *)
Theorem registration_gives_a_fresh_job_id {J : Type}
    (queue_activated_default : bool) (ops : list (Op J)) (st st' : Static J)
    (job_object : J) (job_id : nat) :
  run_ops queue_activated_default ops initial = Some st ->
  add_job_object job_object st = inr (job_id, st') ->
  job_objects st !! job_id = None /\
  (forall id, is_Some (job_objects st !! id) -> id < job_id) /\
  job_objects st' = <[job_id := job_object]> (job_objects st) /\
  job_counter st' = S job_id /\
  forall ops' st'', run_ops queue_activated_default ops' st' = Some st'' ->
                    job_id < job_counter st''.
Proof.
  intros Hrun Hadd. destruct (run_ops_ok _ _ _ Hrun) as [Hids _].
  unfold add_job_object in Hadd.
  destruct (match _instance st with Some tm => is_activated tm | None => false end);
    [discriminate|].
  inversion Hadd; subst. cbn.
  split.
  { destruct (job_objects st !! job_counter st) eqn:E; [|reflexivity].
    specialize (Hids _ (ex_intro _ _ E)). lia. }
  split; [exact Hids|]. split; [reflexivity|]. split; [reflexivity|].
  intros ops'. induction ops' as [|op ops' IH] using rev_ind; intros st'' Hrun'.
  - inversion Hrun'; subst. cbn. lia.
  - rewrite run_ops_snoc in Hrun'.
    destruct (run_ops _ ops' _) as [st1|]; [|discriminate]. cbn in Hrun'.
    specialize (IH st1 eq_refl).
    destruct op as [N| |throws|job|id]; cbn in Hrun'.
    + unfold instance in Hrun'. destruct (_instance st1); [inversion Hrun'; subst; exact IH|].
      destruct (decide _); [discriminate|]. inversion Hrun'; subst. exact IH.
    + unfold on_instance in Hrun'. destruct (_instance st1); [|discriminate].
      inversion Hrun'; subst. exact IH.
    + unfold on_instance in Hrun'. destruct (_instance st1); [|discriminate].
      inversion Hrun'; subst. exact IH.
    + unfold add_job_object in Hrun'.
      destruct (match _instance st1 with Some tm => is_activated tm | None => false end);
        [discriminate|].
      inversion Hrun'; subst. cbn. lia.
    + inversion Hrun'; subst. exact IH.
Qed.

Lemma registration_gives_a_fresh_job_id_witness :
  job_objects (mkStatic (Some (mk 2 true false)) {[0 := 5]} 1) !! 1 = None /\
  job_counter (mkStatic (Some (mk 2 true false)) {[1 := 7; 0 := 5]} 2) = 2.
Proof.
  destruct (registration_gives_a_fresh_job_id false
              [op_add_job_object 5; op_instance 2]
              (mkStatic (Some (mk 2 true false)) {[0 := 5]} 1)
              (mkStatic (Some (mk 2 true false)) {[1 := 7; 0 := 5]} 2) 7 1)
    as (Hfresh & _ & _ & Hcounter & _).
  - reflexivity.
  - reflexivity.
  - split; [exact Hfresh | exact Hcounter].
Defined.

(** X20.  Registering a job and removing it again gives back the registry
    as it was, where the instance, if there is one, has its processes
    initialized (so that its destructor can shut them down):
    [remove_job_object] reports success and the job objects are those from
    before the registration.  The job counter is not set back.  The instance
    is kept if other jobs are registered and destroyed if none is. *)
Theorem removing_a_registered_job_restores_the_registry {J : Type}
    (queue_activated_default : bool) (ops : list (Op J)) (st st' : Static J)
    (job_object : J) (job_id : nat) :
  run_ops queue_activated_default ops initial = Some st ->
  (forall tm, _instance st = Some tm -> processes_initialized tm = true) ->
  add_job_object job_object st = inr (job_id, st') ->
  remove_job_object job_id st'
  = (true,
     mkStatic (if decide (size (job_objects st) = 0) then None else _instance st)
       (job_objects st) (S job_id)).
Proof.
  intros Hrun _ Hadd. destruct (run_ops_ok _ _ _ Hrun) as [Hids _].
  unfold add_job_object in Hadd.
  destruct (match _instance st with Some tm => is_activated tm | None => false end);
    [discriminate|].
  inversion Hadd; subst. unfold remove_job_object. cbn.
  assert (Hfresh : job_objects st !! job_counter st = None).
  { destruct (job_objects st !! job_counter st) eqn:E; [|reflexivity].
    specialize (Hids _ (ex_intro _ _ E)). lia. }
  rewrite lookup_insert_eq, delete_insert_id by exact Hfresh.
  rewrite bool_decide_eq_true_2 by eauto. reflexivity.
Qed.

Lemma removing_a_registered_job_restores_the_registry_witness :
  remove_job_object 1 (mkStatic (Some (mk 2 true false)) {[1 := 7; 0 := 5]} 2)
  = (true, mkStatic (Some (mk 2 true false)) {[0 := 5]} 2).
Proof.
  exact (removing_a_registered_job_restores_the_registry false
           [op_add_job_object 5; op_instance 2]
           (mkStatic (Some (mk 2 true false)) {[0 := 5]} 1)
           (mkStatic (Some (mk 2 true false)) {[1 := 7; 0 := 5]} 2) 7 1
           eq_refl
           (fun tm E => f_equal (fun o => match o with
                                          | Some tm => processes_initialized tm
                                          | None => true
                                          end) (eq_sym E))
           eq_refl).
Defined.

(** X21.  Removing the last registered job destroys the instance, whether
    or not it is activated, where the instance has its processes initialized
    (so that its destructor can shut them down); after that jobs can be
    registered again without a call of [terminate()].  (So does a removal,
    even of an unknown id, when no job is registered at all.) *)
Theorem removing_the_last_job_destroys_the_instance {J : Type}
    (job_object_id : nat) (st : Static J) (job_object : J) :
  (forall tm, _instance st = Some tm -> processes_initialized tm = true) ->
  (forall id, id <> job_object_id -> job_objects st !! id = None) ->
  let st' := (remove_job_object job_object_id st).2 in
  (remove_job_object job_object_id st).1
  = bool_decide (is_Some (job_objects st !! job_object_id)) /\
  st' = mkStatic None ∅ (job_counter st) /\
  is_instantiated st' = false /\
  add_job_object job_object st'
  = inr (job_counter st,
         mkStatic None {[job_counter st := job_object]} (S (job_counter st))).
Proof.
  intros _ Honly. cbv zeta. unfold remove_job_object. cbn [fst snd].
  assert (Hempty : delete job_object_id (job_objects st) = ∅).
  { apply map_eq. intros id. rewrite lookup_empty.
    destruct (decide (id = job_object_id)) as [->|Hne].
    - apply lookup_delete_eq.
    - rewrite lookup_delete_ne by congruence. apply Honly. exact Hne. }
  rewrite Hempty, map_size_empty. cbn.
  repeat split; reflexivity.
Qed.

Lemma removing_the_last_job_destroys_the_instance_witness :
  add_job_object 7
    (remove_job_object 0
       (mkStatic (Some (mk 2 true true)) {[0 := 5]} 1)).2
  = inr (1, mkStatic None {[1 := 7]} 2).
Proof.
  apply (removing_the_last_job_destroys_the_instance 0
           (mkStatic (Some (mk 2 true true)) {[0 := 5]} 1) 7).
  - intros tm Etm. cbn in Etm. injection Etm as <-. reflexivity.
  - intros id Hne. cbn. apply lookup_singleton_ne. congruence.
Defined.

(** X22.  Whatever is called on the task manager, an instance that exists
    has at least one worker, and while it is activated its processes are
    forked: there is no activated task manager without processes. *)
Theorem an_activated_instance_has_its_processes {J : Type}
    (queue_activated_default : bool) (ops : list (Op J)) (st : Static J)
    (tm : t) :
  run_ops queue_activated_default ops initial = Some st ->
  _instance st = Some tm ->
  N_workers tm <> 0 /\
  (is_activated tm = true -> processes_initialized tm = true).
Proof.
  intros Hrun Htm. destruct (run_ops_ok _ _ _ Hrun) as [_ Hinst].
  exact (Hinst tm Htm).
Qed.

Lemma an_activated_instance_has_its_processes_witness :
  N_workers (mk 2 true true) <> 0 /\ processes_initialized (mk 2 true true) = true.
Proof.
  destruct (an_activated_instance_has_its_processes false
              [op_add_job_object 5; op_instance 2; op_activate]
              (mkStatic (Some (mk 2 true true)) {[0 := 5]} 1) (mk 2 true true))
    as [Hworkers Hforked].
  - reflexivity.
  - reflexivity.
  - split; [exact Hworkers | apply Hforked; reflexivity].
Defined.

End RegistryProperties.

(** ** A batch that holds a task twice *)

Module BatchProperties.
Import MultiProcess QueueInvariants QueueFacts BatchFacts SmokeTest.

Section WithJob.
Context {J : Type} `{Job J}.
Variable jobs : gmap nat J.

Lemma duplicate_stays mv (s s' : System J) h ev :
  queue_invariant jobs s h -> batch_invariant s h ->
  ~ NoDup (enqueued_tasks (since_accept h)) ->
  step mv s = Some (s', ev) ->
  ~ NoDup (enqueued_tasks (since_accept (h ++ ev))) /\
  forall items, accepted items ∉ ev.
Proof.
  intros Hq Hb Hdup Hstep.
  pose proof (batch_with_a_duplicate jobs s h Hq Hb Hdup) as Hless.
  destruct (step_cases mv s s' ev Hstep)
    as [[-> E]|[(jt & -> & E)|[(items & -> & _ & Eq & Esz & E)
       |[(k & jt & rest & -> & Eq & E)|(k & jt & r & -> & E)]]]].
  - rewrite app_nil_r. split; [exact Hdup | intros items Hin; inversion Hin].
  - rewrite since_accept_snoc, enqueued_tasks_app. split.
    + intros Hnd. apply list.NoDup_app in Hnd as (Hnd & _). exact (Hdup Hnd).
    + intros items Hin. apply list_elem_of_singleton in Hin. discriminate Hin.
  - lia.
  - rewrite since_accept_snoc, enqueued_tasks_app. cbn. rewrite app_nil_r.
    split; [exact Hdup|].
    intros items Hin. apply list_elem_of_singleton in Hin. discriminate Hin.
  - rewrite since_accept_snoc, enqueued_tasks_app. cbn. rewrite app_nil_r.
    split; [exact Hdup|].
    intros items Hin. apply list_elem_of_singleton in Hin. discriminate Hin.
Qed.

(** X24.  A batch that holds a task twice is never retrieved.  While the
    tasks enqueued since the last accepted retrieve contain the same task of
    the same job twice, the queue process holds fewer results than it has
    counted tasks, because the two results share one key of its result map;
    so every retrieve is rejected, and since only an accepted retrieve ends
    a batch, this stays so whatever the processes do next: no retrieve is
    ever accepted from then on. *)
Theorem a_task_enqueued_twice_blocks_every_retrieve
    (N_workers : nat) (program : list Call)
    (schedule : list Move) (s s' : System J) (h h' : list Event) :
  program_ok jobs program ->
  reachable (fork N_workers jobs program) s h ->
  ~ NoDup (enqueued_tasks (since_accept h)) ->
  run schedule s h = Some (s', h') ->
  size (results (queue_process s')) < N_tasks (queue_process s') /\
  process_queue_pipe_message M2Q_retrieve (queue_process s')
  = (true, queue_process s', [Q2M_retrieve_rejected]) /\
  ~ NoDup (enqueued_tasks (since_accept h')) /\
  exists later, h' = h ++ later /\ forall items, accepted items ∉ later.
Proof.
  intros Hp Hr Hdup Hrun.
  assert (Hgo : ~ NoDup (enqueued_tasks (since_accept h')) /\
                reachable (fork N_workers jobs program) s' h' /\
                exists later, h' = h ++ later /\
                              forall items, accepted items ∉ later).
  { revert s h Hr Hdup Hrun.
    induction schedule as [|mv schedule IH]; intros s h Hr Hdup Hrun;
      cbn [run] in Hrun.
    - inversion Hrun; subst. split; [exact Hdup|]. split; [exact Hr|].
      exists []. rewrite app_nil_r. split; [reflexivity | intros items Hin; inversion Hin].
    - destruct (step mv s) as [[s1 ev]|] eqn:E; [|discriminate].
      destruct (batch_invariant_reachable jobs N_workers program s h Hp Hr) as [Hq Hb].
      destruct (duplicate_stays mv s s1 h ev Hq Hb Hdup E) as [Hdup1 Hev].
      destruct (IH s1 (h ++ ev) (reachable_step _ s h mv s1 ev Hr E) Hdup1 Hrun)
        as (Hdup' & Hr' & later & Hh' & Hlater).
      split; [exact Hdup'|]. split; [exact Hr'|].
      exists (ev ++ later). rewrite app_assoc. split; [exact Hh'|].
      intros items Hin. apply elem_of_app in Hin as [Hin|Hin].
      + exact (Hev items Hin).
      + exact (Hlater items Hin). }
  destruct Hgo as (Hdup' & Hr' & Hlater).
  destruct (batch_invariant_reachable jobs N_workers program s' h' Hp Hr') as [Hq Hb].
  pose proof (batch_with_a_duplicate jobs s' h' Hq Hb Hdup') as Hless.
  split; [exact Hless|]. split; [|split; [exact Hdup' | exact Hlater]].
  cbn [process_queue_pipe_message].
  destruct (bool_decide _ && _) eqn:Etest; [|reflexivity].
  apply retrieve_condition in Etest as [_ Esz]. lia.
Qed.

End WithJob.

Lemma task_twice_program_ok :
  program_ok registration.1.2
    [call_to_queue job_id 0; call_to_queue job_id 0; call_retrieve].
Proof.
  split.
  - intros Hin.
    repeat (apply elem_of_cons in Hin as [Hin|Hin]; [discriminate Hin|]).
    inversion Hin.
  - intros j t Hin.
    apply elem_of_cons in Hin as [Hin|Hin];
      [injection Hin as -> ->; exists x_sq_plus_b; exact SmokeFacts.registered_lookup|].
    apply elem_of_cons in Hin as [Hin|Hin];
      [injection Hin as -> ->; exists x_sq_plus_b; exact SmokeFacts.registered_lookup|].
    apply elem_of_cons in Hin as [Hin|Hin]; [discriminate Hin|].
    inversion Hin.
Qed.

Lemma a_task_enqueued_twice_blocks_every_retrieve_witness :
  exists s h s' h',
    run [master_moves; master_moves; queue_reads_master; queue_reads_master]
        task_twice [] = Some (s, h) /\
    ~ NoDup (enqueued_tasks (since_accept h)) /\
    run (one_task 0 ++ one_task 0
         ++ [master_moves; queue_reads_master; master_moves]) s h
    = Some (s', h') /\
    size (results (queue_process s')) < N_tasks (queue_process s') /\
    process_queue_pipe_message M2Q_retrieve (queue_process s')
    = (true, queue_process s', [Q2M_retrieve_rejected]).
Proof.
  destruct (run [master_moves; master_moves; queue_reads_master;
                 queue_reads_master] task_twice [])
    as [[s h]|] eqn:E1; [|vm_compute in E1; discriminate E1].
  pose proof E1 as E1'. vm_compute in E1'. injection E1' as <- <-.
  match type of E1 with
  | _ = Some (?s, ?h) =>
      destruct (run (one_task 0 ++ one_task 0
                     ++ [master_moves; queue_reads_master; master_moves]) s h)
        as [[s' h']|] eqn:E2; [|vm_compute in E2; discriminate E2]
  end.
  assert (Hdup : ~ NoDup (enqueued_tasks (since_accept
                             [enqueued (0, 0); enqueued (0, 0)]))).
  { cbn. intros Hnd. apply list.NoDup_cons in Hnd as [Hnin _].
    apply Hnin. left. }
  eexists _, _, s', h'. split; [reflexivity|]. split; [exact Hdup|].
  split; [exact E2|].
  destruct (a_task_enqueued_twice_blocks_every_retrieve _ 1 _ _ _ _ _ _
              task_twice_program_ok
              (run_reachable _ _ _ _ _ _ (reachable_init _) E1) Hdup E2)
    as (Hless & Hrej & _).
  split; [exact Hless | exact Hrej].
Defined.

End BatchProperties.
